(** * parsix: a shallow embedding of the parser construction toolkit

  The development follows the layout of the C++ sources:

  - [Cpp]       : [size_t] arithmetic and the outcomes of a C++ call
                  (normal return, exception, abort, undefined behaviour);
  - [FSM]       : [FiniteStateMachine] and [DeterFiniteAutomatan] (DFA.h);
  - [PTable]    : [LRTableEntry] and [LRParsingTable] (ptable.h);
  - [Grammar]   : symbols, production records, production vectors and the
                  FIRST / FOLLOW computations (production.h);
  - [Items]     : LR items, item sets, CLOSURE and GOTO (item.h);
  - [Lexer]     : the lexical analyzer (LexicalAnalyzer.h);
  - [LR]        : the LR driver (LRParser.h);
  - [LL]        : the LL driver and its panic mode (LLParser.h).

  Vectors are lists whose last element is [back()]; [std::set] is a list
  kept in the order of the comparator, because the code iterates over it. *)

From Stdlib Require Import ZArith Lia Ascii String Bool Sorted.
From stdpp Require Import base tactics option list numbers.

Local Open Scope Z_scope.

(* ===================================================================== *)
(** ** C++ preliminaries *)
(* ===================================================================== *)

Module Cpp.

(** [size_t] and [unsigned long long] are 64-bit: arithmetic wraps. *)
Definition SIZE_MAX : Z := 2 ^ 64 - 1.
Definition wrap (z : Z) : Z := z mod 2 ^ 64.

(** [v.size()] of a vector modelled by a list. *)
Definition size {A} (v : list A) : Z := Z.of_nat (length v).

(** How a call can end other than by returning. *)
Inductive Failure : Type :=
| LogicError (what : string)      (* throw std::logic_error *)
| RuntimeError (what : string)    (* throw std::runtime_error *)
| InvalidArgument (what : string) (* throw std::invalid_argument *)
| RangeError                      (* throw std::range_error *)
| OutOfRange                      (* std::out_of_range thrown by at() *)
| MissingValue                    (* throw MissingValueException *)
| ProcessAbort                    (* std::abort(), a failed assert *)
| Undefined                       (* undefined behaviour *)
| OutOfFuel.                      (* the bound put on a loop by the model *)

Inductive Res (A : Type) : Type :=
| Ret (a : A)
| Raise (f : Failure).
Arguments Ret {A} a.
Arguments Raise {A} f.

Definition bind {A B} (m : Res A) (k : A -> Res B) : Res B :=
  match m with
  | Ret a => k a
  | Raise f => Raise f
  end.

#[global] Instance Res_ret : MRet Res := fun A a => Ret a.
#[global] Instance Res_bind : MBind Res := fun A B k m => bind m k.

(** Member functions that mutate their object: the object is threaded
    through the call and survives an exception. *)
Definition StateRes (S A : Type) : Type := S -> Res A * S.

Definition st_ret {S A} (a : A) : StateRes S A := fun s => (Ret a, s).
Definition st_bind {S A B} (m : StateRes S A) (k : A -> StateRes S B)
  : StateRes S B :=
  fun s => match m s with
           | (Ret a, s') => k a s'
           | (Raise f, s') => (Raise f, s')
           end.

#[global] Instance StateRes_ret {S} : MRet (StateRes S) := fun A a => st_ret a.
#[global] Instance StateRes_bind {S} : MBind (StateRes S) :=
  fun A B k m => st_bind m k.

Definition throw {S A} (f : Failure) : StateRes S A := fun s => (Raise f, s).
Definition lift {S A} (r : Res A) : StateRes S A := fun s => (r, s).
Definition gets {S A} (f : S -> A) : StateRes S A := fun s => (Ret (f s), s).
Definition modify {S} (f : S -> S) : StateRes S unit := fun s => (Ret tt, f s).

(** [v.at(i)]: bounds-checked access. *)
Definition at_ {A} (v : list A) (i : nat) : Res A :=
  match v !! i with
  | Some a => Ret a
  | None => Raise OutOfRange
  end.

(** [v[i]]: unchecked access. *)
Definition index {A} (v : list A) (i : nat) : Res A :=
  match v !! i with
  | Some a => Ret a
  | None => Raise Undefined
  end.

(** [v.back()], [None] on an empty vector, and [v.pop_back()]. *)
Definition back {A} (v : list A) : option A := list.last v.
Definition pop_back {A} (v : list A) : list A := removelast v.

(** [v.resize(n)] with value-initialised new elements [d]. *)
Definition resize {A} (n : nat) (d : A) (v : list A) : list A :=
  take n v ++ replicate (n - length v) d.

End Cpp.
Import Cpp.

(* ===================================================================== *)
(** ** LR table entries (ptable.h) *)
(* ===================================================================== *)

Module PTable.

Inductive LRTableEntryType : Type :=
| TET_ACTION_SHIFT
| TET_ACTION_REDUCE
| TET_GOTO
| TET_ACCEPT
| TET_ERROR
| TET_COUNT.

#[global] Instance LRTableEntryType_eq_dec : EqDecision LRTableEntryType.
Proof. solve_decision. Defined.

Record LRTableEntry : Type := mkEntry {
  isEmpty : bool;               (* = true *)
  type : LRTableEntryType;      (* = TET_ERROR *)
  number : Z                    (* size_t, = SIZE_MAX *)
}.

(** The value-initialised entry, [LRTableEntry{}]. *)
Definition empty_entry : LRTableEntry := mkEntry true TET_ERROR SIZE_MAX.

Definition TE_SHIFT (state : Z) := mkEntry false TET_ACTION_SHIFT state.
Definition TE_REDUCE (prodNum : Z) := mkEntry false TET_ACTION_REDUCE prodNum.
Definition TE_GOTO (state : Z) := mkEntry false TET_GOTO state.
Definition TE_ACCEPT := mkEntry false TET_ACCEPT SIZE_MAX.
Definition TE_ERROR := mkEntry false TET_ERROR SIZE_MAX.

(** [LRTableEntry::operator==]. *)
Definition entry_eqb (lhs rhs : LRTableEntry) : bool :=
  let initCond :=
    Bool.eqb (isEmpty lhs) (isEmpty rhs) && bool_decide (type lhs = type rhs) in
  if negb initCond then false
  else if bool_decide (type lhs = TET_ACTION_SHIFT)
          || bool_decide (type lhs = TET_ACTION_REDUCE)
       then number lhs =? number rhs
  else true.

Definition isError (e : LRTableEntry) : bool :=
  isEmpty e || bool_decide (type e = TET_ERROR).

Definition isAccept (e : LRTableEntry) : bool :=
  bool_decide (type e = TET_ACCEPT).

End PTable.

(* ===================================================================== *)
(** ** Finite state machines (FiniteStateMachine.h, DFA.h) *)
(* ===================================================================== *)

Module FSM.

(** [using FSMStateType = unsigned]. *)
Definition FSMStateType : Type := nat.

(** [FSMStateSetType] wraps a [std::set<FSMStateType>]: the list is in
    ascending order and [begin()] is its head. *)
Definition FSMStateSetType : Type := list FSMStateType.

(** [FSMStateSetType(const FSMStateType state)]. *)
Definition set_of_state (state : FSMStateType) : FSMStateSetType := [state].

(** [explicit operator FSMStateType() const]: the empty set converts to the
    value-initialised state, any other set to [*begin()]. *)
Definition state_of_set (s : FSMStateSetType) : FSMStateType :=
  match s with
  | [] => 0%nat
  | x :: _ => x
  end.

Definition contains (s : FSMStateSetType) (val : FSMStateType) : bool :=
  existsb (Nat.eqb val) s.

(** [IndexType] is [unsigned long long]. *)
Record Indecies : Type := mkIndecies {
  start : Z;
  end_ : Z
}.

Definition InputT : Type := list ascii.

Record FSMResult : Type := mkFSMResult {
  accepted : bool;
  finalState : FSMStateSetType;
  indecies : Indecies;
  input : InputT
}.

(** [TransFuncT] is a template parameter: any callable from a state and an
    input character to a state set.  [m_MachineType], [m_Flags] and the
    logger take no part in the simulation. *)
Record FiniteStateMachine : Type := mkFSM {
  m_FinalStates : FSMStateSetType;
  m_TransitionFunc : FSMStateType -> ascii -> FSMStateSetType
}.

Definition START_STATE : FSMStateType := 1%nat.
Definition DEAD_STATE : FSMStateType := 0%nat.

(** [FSMTable::operator()] reads [table[state][c]], growing the table with
    empty sets where the entry is missing; [TransitionFunction<FSMTable>]
    forwards to it. *)
Definition FSMTable : Type := list (list FSMStateSetType).

Definition TransFn (table : FSMTable) : FSMStateType -> ascii -> FSMStateSetType :=
  fun state c => default [] (table !! state ≫= fun stateMap => stateMap !! nat_of_ascii c).

(** [Substring<FSMStateType>]: a matched substring, with [size()].  Its
    members are [matchedStates] and [indecies]; they are prefixed here
    because [FSMResult] has an [indecies] as well. *)
Record Substring : Type := mkSubstring {
  sub_matchedStates : list FSMStateType;
  sub_indecies : Indecies
}.

Definition sub_size (d : Substring) : Z := size (sub_matchedStates d).

(** [Indecies::operator+]. *)
Definition Indecies_add (i : Indecies) (num : Z) : Indecies :=
  mkIndecies (wrap (start i + num)) (wrap (end_ i + num)).

(** [std::string_view::substr(pos, count)]: throws [std::out_of_range] when
    [pos > size()]; the result ends with the view. *)
Definition substr (v : InputT) (pos count : Z) : Res InputT :=
  if size v <? pos then Raise OutOfRange
  else Ret (take (Z.to_nat count) (drop (Z.to_nat pos) v)).

(** [FSMResult::size] and [FSMResult::getMatch]. *)
Definition FSMResult_size (r : FSMResult) : Z :=
  wrap (end_ (indecies r) - start (indecies r)).

Definition getMatch (r : FSMResult) : Res InputT :=
  substr (input r) (start (indecies r)) (FSMResult_size r).

(** [enum class FSM_MODE]. *)
Inductive FSM_MODE : Type :=
| MM_WHOLE_STRING
| MM_LONGEST_PREFIX
| MM_LONGEST_SUBSTRING
| MM_NONE
| MM_FSM_MODE_MAX.

Section Machine.
Context (M : FiniteStateMachine).

(** [_is_state_final]. *)
Definition _is_state_final (state : FSMStateSetType) : bool :=
  existsb (fun s => contains (m_FinalStates M) s) state.

(** [_get_final_states_from_state_set]. *)
Definition _get_final_states_from_state_set (state : FSMStateSetType)
  : FSMStateSetType :=
  List.filter (fun s => contains (m_FinalStates M) s) state.

(** The [for (auto c : input)] loop of [_simulate_whole_string]. *)
Fixpoint whole_string_loop (rest : InputT) (currState : FSMStateType)
  : FSMStateType :=
  match rest with
  | [] => currState
  | c :: rest' =>
      let currState := state_of_set (m_TransitionFunc M currState c) in
      if (currState =? DEAD_STATE)%nat then currState
      else whole_string_loop rest' currState
  end.

Definition _simulate_whole_string (input : InputT) : FSMResult :=
  let startState := START_STATE in
  let currState := whole_string_loop input startState in
  let accepted := _is_state_final (set_of_state currState) in
  mkFSMResult accepted
    (if accepted then set_of_state currState else set_of_state startState)
    (mkIndecies 0 (if accepted then size input else 0))
    input.

(** The [for (; charIndex < input.size(); charIndex++)] loop of
    [_simulate_longest_prefix].  [rest] is [input] from position
    [charIndex] on; the result is [charIndex] and [matchedStates] when the
    loop is left. *)
Fixpoint longest_prefix_loop (rest : InputT) (charIndex : Z)
    (currState : FSMStateType) (matchedStates : list FSMStateType)
  : Z * list FSMStateType :=
  match rest with
  | [] => (charIndex, matchedStates)
  | c :: rest' =>
      let currState := state_of_set (m_TransitionFunc M currState c) in
      if (currState =? DEAD_STATE)%nat then
        ((if negb (charIndex =? 0) then wrap (charIndex - 1) else charIndex),
         matchedStates)
      else
        longest_prefix_loop rest' (wrap (charIndex + 1)) currState
          (matchedStates ++ [currState])
  end.

(** [_check_accepted_longest_prefix]: the path is scanned from its end
    ([rv] is the reversed view); [charIndex] is passed by reference and is
    returned with the flag.  [charIndex < 0] never holds for a [size_t]. *)
Fixpoint check_loop (rv : list FSMStateType) (charIndex : Z) : bool * Z :=
  match rv with
  | [] => (false, charIndex)
  | state :: rv' =>
      if _is_state_final (set_of_state state) then (true, charIndex)
      else check_loop rv' (wrap (charIndex - 1))
  end.

Definition _check_accepted_longest_prefix (matchedStates : list FSMStateType)
    (charIndex : Z) : bool * Z :=
  check_loop (rev matchedStates) charIndex.

Definition _simulate_longest_prefix (input : InputT) : FSMResult :=
  let startState := START_STATE in
  let '(charIndex, matchedStates) :=
    longest_prefix_loop input 0 startState [startState] in
  let charIndex :=
    if charIndex =? size input then wrap (charIndex - 1) else charIndex in
  let '(accepted, charIndex) :=
    _check_accepted_longest_prefix matchedStates charIndex in
  let start := 0 in
  let end_ := if accepted then wrap (charIndex + 1) else 0 in
  let finalStates :=
    _get_final_states_from_state_set
      (set_of_state (List.last matchedStates startState)) in
  mkFSMResult accepted finalStates (mkIndecies start end_) input.

(** The [for (; charIndex < input.size(); charIndex++)] loop of
    [_check_accepted_substring]; [rest] is [input] from position
    [charIndex] on. *)
Fixpoint substring_loop (rest : InputT) (charIndex : Z)
    (currState : FSMStateType) (matchedStates : list FSMStateType)
  : Z * list FSMStateType :=
  match rest with
  | [] => (charIndex, matchedStates)
  | c :: rest' =>
      let currState := state_of_set (m_TransitionFunc M currState c) in
      if (currState =? DEAD_STATE)%nat then
        (wrap (charIndex - 1), matchedStates)
      else
        substring_loop rest' (wrap (charIndex + 1)) currState
          (matchedStates ++ [currState])
  end.

(** [_check_accepted_substring]: [matchedStates] and [charIndex] are passed
    by reference and are returned with the flag; [endIndex] is a local. *)
Definition _check_accepted_substring (input : InputT)
    (matchedStates : list FSMStateType) (startIndex charIndex : Z)
  : Res (bool * list FSMStateType * Z) :=
  if negb (startIndex =? charIndex) then Raise ProcessAbort
  else
    let startState := START_STATE in
    let '(charIndex, matchedStates) :=
      substring_loop (drop (Z.to_nat charIndex) input) charIndex startState
        matchedStates in
    let charIndex :=
      if charIndex =? size input then wrap (charIndex - 1) else charIndex in
    let endIndex := wrap (size matchedStates + startIndex) in
    let '(accepted, _) := _check_accepted_longest_prefix matchedStates endIndex in
    Ret (accepted, matchedStates, charIndex).

(** The [for (; charIndex < input.size(); charIndex = ++startIndex)] loop of
    [_simulate_longest_substring]; [rest] is [input] from position
    [startIndex] on, and [charIndex] equals [startIndex] when the body is
    entered.  The result is [matchedStates] and [matchedStatesSets] when
    the loop is left. *)
Fixpoint longest_substring_loop (input rest : InputT) (startIndex : Z)
    (matchedStates : list FSMStateType) (matchedStatesSets : list Substring)
  : Res (list FSMStateType * list Substring) :=
  match rest with
  | [] => Ret (matchedStates, matchedStatesSets)
  | _ :: rest' =>
      let charIndex := startIndex in
      '(accepted, matchedStates, charIndex) ←
        _check_accepted_substring input matchedStates startIndex charIndex;
      let matchedStatesSets :=
        if accepted : bool then
          matchedStatesSets ++
            [mkSubstring matchedStates
               (mkIndecies startIndex (wrap (charIndex + 1)))]
        else matchedStatesSets in
      if accepted && (wrap (size input - startIndex) <? size matchedStates)
      then Ret (matchedStates, matchedStatesSets)
      else
        longest_substring_loop input rest' (wrap (startIndex + 1))
          (resize 1 0%nat matchedStates) matchedStatesSets
  end.

(** The [for (const auto& data : rv)] loop that chooses the longest
    substring; [longest] is a pointer, null at first. *)
Fixpoint choose_longest (rv : list Substring) (longest : option Substring)
    (size_ : Z) : option Substring :=
  match rv with
  | [] => longest
  | data :: rv' =>
      if size_ <? sub_size data then choose_longest rv' (Some data) (sub_size data)
      else choose_longest rv' longest size_
  end.

Definition _simulate_longest_substring (input : InputT) : Res FSMResult :=
  let startState := START_STATE in
  '(matchedStates, matchedStatesSets) ←
    longest_substring_loop input input 0 [startState] [];
  if negb (size matchedStatesSets =? 0) then
    match choose_longest (rev matchedStatesSets) None 0 with
    | None => Raise Undefined
    | Some longest =>
        let startIndex := start (sub_indecies longest) in
        let endIndex := end_ (sub_indecies longest) in
        match back matchedStates with
        | None => Raise Undefined
        | Some finalState =>
            Ret (mkFSMResult true (set_of_state finalState)
                   (mkIndecies startIndex endIndex) input)
        end
    end
  else Ret (mkFSMResult false (set_of_state startState) (mkIndecies 0 0) input).

(** [simulate]: the other modes throw [UnrecognizedSimModeException], a
    [std::runtime_error]. *)
Definition simulate (input : InputT) (mode : FSM_MODE) : Res FSMResult :=
  match mode with
  | MM_WHOLE_STRING => Ret (_simulate_whole_string input)
  | MM_LONGEST_PREFIX => Ret (_simulate_longest_prefix input)
  | MM_LONGEST_SUBSTRING => _simulate_longest_substring input
  | _ => Raise (RuntimeError "Unrecognized mode give to `simulate()` function.")
  end.

(** A string is accepted by the machine when the whole-string simulation
    accepts it. *)
Definition accepts (s : InputT) : bool := accepted (_simulate_whole_string s).

(** [s[0..k)] is an accepted prefix of [s]. *)
Definition accepted_prefix (s : InputT) (k : nat) : Prop :=
  (k <= length s)%nat /\ accepts (take k s) = true.

(** [k] is the length of the longest accepted prefix of [s]. *)
Definition longest_accepted_prefix (s : InputT) (k : nat) : Prop :=
  accepted_prefix s k /\ forall k', accepted_prefix s k' -> (k' <= k)%nat.

(** The states reached from [q] by the bytes of [s], up to the byte that
    leads to the dead state: what the loop of [_simulate_longest_prefix]
    appends to [matchedStates]. *)
Fixpoint path (s : InputT) (q : FSMStateType) : list FSMStateType :=
  match s with
  | [] => []
  | c :: s' =>
      let q' := state_of_set (m_TransitionFunc M q c) in
      if (q' =? DEAD_STATE)%nat then [] else q' :: path s' q'
  end.

(** The first byte of [s] leads from the start state to the dead state. *)
Definition dead_on_first_byte (s : InputT) : bool :=
  match s with
  | [] => false
  | c :: _ => (state_of_set (m_TransitionFunc M START_STATE c) =? DEAD_STATE)%nat
  end.

(** The state [q] is final. *)
Definition is_final (q : FSMStateType) : bool := _is_state_final (set_of_state q).

(** The position of the first final state of a list of states. *)
Fixpoint first_final (l : list FSMStateType) : option nat :=
  match l with
  | [] => None
  | q :: l' =>
      if _is_state_final (set_of_state q) then Some 0%nat
      else S <$> first_final l'
  end.

End Machine.

End FSM.

(* ===================================================================== *)
(** ** Grammars: symbols, productions, FIRST and FOLLOW (production.h) *)
(* ===================================================================== *)

(** The terminal and non-terminal enumerations are template parameters.
    The code needs the enumerators [T_EPSILON] and [T_EOF] and the counts
    [T_COUNT] and [NT_COUNT]; enumerators are used through their values. *)
Class Enums : Type := mkEnums {
  T_EPSILON : nat;
  T_EOF : nat;
  T_COUNT : nat;
  NT_COUNT : nat
}.

Module Grammar.

(** [GrammaticalSymbol]: a flag and a union of the two enumerations.  Both
    members of the union share their storage, which is the field [as_]. *)
Record GrammaticalSymbol : Type := mkSymbol {
  isTerminal : bool;     (* = false *)
  as_ : nat
}.
Definition as_terminal (s : GrammaticalSymbol) : nat := as_ s.
Definition as_nonTerminal (s : GrammaticalSymbol) : nat := as_ s.

Definition Symbol : Type := GrammaticalSymbol.

(** [SymbolT{}]. *)
Definition default_symbol : Symbol := mkSymbol false 0.

Definition toSymbol_terminal (t : nat) : Symbol := mkSymbol true t.
Definition toSymbol_nonTerminal (n : nat) : Symbol := mkSymbol false n.

Definition EPSILON `{Enums} : Symbol := mkSymbol true T_EPSILON.
Definition END_MARKER `{Enums} : Symbol := mkSymbol true T_EOF.

(** [GrammaticalSymbol::operator==]: the flag of [other] is not read. *)
Definition sym_eqb (this other : Symbol) : bool :=
  if isTerminal this then (as_terminal this =? as_terminal other)%nat
  else (as_nonTerminal this =? as_nonTerminal other)%nat.

(** [GrammaticalSymbol::operator<]: [isTerminal - other.isTerminal] is 1 or
    -1 when the kinds differ, and both convert to [true]. *)
Definition sym_ltb (this other : Symbol) : bool :=
  if negb (Bool.eqb (isTerminal this) (isTerminal other)) then true
  else if isTerminal this && isTerminal other then
    (as_terminal this <? as_terminal other)%nat
  else (as_nonTerminal this <? as_nonTerminal other)%nat.

(** [std::set<SymbolT>]: the elements in the order of [operator<].  The sets
    of this module (FIRST, FOLLOW, lookaheads) hold terminals, on which
    [operator<] is the order of the enumerator values. *)
Definition SymSet : Type := list Symbol.

(** [s.insert(x)]: the new set and [p.second]. *)
Fixpoint set_insert (x : Symbol) (s : SymSet) : SymSet * bool :=
  match s with
  | [] => ([x], true)
  | y :: s' =>
      if sym_ltb x y then (x :: s, true)
      else if sym_ltb y x then
        let '(r, second) := set_insert x s' in (y :: r, second)
      else (s, false)
  end.

(** [s.contains(x)]: some element is equivalent to [x] under [operator<]. *)
Definition set_contains (x : Symbol) (s : SymSet) : bool :=
  existsb (fun y => negb (sym_ltb x y) && negb (sym_ltb y x)) s.

(** [s.erase(x)]: the new set and whether an element was removed. *)
Definition set_erase (x : Symbol) (s : SymSet) : SymSet * bool :=
  (List.filter (fun y => negb (negb (sym_ltb x y) && negb (sym_ltb y x))) s,
   set_contains x s).

(** [s.insert(first, last)]. *)
Definition set_insert_range (src : list Symbol) (s : SymSet) : SymSet :=
  fold_left (fun acc x => fst (set_insert x acc)) src s.

(** [std::set::operator==]: same size and equal elements, by [operator==]. *)
Fixpoint set_eqb (a b : SymSet) : bool :=
  match a, b with
  | [], [] => true
  | x :: a', y :: b' => sym_eqb x y && set_eqb a' b'
  | _, _ => false
  end.

Inductive ProdElementType : Type :=
| PET_GRAM_SYMBOL
| PET_SYNTH_RECORD
| PET_ACTION_RECORD.

#[global] Instance ProdElementType_eq_dec : EqDecision ProdElementType.
Proof. solve_decision. Defined.

(** [LLSynthesizedRecord<DataT>] and [LLActionRecord<DataT>]: caller data
    and an untyped function pointer ([None] is [nullptr], [Some h] a handle
    of a callback). *)
Record LLRecord : Type := mkRecord {
  data : nat;
  action : option nat
}.

Definition default_record : LLRecord := mkRecord 0 None.

Definition record_eqb (this other : LLRecord) : bool :=
  bool_decide (action this = action other) && (data this =? data other)%nat.

(** [ProductionElementT] is a template parameter of [ProductionRecord];
    this is [LLStackElement], whose member [as] is a struct with one field
    per kind.  [LRProductionElement] is the case in which [type] keeps its
    initial value [PET_GRAM_SYMBOL]. *)
Record ProductionElement : Type := mkElement {
  type : ProdElementType;
  as_gramSymbol : Symbol;
  as_synRecord : LLRecord;
  as_actRecord : LLRecord
}.

Definition elem_symbol (s : Symbol) : ProductionElement :=
  mkElement PET_GRAM_SYMBOL s default_record default_record.
Definition elem_synth (r : LLRecord) : ProductionElement :=
  mkElement PET_SYNTH_RECORD default_symbol r default_record.
Definition elem_action (r : LLRecord) : ProductionElement :=
  mkElement PET_ACTION_RECORD default_symbol default_record r.

Definition default_element : ProductionElement :=
  mkElement PET_GRAM_SYMBOL default_symbol default_record default_record.

(** [LLStackElement::operator==]. *)
Definition elem_eqb (this other : ProductionElement) : bool :=
  if negb (bool_decide (type this = type other)) then false
  else match type this with
       | PET_GRAM_SYMBOL => sym_eqb (as_gramSymbol this) (as_gramSymbol other)
       | PET_SYNTH_RECORD => record_eqb (as_synRecord this) (as_synRecord other)
       | PET_ACTION_RECORD => record_eqb (as_actRecord this) (as_actRecord other)
       end.

Definition is_gram_symbol (e : ProductionElement) : bool :=
  bool_decide (type e = PET_GRAM_SYMBOL).

(** [std::vector::operator==] over an element equality. *)
Fixpoint vec_eqb {A} (eqb : A -> A -> bool) (a b : list A) : bool :=
  match a, b with
  | [], [] => true
  | x :: a', y :: b' => eqb x y && vec_eqb eqb a' b'
  | _, _ => false
  end.

Record ProductionRecord : Type := mkProduction {
  m_Size : nat;                     (* number of grammar symbols in the body *)
  prodHead : Symbol;
  prodBody : list ProductionElement;
  prodNumber : nat;
  postfixAction : option nat        (* void*, = nullptr *)
}.

(** [ProductionRecord{}]. *)
Definition default_production : ProductionRecord :=
  mkProduction 0 default_symbol [] 0 None.

(** The converting constructor of [ProductionRecord]. *)
Definition ProductionRecord_ctor (head : Symbol) (body : list ProductionElement)
    (number : nat) (postfixAct : option nat) : Res ProductionRecord :=
  if isTerminal head then
    Raise (LogicError "The head of a production must be a non-terminal.")
  else if bool_decide (body = []) then
    Raise (LogicError "The body of a production cannot be empty.")
  else
    Ret (mkProduction (length (List.filter is_gram_symbol body))
           head body number postfixAct).

(** [ProductionRecord::size()]: the number of grammar symbols. *)
Definition prod_size (p : ProductionRecord) : nat := m_Size p.

(** [ProductionRecord::operator==]. *)
Definition prod_eqb (this rhs : ProductionRecord) : bool :=
  if negb (sym_eqb (prodHead this) (prodHead rhs)) then false
  else vec_eqb elem_eqb (prodBody this) (prodBody rhs).

(** [ProductionRecord::toSymbolString]'s selection: the grammar symbols of
    a body, in order. *)
Definition body_grammar_symbols (body : list ProductionElement) : list Symbol :=
  map as_gramSymbol (List.filter is_gram_symbol body).

(** [ProductionVector]: the productions and the two caches, indexed by the
    value of the non-terminal. *)
Record ProductionVector : Type := mkProdVec {
  FIRST : list SymSet;
  FOLLOW : list SymSet;
  m_CalculatedFIRST : bool;
  m_CalculatedFOLLOW : bool;
  m_Vector : list ProductionRecord
}.

(** [ProductionVector(const VecType& vec)]. *)
Definition ProductionVector_ctor (vec : list ProductionRecord) : ProductionVector :=
  mkProdVec [] [] false false vec.

Definition set_FIRST (f : list SymSet) (pv : ProductionVector) : ProductionVector :=
  mkProdVec f (FOLLOW pv) (m_CalculatedFIRST pv) (m_CalculatedFOLLOW pv) (m_Vector pv).
Definition set_FOLLOW (f : list SymSet) (pv : ProductionVector) : ProductionVector :=
  mkProdVec (FIRST pv) f (m_CalculatedFIRST pv) (m_CalculatedFOLLOW pv) (m_Vector pv).
Definition set_CalculatedFIRST (b : bool) (pv : ProductionVector) : ProductionVector :=
  mkProdVec (FIRST pv) (FOLLOW pv) b (m_CalculatedFOLLOW pv) (m_Vector pv).
Definition set_CalculatedFOLLOW (b : bool) (pv : ProductionVector) : ProductionVector :=
  mkProdVec (FIRST pv) (FOLLOW pv) (m_CalculatedFIRST pv) b (m_Vector pv).

(** [pushProduction] / [push_back]. *)
Definition pushProduction (prod : ProductionRecord) (pv : ProductionVector)
  : ProductionVector :=
  mkProdVec (FIRST pv) (FOLLOW pv) (m_CalculatedFIRST pv) (m_CalculatedFOLLOW pv)
    (m_Vector pv ++ [prod]).

Section WithEnums.
Context `{Enums}.

(** *** FIRST of the non-terminals *)

(** The loop [for (const auto& symbol : fsetN)] of [_calc_FIRST_of_prod]:
    [Some true] is the [return true] taken inside the loop, [None] means the
    loop ran to its end. *)
Fixpoint first_copy_loop (fsetN : list Symbol) (setIndexH : nat)
    (added : bool) (FIRST : list SymSet) : option bool * bool * list SymSet :=
  match fsetN with
  | [] => (None, added, FIRST)
  | symbol :: rest =>
      if sym_eqb symbol EPSILON then (Some true, added, FIRST)
      else
        let '(s, second) := set_insert symbol (default [] (FIRST !! setIndexH)) in
        first_copy_loop rest setIndexH (added || second) (<[setIndexH := s]> FIRST)
  end.

(** [_calc_FIRST_of_prod(prod, symbol, added, index)]: the returned flag
    ([true]: go on with the next grammar symbol of the body, [false]: go on
    with the next production), [added] and the updated vector. *)
Definition _calc_FIRST_of_prod (prod : ProductionRecord) (symbol : Symbol)
    (added : bool) (index : nat) (this : ProductionVector)
  : Res (bool * bool * ProductionVector) :=
  let head := prodHead prod in
  let setIndexH := as_nonTerminal head in
  fsetH ← Cpp.index (FIRST this) setIndexH;
  let containsEpsilonH := set_contains EPSILON fsetH in
  if negb (isTerminal symbol) then
    let setIndexN := as_nonTerminal symbol in
    fsetN ← Cpp.index (FIRST this) setIndexN;
    let containsEpsilonN := set_contains EPSILON fsetN in
    if sym_eqb symbol head then
      if negb containsEpsilonN then Ret (false, added, this)
      else Ret (true, added, this)
    else if bool_decide (fsetN = []) then Ret (false, added, this)
    else
      match first_copy_loop fsetN setIndexH added (FIRST this) with
      | (Some r, added, F) => Ret (r, added, set_FIRST F this)
      | (None, added, F) =>
          let this := set_FIRST F this in
          if containsEpsilonN then
            let atEnd := (index =? length (prodBody prod))%nat in
            if negb atEnd then Ret (false, added, this)
            else if negb containsEpsilonH then
              let '(s, second) :=
                set_insert EPSILON (default [] (FIRST this !! setIndexH)) in
              Ret (false, added || second,
                   set_FIRST (<[setIndexH := s]> (FIRST this)) this)
            else Ret (false, added, this)
          else Ret (false, added, this)
      end
  else
    let '(s, second) := set_insert symbol fsetH in
    Ret (false, added || second, set_FIRST (<[setIndexH := s]> (FIRST this)) this).

(** The loop over the elements of one body in [calculateFIRST]; [index]
    counts the grammar symbols met so far, from 1. *)
Fixpoint first_body_loop (prod : ProductionRecord) (rest : list ProductionElement)
    (index : nat) (added : bool) (this : ProductionVector)
  : Res (bool * ProductionVector) :=
  match rest with
  | [] => Ret (added, this)
  | stackElement :: rest' =>
      if negb (is_gram_symbol stackElement) then
        first_body_loop prod rest' index added this
      else
        let symbol := as_gramSymbol stackElement in
        '(cont, added, this) ← _calc_FIRST_of_prod prod symbol added index this;
        if negb cont then Ret (added, this)
        else first_body_loop prod rest' (S index) added this
  end.

(** The loop over the productions in [calculateFIRST]. *)
Fixpoint first_prod_loop (prods : list ProductionRecord) (added : bool)
    (this : ProductionVector) : Res (bool * ProductionVector) :=
  match prods with
  | [] => Ret (added, this)
  | prod :: prods' =>
      '(added, this) ← first_body_loop prod (prodBody prod) 1 added this;
      first_prod_loop prods' added this
  end.

(** The [while (true)] of [calculateFIRST]; [fuel] bounds the rounds. *)
Fixpoint first_rounds (fuel : nat) (this : ProductionVector) : Res ProductionVector :=
  match fuel with
  | O => Raise OutOfFuel
  | S fuel' =>
      '(added, this) ← first_prod_loop (m_Vector this) false this;
      if negb added then Ret this else first_rounds fuel' this
  end.

(** [ProductionVector::calculateFIRST]. *)
Definition calculateFIRST (fuel : nat) (this : ProductionVector) : Res ProductionVector :=
  if m_CalculatedFIRST this then Ret this
  else
    let this := set_FIRST (resize NT_COUNT [] (FIRST this)) this in
    this ← first_rounds fuel this;
    Ret (set_CalculatedFIRST true this).

(** [getFIRST(nonTerminal)]. *)
Definition getFIRST (nonTerminal : nat) (this : ProductionVector) : Res SymSet :=
  if m_CalculatedFIRST this then Cpp.index (FIRST this) nonTerminal
  else Raise MissingValue.

(** *** FIRST of a symbol string *)

(** [GrammaticalSymbolString]. *)
Record GrammaticalSymbolString : Type := mkSymbolString {
  ss_CalculatedFIRST : bool;     (* m_CalculatedFIRST = false *)
  ss_FIRST : SymSet;             (* FIRST{ } *)
  symbols : list Symbol
}.

(** [GrammaticalSymbolString{}] and the constructor from a list of symbols. *)
Definition SymbolString_ctor (symbols : list Symbol) : GrammaticalSymbolString :=
  mkSymbolString false [] symbols.

Definition ss_push_back (symbol : Symbol) (s : GrammaticalSymbolString)
  : GrammaticalSymbolString :=
  mkSymbolString (ss_CalculatedFIRST s) (ss_FIRST s) (symbols s ++ [symbol]).

(** The loop of [GrammaticalSymbolString::calculateFIRST].  [size] is
    [symbols.size()]; [i] is only incremented at the end of the
    non-terminal branch. *)
Fixpoint string_first_loop (prodVecFIRST : list SymSet) (rest : list Symbol)
    (size i : nat) (FIRST : SymSet) : Res SymSet :=
  match rest with
  | [] => Ret FIRST
  | symbol :: rest' =>
      let isLastSymbol := (i =? size - 1)%nat in
      if isTerminal symbol then
        let isEpsilon := sym_eqb symbol EPSILON in
        let FIRST :=
          if negb isEpsilon || isLastSymbol then fst (set_insert symbol FIRST)
          else FIRST in
        if negb isEpsilon then Ret FIRST
        else string_first_loop prodVecFIRST rest' size i FIRST
      else
        let symIndex := as_nonTerminal symbol in
        fset ← at_ prodVecFIRST symIndex;
        if bool_decide (fset = []) then Raise (LogicError "FIRST(symbol) is empty.")
        else
          let FIRST := set_insert_range fset FIRST in
          let '(FIRST, containsEpsilon) := set_erase EPSILON FIRST in
          if negb containsEpsilon then Ret FIRST
          else
            let FIRST := if isLastSymbol then fst (set_insert EPSILON FIRST) else FIRST in
            string_first_loop prodVecFIRST rest' size (S i) FIRST
  end.

(** [GrammaticalSymbolString::calculateFIRST(prodVecFIRST)]. *)
Definition ss_calculateFIRST (prodVecFIRST : list SymSet)
    (this : GrammaticalSymbolString) : Res GrammaticalSymbolString :=
  if ss_CalculatedFIRST this then Ret this
  else
    F ← string_first_loop prodVecFIRST (symbols this) (length (symbols this)) 0
          (ss_FIRST this);
    Ret (mkSymbolString true F (symbols this)).

(** [GrammaticalSymbolString::getFIRST]. *)
Definition ss_getFIRST (this : GrammaticalSymbolString) : Res SymSet :=
  if ss_CalculatedFIRST this then Ret (ss_FIRST this)
  else Raise (RuntimeError "The FIRST set of the non-terminals of this grammar symbol string is yet to be calculated.").

(** *** FOLLOW of the non-terminals *)

(** The lambda [cpyToFollow] applied to every element of [src]
    ([std::for_each]): each symbol is inserted into [FOLLOW[currSymIndex]];
    [added] is set when the insertion took place and the symbol is not
    [EPSILON]. *)
Fixpoint cpyToFollow_each (src : list Symbol) (currSymIndex : nat)
    (added : bool) (FOLLOW : list SymSet) : bool * list SymSet :=
  match src with
  | [] => (added, FOLLOW)
  | sym :: src' =>
      let '(s, second) := set_insert sym (default [] (FOLLOW !! currSymIndex)) in
      let added := if second && negb (sym_eqb sym EPSILON) then true else added in
      cpyToFollow_each src' currSymIndex added (<[currSymIndex := s]> FOLLOW)
  end.

(** Copy [FOLLOW(head)], read when the copy starts, into [FOLLOW(currSym)]. *)
Definition copy_headFollow (headIndex currSymIndex : nat) (added : bool)
    (this : ProductionVector) : bool * ProductionVector :=
  let headFollow := default [] (FOLLOW this !! headIndex) in
  let '(added, F) := cpyToFollow_each headFollow currSymIndex added (FOLLOW this) in
  (added, set_FOLLOW F this).

(** The loop [for (varIndex = variableIndex + 1; varIndex < prodBdySz; ...)]
    of [_calc_FOLLOW_of_nonTerminal]; [rest] is the body from [varIndex]. *)
Fixpoint follow_scan (rest : list ProductionElement) (varIndex prodBdySz : nat)
    (headIndex currSymIndex : nat) (added : bool) (this : ProductionVector)
  : Res (bool * ProductionVector) :=
  match rest with
  | [] => Ret (added, this)
  | element :: rest' =>
      if negb (is_gram_symbol element) then
        let atEnd := (varIndex + 1 =? prodBdySz)%nat in
        if negb atEnd then
          follow_scan rest' (S varIndex) prodBdySz headIndex currSymIndex added this
        else Ret (copy_headFollow headIndex currSymIndex added this)
      else
        let symbol := as_gramSymbol element in
        let symIndex := as_nonTerminal symbol in
        if isTerminal symbol then
          let '(s, second) :=
            set_insert symbol (default [] (FOLLOW this !! currSymIndex)) in
          Ret (second, set_FOLLOW (<[currSymIndex := s]> (FOLLOW this)) this)
        else
          symbolFrst ← at_ (FIRST this) symIndex;
          let '(added, F) :=
            cpyToFollow_each symbolFrst currSymIndex added (FOLLOW this) in
          let '(s, containsEpsilon) :=
            set_erase EPSILON (default [] (F !! currSymIndex)) in
          let this := set_FOLLOW (<[currSymIndex := s]> F) this in
          if negb containsEpsilon then Ret (added, this)
          else
            let atEnd := (varIndex + 1 =? prodBdySz)%nat in
            if negb atEnd then
              follow_scan rest' (S varIndex) prodBdySz headIndex currSymIndex added this
            else
              let '(added, this) := copy_headFollow headIndex currSymIndex added this in
              follow_scan rest' (S varIndex) prodBdySz headIndex currSymIndex added this
  end.

(** [_calc_FOLLOW_of_nonTerminal(nonTerminal, prodIndex, variableIndex)]. *)
Definition _calc_FOLLOW_of_nonTerminal (nonTerminal prodIndex variableIndex : nat)
    (this : ProductionVector) : Res (bool * ProductionVector) :=
  production ← at_ (m_Vector this) prodIndex;
  let prodBdySz := length (prodBody production) in
  let head := prodHead production in
  let headIndex := as_nonTerminal head in
  _ ← at_ (FOLLOW this) headIndex;
  let currSymIndex := nonTerminal in
  _ ← at_ (FOLLOW this) currSymIndex;
  let added := false in
  let lastSymbol := (variableIndex =? prodBdySz - 1)%nat in
  if lastSymbol then Ret (copy_headFollow headIndex currSymIndex added this)
  else
    follow_scan (drop (variableIndex + 1) (prodBody production))
      (variableIndex + 1) prodBdySz headIndex currSymIndex added this.

(** The loop over the elements of one body in [calculateFOLLOW]. *)
Fixpoint follow_body_loop (prodIndex : nat) (rest : list ProductionElement)
    (symIndex : nat) (added : bool) (this : ProductionVector)
  : Res (bool * ProductionVector) :=
  match rest with
  | [] => Ret (added, this)
  | stackElement :: rest' =>
      if negb (is_gram_symbol stackElement) then
        follow_body_loop prodIndex rest' (S symIndex) added this
      else
        let symbol := as_gramSymbol stackElement in
        if isTerminal symbol then
          follow_body_loop prodIndex rest' (S symIndex) added this
        else
          '(addedNow, this) ←
            _calc_FOLLOW_of_nonTerminal (as_nonTerminal symbol) prodIndex symIndex this;
          let added := if (addedNow : bool) then true else added in
          follow_body_loop prodIndex rest' (S symIndex) added this
  end.

(** The loop over the productions in [calculateFOLLOW]. *)
Fixpoint follow_prod_loop (prods : list ProductionRecord) (prodIndex : nat)
    (added : bool) (this : ProductionVector) : Res (bool * ProductionVector) :=
  match prods with
  | [] => Ret (added, this)
  | prod :: prods' =>
      '(added, this) ← follow_body_loop prodIndex (prodBody prod) 0 added this;
      follow_prod_loop prods' (S prodIndex) added this
  end.

(** The [while (true)] of [calculateFOLLOW]; [fuel] bounds the rounds. *)
Fixpoint follow_rounds (fuel : nat) (this : ProductionVector) : Res ProductionVector :=
  match fuel with
  | O => Raise OutOfFuel
  | S fuel' =>
      '(added, this) ← follow_prod_loop (m_Vector this) 0 false this;
      if negb added then Ret this else follow_rounds fuel' this
  end.

(** [ProductionVector::calculateFOLLOW]. *)
Definition calculateFOLLOW (fuel : nat) (this : ProductionVector) : Res ProductionVector :=
  if m_CalculatedFOLLOW this then Ret this
  else if negb (m_CalculatedFIRST this) then
    Raise (RuntimeError "FIRST set is not calculated for the production vector!")
  else
    let this := set_FOLLOW (resize NT_COUNT [] (FOLLOW this)) this in
    startProd ← at_ (m_Vector this) 0;
    let startSym := prodHead startProd in
    let startHeadIndex := as_nonTerminal startSym in
    startFollow ← at_ (FOLLOW this) startHeadIndex;
    let this :=
      set_FOLLOW (<[startHeadIndex := fst (set_insert END_MARKER startFollow)]> (FOLLOW this))
        this in
    this ← follow_rounds fuel this;
    Ret (set_CalculatedFOLLOW true this).

(** [getFOLLOW(nonTerminal)]. *)
Definition getFOLLOW (nonTerminal : nat) (this : ProductionVector) : Res SymSet :=
  if m_CalculatedFOLLOW this then Cpp.index (FOLLOW this) nonTerminal
  else Raise MissingValue.

End WithEnums.

End Grammar.

(* ===================================================================== *)
(** ** LR items, CLOSURE and GOTO (item.h) *)
(* ===================================================================== *)

Module Items.
Import Grammar.

Record Item : Type := mkItem {
  m_ActualDotPos : nat;          (* = 0 *)
  production : ProductionRecord;
  dotPos : nat;                  (* = 0 *)
  lookaheads : SymSet
}.

(** [Item{}]. *)
Definition EMPTY_ITEM : Item := mkItem 0 default_production 0 [].

(** The [while (encountered != this->dotPos)] loop of the constructor;
    [body] is the production body from [m_ActualDotPos] on. *)
Fixpoint advance_dot (body : list ProductionElement)
    (encountered dotPos m_ActualDotPos : nat) : Res nat :=
  match body with
  | [] =>
      if (encountered =? dotPos)%nat then Ret m_ActualDotPos
      else Raise OutOfRange
  | element :: body' =>
      if (encountered =? dotPos)%nat then Ret m_ActualDotPos
      else
        let isSymbol := is_gram_symbol element in
        advance_dot body' (if isSymbol then S encountered else encountered)
          dotPos (S m_ActualDotPos)
  end.

(** [Item(production, dotPosition, lookaheads)]. *)
Definition Item_ctor (production : ProductionRecord) (dotPosition : nat)
    (lookaheads : SymSet) : Res Item :=
  let prodBody := prodBody production in
  let psize := length (List.filter is_gram_symbol prodBody) in
  if (psize <? dotPosition)%nat then
    Raise (LogicError "Invalid dot position in item.")
  else
    actual ← advance_dot prodBody 0 dotPosition 0;
    Ret (mkItem actual production dotPosition lookaheads).

(** [Item::operator==]. *)
Definition item_eqb (this other : Item) : bool :=
  (dotPos other =? dotPos this)%nat
  && prod_eqb (production other) (production this)
  && set_eqb (lookaheads other) (lookaheads this).

(** [Item::hasIdenticalCore]. *)
Definition hasIdenticalCore (this other : Item) : bool :=
  (dotPos this =? dotPos other)%nat
  && (m_ActualDotPos this =? m_ActualDotPos other)%nat
  && prod_eqb (production this) (production other).

Record ItemSet : Type := mkItemSet {
  m_Set : list Item;
  m_Closure : list Item
}.

(** [ItemSet{}], [ItemSet(items)] and [ItemSet(items, sameClosure)]. *)
Definition ItemSet_default : ItemSet := mkItemSet [] [].
Definition ItemSet_ctor (items : list Item) : ItemSet := mkItemSet items [].
Definition ItemSet_ctor_sameClosure (items : list Item) : ItemSet :=
  mkItemSet items items.

(** [ItemSet::operator==]: only the sets are compared. *)
Definition itemset_eqb (this rhs : ItemSet) : bool :=
  (length (m_Set this) =? length (m_Set this))%nat
  && vec_eqb item_eqb (m_Set this) (m_Set rhs).

(** A vector iterator: the vector it belongs to and a position in it;
    [end()] is the position after the last element.  Iterators of different
    vectors point into different arrays and are never equal. *)
Inductive VecId : Type := SetVec | ClosureVec.

#[global] Instance VecId_eq_dec : EqDecision VecId.
Proof. solve_decision. Defined.

Record Iter : Type := mkIter {
  it_vec : VecId;
  it_pos : nat
}.

Definition iter_eqb (a b : Iter) : bool :=
  bool_decide (it_vec a = it_vec b) && (it_pos a =? it_pos b)%nat.

(** [std::find_if]: the position of the first match, or the length. *)
Fixpoint find_if {A} (pred : A -> bool) (v : list A) : nat :=
  match v with
  | [] => 0%nat
  | x :: v' => if pred x then 0%nat else S (find_if pred v')
  end.

(** [get_item_it(production, dotPosition, fromClosure)]. *)
Definition get_item_it (production_ : ProductionRecord) (dotPosition : nat)
    (fromClosure : bool) (this : ItemSet) : Iter :=
  let predicate := fun item : Item =>
    (dotPos item =? dotPosition)%nat && prod_eqb (production item) production_ in
  if fromClosure then mkIter ClosureVec (find_if predicate (m_Closure this))
  else mkIter SetVec (find_if predicate (m_Set this)).

Definition set_end (this : ItemSet) : Iter := mkIter SetVec (length (m_Set this)).
Definition closure_end (this : ItemSet) : Iter :=
  mkIter ClosureVec (length (m_Closure this)).

(** [*it]: reading through an iterator that is not dereferenceable is
    undefined. *)
Definition deref (it : Iter) (this : ItemSet) : Res Item :=
  match it_vec it with
  | SetVec => Cpp.index (m_Set this) (it_pos it)
  | ClosureVec => Cpp.index (m_Closure this) (it_pos it)
  end.

(** [it->lookaheads = l]. *)
Definition assign_lookaheads (it : Iter) (l : SymSet) (this : ItemSet) : ItemSet :=
  let upd := fun item : Item =>
    mkItem (m_ActualDotPos item) (production item) (dotPos item) l in
  match it_vec it with
  | SetVec => mkItemSet (alter upd (it_pos it) (m_Set this)) (m_Closure this)
  | ClosureVec => mkItemSet (m_Set this) (alter upd (it_pos it) (m_Closure this))
  end.

(** Modelled from the spec: [insertAndAssert(from, to)] is declared in
    utility/common.h, which is not among the sources.  Following "if an item
    with identical first component exists, union the lookaheads", it inserts
    every element of [from] into [to] and tells whether [to] has grown. *)
Fixpoint insertAndAssert (from to : SymSet) : SymSet * bool :=
  match from with
  | [] => (to, false)
  | x :: from' =>
      let '(to, second) := set_insert x to in
      let '(to, inserted) := insertAndAssert from' to in
      (to, second || inserted)
  end.

(** [_add_to_closure_no_lookaheads]: the iterator searched in [m_Set] is
    compared with the end of [m_Closure]. *)
Fixpoint _add_to_closure_no_lookaheads (symbolProductions : list ProductionRecord)
    (inserted : bool) (this : ItemSet) : Res (bool * ItemSet) :=
  match symbolProductions with
  | [] => Ret (inserted, this)
  | production_ :: rest =>
      item ← Item_ctor production_ 0 [];
      let it := get_item_it (production item) (dotPos item) false this in
      let end_ := closure_end this in
      let found := negb (iter_eqb it end_) in
      if negb found then
        _add_to_closure_no_lookaheads rest true
          (mkItemSet (m_Set this) (m_Closure this ++ [item]))
      else _add_to_closure_no_lookaheads rest inserted this
  end.

(** The inner loop of [_add_to_closure_lookaheads]. *)
Fixpoint add_lookaheads_inner (symbolProductions : list ProductionRecord)
    (lookaheads_ : SymSet) (inserted : bool) (this : ItemSet)
  : Res (bool * ItemSet) :=
  match symbolProductions with
  | [] => Ret (inserted, this)
  | production_ :: rest =>
      let it := get_item_it production_ 0 false this in
      let end_ := closure_end this in
      let found := negb (iter_eqb it end_) in
      if found then
        target ← deref it this;
        let '(l, grown) := insertAndAssert lookaheads_ (lookaheads target) in
        add_lookaheads_inner rest lookaheads_ (if grown then true else inserted)
          (assign_lookaheads it l this)
      else
        item ← Item_ctor production_ 0 lookaheads_;
        add_lookaheads_inner rest lookaheads_ true
          (mkItemSet (m_Set this) (m_Closure this ++ [item]))
  end.

(** [_add_to_closure_lookaheads]: for every production an item is built and
    the inner loop runs over all the productions again. *)
Fixpoint add_lookaheads_outer (outer all : list ProductionRecord)
    (lookaheads_ : SymSet) (inserted : bool) (this : ItemSet)
  : Res (bool * ItemSet) :=
  match outer with
  | [] => Ret (inserted, this)
  | production_ :: rest =>
      _ ← Item_ctor production_ 0 [];
      '(inserted, this) ← add_lookaheads_inner all lookaheads_ inserted this;
      add_lookaheads_outer rest all lookaheads_ inserted this
  end.

Definition _add_to_closure_lookaheads (symbolProductions : list ProductionRecord)
    (lookaheads_ : SymSet) (this : ItemSet) : Res (bool * ItemSet) :=
  add_lookaheads_outer symbolProductions symbolProductions lookaheads_ false this.

(** [ItemSet::insert(item)]. *)
Definition insert (item : Item) (this : ItemSet) : Res (bool * ItemSet) :=
  let it := get_item_it (production item) (dotPos item) false this in
  let end_ := set_end this in
  let found := negb (iter_eqb it end_) in
  if found then
    target ← deref it this;
    let '(l, grown) := insertAndAssert (lookaheads item) (lookaheads target) in
    Ret (grown, assign_lookaheads it l this)
  else Ret (true, mkItemSet (m_Set this ++ [item]) (m_Closure this)).

Section WithEnums.
Context `{Enums}.

(** The table [alternativeProduction[NT_COUNT]] of [CLOSURE]: for every
    non-terminal the indices of its productions.  It is a C array: writing
    outside of it is undefined. *)
Fixpoint alternatives (prods : list ProductionRecord) (prodIndex : nat)
    (alternativeProduction : list (list nat)) : Res (list (list nat)) :=
  match prods with
  | [] => Ret alternativeProduction
  | prod :: prods' =>
      let varIndex := as_nonTerminal (prodHead prod) in
      v ← Cpp.index alternativeProduction varIndex;
      alternatives prods' (S prodIndex)
        (<[varIndex := v ++ [prodIndex]]> alternativeProduction)
  end.

(** [symbolProductions.pushProduction(grammar.at(prodIndex))] for every
    index of [prods]. *)
Fixpoint collect_productions (grammar : ProductionVector) (prods : list nat)
    (symbolProductions : ProductionVector) : Res ProductionVector :=
  match prods with
  | [] => Ret symbolProductions
  | prodIndex :: prods' =>
      p ← at_ (m_Vector grammar) prodIndex;
      collect_productions grammar prods' (pushProduction p symbolProductions)
  end.

(** The loop over the lookaheads of the item being closed. *)
Fixpoint closure_lookaheads (itemLookaheads : list Symbol)
    (symString : GrammaticalSymbolString) (first : list SymSet)
    (symbolProductions : list ProductionRecord) (this : ItemSet) : Res ItemSet :=
  match itemLookaheads with
  | [] => Ret this
  | lookahead :: rest =>
      let tempSymString := ss_push_back lookahead symString in
      tempSymString ← ss_calculateFIRST first tempSymString;
      lookaheads_ ← ss_getFIRST tempSymString;
      '(_, this) ← _add_to_closure_lookaheads symbolProductions lookaheads_ this;
      closure_lookaheads rest symString first symbolProductions this
  end.

(** The loop [for (i = 0; i < m_Closure.size(); i++)] of [CLOSURE]; the
    closure may grow while it is scanned, [fuel] bounds the iterations. *)
Fixpoint closure_loop (fuel : nat) (i : nat) (alternativeProduction : list (list nat))
    (isLR0 : bool) (first : list SymSet) (grammar : ProductionVector)
    (this : ItemSet) : Res ItemSet :=
  match fuel with
  | O => Raise OutOfFuel
  | S fuel' =>
      if negb (i <? length (m_Closure this))%nat then Ret this
      else
        item ← at_ (m_Closure this) i;
        let itemProd := production item in
        if (prod_size itemProd =? dotPos item)%nat then
          closure_loop fuel' (S i) alternativeProduction isLR0 first grammar this
        else
          element ← at_ (prodBody itemProd) (m_ActualDotPos item);
          let symbolAfterDot := as_gramSymbol element in
          if isTerminal symbolAfterDot then
            closure_loop fuel' (S i) alternativeProduction isLR0 first grammar this
          else
            prods ← Cpp.index alternativeProduction (as_nonTerminal symbolAfterDot);
            symbolProductions ←
              collect_productions grammar prods (ProductionVector_ctor []);
            this ←
              (if isLR0 then
                 '(_, this) ←
                   _add_to_closure_no_lookaheads (m_Vector symbolProductions) false this;
                 Ret this
               else
                 let startIndex := (m_ActualDotPos item + 1)%nat in
                 let symString :=
                   SymbolString_ctor
                     (body_grammar_symbols (drop startIndex (prodBody itemProd))) in
                 closure_lookaheads (lookaheads item) symString first
                   (m_Vector symbolProductions) this);
            closure_loop fuel' (S i) alternativeProduction isLR0 first grammar this
  end.

(** [ItemSet::CLOSURE(grammarPtr)]: the returned item set, this item set
    (whose cache may have been filled) and the grammar (whose FIRST cache may
    have been filled). *)
Definition CLOSURE (fuel : nat) (this : ItemSet) (grammar : ProductionVector)
  : Res (ItemSet * ItemSet * ProductionVector) :=
  if (0 <? length (m_Closure this))%nat then
    Ret (ItemSet_ctor (m_Closure this), this, grammar)
  else if (length (m_Set this) =? 0)%nat then
    Ret (this, this, grammar)
  else
    alternativeProduction ←
      alternatives (m_Vector grammar) 0 (replicate NT_COUNT []);
    let this := mkItemSet (m_Set this) (m_Set this) in
    first_item ← at_ (m_Closure this) 0;
    let isLR0 := (length (lookaheads first_item) =? 0)%nat in
    grammar ← (if negb isLR0 then calculateFIRST fuel grammar else Ret grammar);
    let first := if negb isLR0 then FIRST grammar else [] in
    this ← closure_loop fuel 0 alternativeProduction isLR0 first grammar this;
    let res := ItemSet_ctor_sameClosure (m_Closure this) in
    Ret (res, this, grammar).

(** The first loop of [GOTO]: the items of the closure whose symbol after
    the dot is [symbol]. *)
Fixpoint goto_found (symbol : Symbol) (closure : list Item) (foundItems : ItemSet)
  : Res ItemSet :=
  match closure with
  | [] => Ret foundItems
  | currItem :: closure' =>
      let dotPos_ := m_ActualDotPos currItem in
      matches ←
        (if (prod_size (production currItem) =? dotPos_)%nat then Ret false
         else
           element ← at_ (prodBody (production currItem)) dotPos_;
           Ret (sym_eqb (as_gramSymbol element) symbol));
      if (matches : bool) then
        '(_, foundItems) ← insert currItem foundItems;
        goto_found symbol closure' foundItems
      else goto_found symbol closure' foundItems
  end.

(** The second loop of [GOTO]: the kernel items, the dot moved by one. *)
Fixpoint goto_kernel (itemVec : list Item) (result : ItemSet) : Res ItemSet :=
  match itemVec with
  | [] => Ret result
  | item :: itemVec' =>
      let newDotPos := (dotPos item + 1)%nat in
      kernelItem ← Item_ctor (production item) newDotPos (lookaheads item);
      '(_, result) ← insert kernelItem result;
      goto_kernel itemVec' result
  end.

(** [ItemSet::GOTO(symbol, grammarPtr)]: the returned item set, this item
    set and the grammar. *)
Definition GOTO (fuel : nat) (symbol : Symbol) (this : ItemSet)
    (grammar : ProductionVector) : Res (ItemSet * ItemSet * ProductionVector) :=
  '(this, grammar) ←
    (if (length (m_Closure this) =? 0)%nat then
       '(_, this, grammar) ← CLOSURE fuel this grammar; Ret (this, grammar)
     else Ret (this, grammar));
  let result := ItemSet_default in
  foundItems ← goto_found symbol (m_Closure this) ItemSet_default;
  let found := (0 <? length (m_Set foundItems))%nat in
  result ← (if found then goto_kernel (m_Set foundItems) result else Ret result);
  '(resultClosure, _, grammar) ← CLOSURE fuel result grammar;
  Ret (resultClosure, this, grammar).

End WithEnums.

End Items.

(* ===================================================================== *)
(** ** Tokens and the token source (LADataStructs.h) *)
(* ===================================================================== *)

Module Lex.

(** [Token<TerminalT, AttrT>]: [name] is initialised to [T_EOF]. *)
Record Token : Type := mkToken {
  name : nat;
  attribute : string
}.

Definition TEOF `{Enums} : Token := mkToken T_EOF "".
Definition EPSILON `{Enums} : Token := mkToken T_EPSILON "".

(** [Token{}]. *)
Definition default_token `{Enums} : Token := mkToken T_EOF "".

(** [Token::operator==]. *)
Definition token_eqb (this other : Token) : bool :=
  (name this =? name other)%nat && String.eqb (attribute this) (attribute other).

(** [LexicalAnalyzerT] is a template parameter of the parsers, used through
    [getNextToken] and [peak] only.  It is modelled by the tokens that are
    left; when none is left the value-initialised token is returned. *)
Definition LexicalAnalyzer : Type := list Token.

Definition getNextToken `{Enums} (la : LexicalAnalyzer) : Token * LexicalAnalyzer :=
  match la with
  | [] => (default_token, [])
  | t :: la' => (t, la')
  end.

Definition peak `{Enums} (la : LexicalAnalyzer) : Token :=
  match la with
  | [] => default_token
  | t :: _ => t
  end.

End Lex.

(* ===================================================================== *)
(** ** LexicalAnalyzer.h, LADataStructs.h: the lexical analyzer *)
(* ===================================================================== *)

Module Lexer.
Import FSM.

(** [enum LA_FLAG]: bits of the [unsigned] flags. *)
Definition LAF_DEFAULT : Z := 0.
Definition LAF_ALLOW_WHITE_SPACE_CHARS : Z := 1.
Definition LAF_ALLOW_NEW_LINE : Z := 2.

(** [std::string_view]: [data()] points at position [sv_offset] of the
    storage [sv_buffer], and [sv_size] bytes from there on belong to the
    view. *)
Record string_view : Type := mkView {
  sv_buffer : list ascii;
  sv_offset : nat;
  sv_size : nat
}.

(** The bytes of the view, as the automaton reads them. *)
Definition sv_bytes (v : string_view) : InputT :=
  take (sv_size v) (drop (sv_offset v) (sv_buffer v)).

(** [*v.data()]: the byte at [data()]; on an empty view it is the byte
    that follows the view.  A read outside the storage is undefined. *)
Definition sv_deref_data (v : string_view) : Res ascii :=
  match sv_buffer v !! sv_offset v with
  | Some c => Ret c
  | None => Raise Undefined
  end.

(** [v.remove_prefix(n)]: undefined when [n > size()]. *)
Definition remove_prefix (n : Z) (v : string_view) : Res string_view :=
  if Z.of_nat (sv_size v) <? n then Raise Undefined
  else Ret (mkView (sv_buffer v) (sv_offset v + Z.to_nat n) (sv_size v - Z.to_nat n)).

Section WithToken.
(** [TokenT] is a template parameter; [TokenT_default] is [TokenT{}].
    [std::isspace] depends on the C locale in force. *)
Context {TokenT : Type} (TokenT_default : TokenT).
Context (isspace : ascii -> bool).

(** [TokenFactoryType]: from the final state and the lexeme to the token. *)
Definition TokenFactoryType : Type := FSMStateType -> InputT -> TokenT.

(** [LexicalAnalyzerResult<TokenT, InputT>]. *)
Record LexicalAnalyzerResult : Type := mkResult {
  foundToken : bool;
  token : TokenT;
  indecies : Indecies;
  lineNumber : Z
}.

(** [LexicalAnalyzerResult{}]. *)
Definition Result_default : LexicalAnalyzerResult :=
  mkResult false TokenT_default (mkIndecies 0 0) 0.

(** [LexicalAnalyzerResult(fsmres, lineNumber, colNumber, factory)]. *)
Definition Result_ctor (fsmres : FSMResult) (lineNumber colNumber : Z)
    (factory : TokenFactoryType) : Res LexicalAnalyzerResult :=
  lexeme ← getMatch fsmres;
  Ret (mkResult true
         (factory (state_of_set (finalState fsmres)) lexeme)
         (Indecies_add (FSM.indecies fsmres) colNumber)
         lineNumber).

(** The analyzer built by the three-argument constructor, whose assertion
    makes sure that the token factory is set; the logger is left out. *)
Record LexicalAnalyzer : Type := mkLexer {
  m_Automatan : FiniteStateMachine;
  m_TokenFactory : TokenFactoryType;
  m_SourceCode : string_view;
  m_Line : Z;
  m_Col : Z
}.

Definition LexicalAnalyzer_ctor (automaton : FiniteStateMachine)
    (tokenFactory : TokenFactoryType) (sourceCode : string_view)
  : LexicalAnalyzer :=
  mkLexer automaton tokenFactory sourceCode 0 0.

Definition set_SourceCode (v : string_view) (this : LexicalAnalyzer) : LexicalAnalyzer :=
  mkLexer (m_Automatan this) (m_TokenFactory this) v (m_Line this) (m_Col this).
Definition set_Line (line : Z) (this : LexicalAnalyzer) : LexicalAnalyzer :=
  mkLexer (m_Automatan this) (m_TokenFactory this) (m_SourceCode this) line (m_Col this).
Definition set_Col (col : Z) (this : LexicalAnalyzer) : LexicalAnalyzer :=
  mkLexer (m_Automatan this) (m_TokenFactory this) (m_SourceCode this) (m_Line this) col.

(** The [while (true)] loop of [_remove_whitespace_prefix].  Every turn but
    the last removes a byte of the view, so [fuel] is the size of the
    view. *)
Fixpoint remove_whitespace_loop (fuel : nat) (flags : Z)
  : StateRes LexicalAnalyzer unit :=
  v ← gets m_SourceCode;
  currChar ← lift (sv_deref_data v);
  let isWhiteSpace := isspace currChar && negb (Ascii.eqb currChar zero) in
  let matchNewLine :=
    Ascii.eqb currChar "010" && negb (Z.land flags LAF_ALLOW_NEW_LINE =? 0) in
  if negb isWhiteSpace then mret tt
  else
    v ← lift (remove_prefix 1 v);
    modify (set_SourceCode v);;
    (if matchNewLine then
       modify (fun this => set_Col 0 (set_Line (wrap (m_Line this + 1)) this))
     else modify (fun this => set_Col (wrap (m_Col this + 1)) this));;
    match fuel with
    | O => throw OutOfFuel
    | S fuel' => remove_whitespace_loop fuel' flags
    end.

Definition _remove_whitespace_prefix (flags : Z) : StateRes LexicalAnalyzer unit :=
  v ← gets m_SourceCode;
  remove_whitespace_loop (sv_size v) flags.

(** [_check_source_code_empty]. *)
Definition _check_source_code_empty : StateRes LexicalAnalyzer bool :=
  v ← gets m_SourceCode;
  mret (sv_size v =? 0)%nat.

(** [_check_presearch_conditions]. *)
Definition _check_presearch_conditions (flags : Z) : StateRes LexicalAnalyzer bool :=
  (if negb (negb (Z.land flags LAF_ALLOW_WHITE_SPACE_CHARS =? 0)) then
     _remove_whitespace_prefix flags
   else mret tt);;
  empty ← _check_source_code_empty;
  mret (negb empty).

(** [getNextToken]. *)
Definition getNextToken (flags : Z) : StateRes LexicalAnalyzer LexicalAnalyzerResult :=
  ok ← _check_presearch_conditions flags;
  if negb ok then mret Result_default
  else
    this ← gets id;
    fsmRes ← lift (simulate (m_Automatan this) (sv_bytes (m_SourceCode this))
                     MM_LONGEST_PREFIX);
    if negb (accepted fsmRes) then mret Result_default
    else
      res ← lift (Result_ctor fsmRes (m_Line this) (m_Col this) (m_TokenFactory this));
      let lexemeSize := FSMResult_size fsmRes in
      modify (fun this => set_Col (wrap (m_Col this + lexemeSize)) this);;
      v ← gets m_SourceCode;
      v ← lift (remove_prefix lexemeSize v);
      modify (set_SourceCode v);;
      mret res.

(** [peak]. *)
Definition peak (flags : Z) : StateRes LexicalAnalyzer LexicalAnalyzerResult :=
  ok ← _check_presearch_conditions flags;
  if negb ok then mret Result_default
  else
    this ← gets id;
    fsmRes ← lift (simulate (m_Automatan this) (sv_bytes (m_SourceCode this))
                     MM_LONGEST_PREFIX);
    if negb (accepted fsmRes) then mret Result_default
    else
      res ← lift (Result_ctor fsmRes (m_Line this) (m_Col this) (m_TokenFactory this));
      mret res.

End WithToken.

End Lexer.

(** [enum struct ErrorRecoveryType] (enum.h). *)
Inductive ErrorRecoveryType : Type :=
| ERT_NONE
| ERT_PANIC_MODE
| ERT_PHRASE_LEVE
| ERT_GLOBAL
| ERT_ABORT
| ERT_NUM.

#[global] Instance ErrorRecoveryType_eq_dec : EqDecision ErrorRecoveryType.
Proof. solve_decision. Defined.

(** [Parser::ERR_RECOVERY_LIMIT]. *)
Definition ERR_RECOVERY_LIMIT : Z := 5.

(* ===================================================================== *)
(** ** The LR driver (ptable.h, stack.h, LRParser.h) *)
(* ===================================================================== *)

Module LR.
Import PTable Grammar Lex.

(** [LRState<DataT, TokenT>]; [DataT] is caller data, here a number. *)
Record LRState : Type := mkLRState {
  state : Z;         (* lrstate_t = size_t, = SIZE_MAX *)
  data : Z;
  token : Token      (* = TokenT::EPSILON *)
}.

(** [LRState{}] and [LRState(state)]. *)
Definition LRState_default `{Enums} : LRState := mkLRState SIZE_MAX 0 Lex.EPSILON.
Definition LRState_ctor `{Enums} (state : Z) : LRState := mkLRState state 0 Lex.EPSILON.

Definition StackType : Type := list LRState.

(** [LRParsingTable<GrammarT>]: every row is a [std::array] of [T_COUNT]
    (action) or [NT_COUNT] (goto) entries. *)
Record LRParsingTable : Type := mkLRTable {
  grammar : ProductionVector;
  actionTable : list (list LRTableEntry);
  gotoTable : list (list LRTableEntry)
}.

(** The parser object: the table and the token source of the base class
    [Parser], and the three mutable members of [LRParser]. *)
Record LRParser : Type := mkLRParser {
  p_Table : LRParsingTable;
  mp_LexicalAnalyzer : LexicalAnalyzer;
  m_Stack : StackType;
  m_CurrTopState : LRState;
  m_CurrInputToken : Token
}.

Definition set_Table (t : LRParsingTable) (p : LRParser) : LRParser :=
  mkLRParser t (mp_LexicalAnalyzer p) (m_Stack p) (m_CurrTopState p) (m_CurrInputToken p).
Definition set_Stack (s : StackType) (p : LRParser) : LRParser :=
  mkLRParser (p_Table p) (mp_LexicalAnalyzer p) s (m_CurrTopState p) (m_CurrInputToken p).
Definition set_CurrTopState (top : LRState) (p : LRParser) : LRParser :=
  mkLRParser (p_Table p) (mp_LexicalAnalyzer p) (m_Stack p) top (m_CurrInputToken p).
Definition set_CurrInputToken (tok : Token) (p : LRParser) : LRParser :=
  mkLRParser (p_Table p) (mp_LexicalAnalyzer p) (m_Stack p) (m_CurrTopState p) tok.
Definition set_LexicalAnalyzer (la : LexicalAnalyzer) (p : LRParser) : LRParser :=
  mkLRParser (p_Table p) la (m_Stack p) (m_CurrTopState p) (m_CurrInputToken p).

(** The member functions of the parser. *)
Definition M : Type -> Type := StateRes LRParser.

Section WithEnums.
Context `{Enums}.

(** [atAction(state, terminal)]: the table grows to hold [state]; the
    function is [noexcept], so the exception of [at] ends the program. *)
Definition atAction (state_ : Z) (terminal : nat) : StateRes LRParsingTable LRTableEntry :=
  fun t =>
    let actionTable :=
      if size (actionTable t) <=? state_ then
        resize (Z.to_nat (wrap (state_ + 1))) (replicate T_COUNT empty_entry)
          (actionTable t)
      else actionTable t in
    let t := mkLRTable (grammar t) actionTable (gotoTable t) in
    match actionTable !! Z.to_nat state_ ≫= fun row => row !! terminal with
    | Some e => (Ret e, t)
    | None => (Raise ProcessAbort, t)
    end.

(** [atGoto(state, nonTerminal)]. *)
Definition atGoto (state_ : Z) (nonTerminal : nat) : StateRes LRParsingTable LRTableEntry :=
  fun t =>
    let gotoTable :=
      if size (gotoTable t) <=? state_ then
        resize (Z.to_nat (wrap (state_ + 1))) (replicate NT_COUNT empty_entry)
          (gotoTable t)
      else gotoTable t in
    let t := mkLRTable (grammar t) (actionTable t) gotoTable in
    match gotoTable !! Z.to_nat state_ ≫= fun row => row !! nonTerminal with
    | Some e => (Ret e, t)
    | None => (Raise ProcessAbort, t)
    end.

(** [getGotos(state)]: the non-terminals with a non-error entry in the row
    [gotoTable[state]], which is read unchecked. *)
Definition getGotos (state_ : Z) (t : LRParsingTable) : Res (list nat) :=
  row ← Cpp.index (gotoTable t) (Z.to_nat state_);
  Ret (List.filter
         (fun variable => negb (isError (default empty_entry (row !! variable))))
         (seq 0 NT_COUNT)).

(** A member function of [p_Table] called on the parser. *)
Definition on_table {A} (m : StateRes LRParsingTable A) : M A :=
  fun p => let '(r, t) := m (p_Table p) in (r, set_Table t p).

Definition START_STATE : LRState := LRState_ctor 0.

(** [get_next_token()] of the base class. *)
Definition get_next_token : M Token :=
  fun p =>
    let '(tok, la) := getNextToken (mp_LexicalAnalyzer p) in
    (Ret tok, set_LexicalAnalyzer la p).

(** [LRParser(lexer, parsingTable, startSymbol)]: the constructor computes
    FIRST and FOLLOW of the grammar of the table.  The member initialiser
    [m_Stack{ 0 }] builds the vector from a list of one state. *)
Definition LRParser_ctor (fuel : nat) (lexer : LexicalAnalyzer)
    (parsingTable : LRParsingTable) : Res LRParser :=
  g ← calculateFIRST fuel (grammar parsingTable);
  g ← calculateFOLLOW fuel g;
  Ret (mkLRParser
         (mkLRTable g (actionTable parsingTable) (gotoTable parsingTable))
         lexer [LRState_ctor 0] START_STATE default_token).

(** [_reset_parser_state]. *)
Definition _reset_parser_state : M unit :=
  modify (fun p =>
    set_CurrInputToken default_token (set_CurrTopState START_STATE (set_Stack [] p))).

(** [_push_state(state)]: after [push_back(state)], [back()] is [state]. *)
Definition _push_state (s : LRState) : M unit :=
  modify (fun p => set_Stack (m_Stack p ++ [s]) p);;
  modify (set_CurrTopState s).

(** [_pop_state]: [m_CurrTopState] is assigned before the element is
    removed. *)
Definition _pop_state : M unit :=
  stack ← gets m_Stack;
  if size stack <=? 1 then
    throw (RuntimeError "Stack underflow: Cannot pop more states from the LR stack. The stack cannot reach an empty stated.")
  else
    match back stack with
    | None => throw Undefined
    | Some top =>
        modify (set_CurrTopState top);;
        modify (set_Stack (pop_back stack))
    end.

(** [_pop_states(num)]: [num + 1] is computed in [size_t].  [end - num] is
    before [begin()] when the check lets a [num] larger than the stack
    through, and [back()] needs a state to be left. *)
Definition _pop_states (num : Z) : M unit :=
  stack ← gets m_Stack;
  if size stack <? wrap (num + 1) then
    throw (RuntimeError "Stack underflow: Cannot pop states from the LR stack. The stack cannot reach an empty stated.")
  else if size stack <? num then throw Undefined
  else
    let stack := take (length stack - Z.to_nat num) stack in
    modify (set_Stack stack);;
    match back stack with
    | None => throw Undefined
    | Some top => modify (set_CurrTopState top)
    end.

(** The semantic callbacks are untyped pointers stored in the production;
    [reduceAction h] is the function called through the handle [h] with the
    two-argument signature, [acceptAction h] the one called with the
    three-argument signature.  Both receive the stack by reference. *)
Context {ParserResultT : Type}.
Context (reduceAction : nat -> StackType -> LRState -> StackType * LRState).
Context (acceptAction :
  nat -> StackType -> LRState -> ParserResultT -> StackType * LRState * ParserResultT).

Definition call_reduceAction (action : nat) (newState : LRState) : M LRState :=
  fun p =>
    let '(stack, newState) := reduceAction action (m_Stack p) newState in
    (Ret newState, set_Stack stack p).

Definition call_acceptAction (action : nat) (newState : LRState)
    (result : ParserResultT) : M ParserResultT :=
  fun p =>
    let '(stack, _, result) := acceptAction action (m_Stack p) newState result in
    (Ret result, set_Stack stack p).

(** [_reduce(prodNumber)]. *)
Definition _reduce (prodNumber : nat) : M unit :=
  g ← gets (fun p => grammar (p_Table p));
  production ← lift (at_ (m_Vector g) prodNumber);
  let newState := LRState_default in
  newState ←
    match postfixAction production with
    | Some action => call_reduceAction action newState
    | None => mret newState
    end;
  let prodBodyLength := size (prodBody production) in
  _pop_states prodBodyLength;;
  stateNum ← gets (fun p => state (m_CurrTopState p));
  currEntry ← on_table (atGoto stateNum (as_nonTerminal (prodHead production)));
  let newState := mkLRState (number currEntry) (data newState) (token newState) in
  if negb (bool_decide (PTable.type currEntry = TET_GOTO)) then
    throw (LogicError "Incorrect entry type! Expected type `GOTO` within function reduce after accessing the GOTO table.")
  else _push_state newState.

(** [_take_parsing_action(result)]: whether the parser has accepted, and
    [result], which is passed by reference. *)
Definition _take_parsing_action (result : ParserResultT) : M (bool * ParserResultT) :=
  currStateNum ← gets (fun p => state (m_CurrTopState p));
  currTokenName ← gets (fun p => name (m_CurrInputToken p));
  currEntry ← on_table (atAction currStateNum currTokenName);
  match PTable.type currEntry with
  | TET_ACTION_SHIFT =>
      tok ← gets m_CurrInputToken;
      let s := mkLRState (number currEntry) 0 tok in
      _push_state s;;
      tok ← get_next_token;
      modify (set_CurrInputToken tok);;
      mret (false, result)
  | TET_ACTION_REDUCE =>
      _reduce (Z.to_nat (number currEntry));;
      mret (false, result)
  | TET_ACCEPT =>
      g ← gets (fun p => grammar (p_Table p));
      production ← lift (at_ (m_Vector g) 0);
      let newState := LRState_default in
      match postfixAction production with
      | Some action =>
          result ← call_acceptAction action newState result;
          mret (true, result)
      | None => mret (true, result)
      end
  | _ => throw ProcessAbort
  end.

(** Modelled from the spec: [isIn(x, s)] is declared in utility/common.h,
    which is not among the sources.  Following "check whether t is in
    FOLLOW(N)", it is membership under [operator==]. *)
Definition isIn (x : Symbol) (s : SymSet) : bool := existsb (sym_eqb x) s.

(** The first loop of [_error_recov_panic_mode]: states without a goto
    entry are removed by [pop_back] until the stack is empty.  The result is
    the recorded non-terminals and [found].  Every iteration but the last
    removes a state: [fuel] is the size of the stack plus one. *)
Fixpoint panic_find_state (fuel : nat) : M (list nat * bool) :=
  match fuel with
  | O => throw OutOfFuel
  | S fuel' =>
      stack ← gets m_Stack;
      match back stack with
      | None => mret ([], false)
      | Some currState =>
          let stateNum := state currState in
          t ← gets p_Table;
          nonTerminals ← lift (getGotos stateNum t);
          if negb (bool_decide (nonTerminals = [])) then mret (nonTerminals, true)
          else
            modify (set_Stack (pop_back stack));;
            panic_find_state fuel'
      end
  end.

(** The loop over the recorded non-terminals: [true] when the synchronising
    state has been pushed (the function returns), [false] when no
    non-terminal has the current terminal in its FOLLOW set.  The
    [assert(not entry.isError())] is taken as compiled in: a failed one
    ends the process. *)
Fixpoint panic_try_sync (nonTerminals : list nat) (currT : nat) : M bool :=
  match nonTerminals with
  | [] => mret false
  | nonTerminal :: rest =>
      g ← gets (fun p => grammar (p_Table p));
      follow ← lift (getFOLLOW nonTerminal g);
      if negb (isIn (toSymbol_terminal currT) follow) then
        panic_try_sync rest currT
      else
        stack ← gets m_Stack;
        match back stack with
        | None => throw Undefined
        | Some topState =>
            entry ← on_table (atGoto (state topState) nonTerminal);
            if isError entry then throw ProcessAbort
            else
              let newState := LRState_ctor (number entry) in
              _push_state newState;;
              mret true
        end
  end.

(** The loop over the remaining tokens; [fuel] bounds the iterations. *)
Fixpoint panic_sync (fuel : nat) (nonTerminals : list nat) (hasReachedEnd : bool)
  : M unit :=
  match fuel with
  | O => throw OutOfFuel
  | S fuel' =>
      if hasReachedEnd then mret tt
      else
        tok ← gets m_CurrInputToken;
        let hasReachedEnd := token_eqb tok TEOF in
        let currT := name tok in
        synchronized ← panic_try_sync nonTerminals currT;
        if (synchronized : bool) then mret tt
        else
          tok ← get_next_token;
          modify (set_CurrInputToken tok);;
          panic_sync fuel' nonTerminals hasReachedEnd
  end.

(** [_error_recov_panic_mode]. *)
Definition _error_recov_panic_mode (fuel : nat) : M unit :=
  stack ← gets m_Stack;
  '(nonTerminals, found) ← panic_find_state (S (length stack));
  if negb (found : bool) then throw ProcessAbort
  else panic_sync fuel nonTerminals false.

(** [_check_and_resolve_parsing_errors(errorNum, errorRecoveryType)]:
    [errorNum] is a parameter passed by value, its increment is local to
    the call. *)
Definition _check_and_resolve_parsing_errors (fuel : nat) (errorNum : Z)
    (errorRecoveryType : ErrorRecoveryType) : M bool :=
  currTokenName ← gets (fun p => name (m_CurrInputToken p));
  currStateNum ← gets (fun p => state (m_CurrTopState p));
  currEntry ← on_table (atAction currStateNum currTokenName);
  if negb (isEmpty currEntry || bool_decide (PTable.type currEntry = TET_ERROR)) then
    mret false
  else if errorNum =? ERR_RECOVERY_LIMIT then
    throw (LogicError "Error recovery limit exceeded!")
  else
    let errorNum := wrap (errorNum + 1) in
    if bool_decide (errorRecoveryType = ERT_NONE) then
      throw (LogicError "Cannot continue further with the parse! Error entry encountered; It looks like this string does not belong to the grammar.")
    else
      match errorRecoveryType with
      | ERT_PANIC_MODE =>
          _error_recov_panic_mode fuel;;
          mret true
      | _ =>
          throw (LogicError "Cannot continue further with the parse! Error entry encountered; It looks like this string does not belong to the grammar.")
      end.

(** The main loop of [parse]; [fuel] bounds the iterations.  [errorNum] is
    the local variable of [parse].  [recovered] is a ghost counter, not in
    the code: the number of iterations in which an error was recovered. *)
Fixpoint parse_loop (fuel : nat) (errorNum : Z) (errorRecoveryType : ErrorRecoveryType)
    (recovered : nat) (result : ParserResultT) : M (ParserResultT * nat) :=
  match fuel with
  | O => throw OutOfFuel
  | S fuel' =>
      resolved ← _check_and_resolve_parsing_errors fuel' errorNum errorRecoveryType;
      if (resolved : bool) then
        parse_loop fuel' errorNum errorRecoveryType (S recovered) result
      else
        '(accepted, result) ← _take_parsing_action result;
        if (accepted : bool) then mret (result, recovered)
        else parse_loop fuel' errorNum errorRecoveryType recovered result
  end.

(** [parse(initResult, errorRecoveryType)]: the result and the ghost
    counter of recovered errors. *)
Definition parse (fuel : nat) (initResult : ParserResultT)
    (errorRecoveryType : ErrorRecoveryType) : M (ParserResultT * nat) :=
  let result := initResult in
  _reset_parser_state;;
  _push_state START_STATE;;
  tok ← get_next_token;
  modify (set_CurrInputToken tok);;
  let errorNum := 0 in
  parse_loop fuel errorNum errorRecoveryType 0%nat result.

End WithEnums.

End LR.

(* ===================================================================== *)
(** ** The LL driver and its panic mode (ptable.h, LLParser.h) *)
(* ===================================================================== *)

Module LL.
Import Grammar Lex.

(** [LLTableEntry]: [prodIndex] and [action] are the two members of a
    union; [u] is their common storage, and the pointer [action] is null
    when [u] is 0. *)
Record LLTableEntry : Type := mkLLEntry {
  isError : bool;     (* = true *)
  u : Z;              (* prodIndex = SIZE_MAX *)
  isEmpty : bool      (* = true *)
}.
Definition prodIndex (e : LLTableEntry) : Z := u e.
Definition action_ (e : LLTableEntry) : Z := u e.

(** [LLTableEntry{}]. *)
Definition default_entry : LLTableEntry := mkLLEntry true SIZE_MAX true.

Definition StackElementType : Type := ProductionElement.
Definition StackType : Type := list StackElementType.

(** [LLParsingTable]: [NT_COUNT] rows of [T_COUNT] entries. *)
Record LLParsingTable : Type := mkLLTable {
  grammar : ProductionVector;
  table : list (list LLTableEntry)
}.

(** The parser object.  [m_ProdRecords] is a reference to the grammar of
    the table.  [numOfDetectedErrs] is the static local variable of
    [error_recovery]. *)
Record LLParser : Type := mkLLParser {
  p_Table : LLParsingTable;
  m_StartSymbol : Symbol;
  mp_LexicalAnalyzer : LexicalAnalyzer;
  m_Stack : StackType;
  m_CurrTopElement : StackElementType;
  m_CurrInputToken : Token;
  numOfDetectedErrs : Z
}.

Definition set_Stack (s : StackType) (p : LLParser) : LLParser :=
  mkLLParser (p_Table p) (m_StartSymbol p) (mp_LexicalAnalyzer p) s
    (m_CurrTopElement p) (m_CurrInputToken p) (numOfDetectedErrs p).
Definition set_CurrTopElement (e : StackElementType) (p : LLParser) : LLParser :=
  mkLLParser (p_Table p) (m_StartSymbol p) (mp_LexicalAnalyzer p) (m_Stack p)
    e (m_CurrInputToken p) (numOfDetectedErrs p).
Definition set_CurrInputToken (tok : Token) (p : LLParser) : LLParser :=
  mkLLParser (p_Table p) (m_StartSymbol p) (mp_LexicalAnalyzer p) (m_Stack p)
    (m_CurrTopElement p) tok (numOfDetectedErrs p).
Definition set_LexicalAnalyzer (la : LexicalAnalyzer) (p : LLParser) : LLParser :=
  mkLLParser (p_Table p) (m_StartSymbol p) la (m_Stack p)
    (m_CurrTopElement p) (m_CurrInputToken p) (numOfDetectedErrs p).

(** The member functions of the parser. *)
Definition M : Type -> Type := StateRes LLParser.

(** [m_Stack.push_back(se)]. *)
Definition push_back (se : StackElementType) : M unit :=
  modify (fun p => set_Stack (m_Stack p ++ [se]) p).

(** [m_Stack.pop_back()]: undefined on an empty vector. *)
Definition pop_back : M unit :=
  stack ← gets m_Stack;
  if bool_decide (stack = []) then throw Undefined
  else modify (set_Stack (Cpp.pop_back stack)).

Section WithEnums.
Context `{Enums}.

(** [getLexicalAnalyzer().get_next_token()] and [getLexicalAnalyzer().peak()]. *)
Definition get_next_token : M Token :=
  fun p =>
    let '(tok, la) := getNextToken (mp_LexicalAnalyzer p) in
    (Ret tok, set_LexicalAnalyzer la p).

Definition peak : M Token := gets (fun p => Lex.peak (mp_LexicalAnalyzer p)).

(** [p_Table[variable][terminal]]: the row is range-checked, the column is
    not. *)
Definition table_at (variable terminal : nat) : M LLTableEntry :=
  t ← gets p_Table;
  match table t !! variable with
  | None => throw RangeError
  | Some row => lift (Cpp.index row terminal)
  end.

(** [GrammaticalSymbol::operator==(const TokenT&)]. *)
Definition sym_eq_token (this : Symbol) (token : Token) : bool :=
  if isTerminal this then (as_terminal this =? name token)%nat else false.

(** The loop that pushes a body in reverse order. *)
Fixpoint push_body (rbody : list ProductionElement) : M unit :=
  match rbody with
  | [] => mret tt
  | se :: rbody' => push_back se;; push_body rbody'
  end.

(** [m_ProdRecords[prodIndex]], [check_prod_body(prod)] and the expansion
    of the production on the stack. *)
Definition expand (prodIndex_ : Z) : M unit :=
  g ← gets (fun p => grammar (p_Table p));
  prod ← lift (at_ (m_Vector g) (Z.to_nat prodIndex_));
  if bool_decide (prodBody prod = []) then
    throw (LogicError "Production body is empty.")
  else push_body (rev (prodBody prod)).

(** The callbacks: [recordAction h] is called on the stack and the data of
    a synthesized or action record, [errorAction h] is the action of an
    error entry of the table (it takes its arguments by value). *)
Context (recordAction : nat -> StackType -> nat -> StackType).
Context (errorAction : Z -> StackType -> StackElementType -> Token -> bool).

Definition call_recordAction (topRecord : LLRecord) : M unit :=
  match action topRecord with
  | Some a => modify (fun p => set_Stack (recordAction a (m_Stack p) (data topRecord)) p)
  | None => mret tt
  end.

(** [panic_mode_try_sync_variable(currInputToken)]. *)
Definition panic_mode_try_sync_variable (currInputToken : Token) : M bool :=
  top ← gets m_CurrTopElement;
  let variable := as_nonTerminal (as_gramSymbol top) in
  tableEntry ← table_at variable (name Lex.EPSILON);
  if negb (isError tableEntry) then
    expand (prodIndex tableEntry);;
    mret true
  else
    tableEntry ← table_at variable (name currInputToken);
    if isError tableEntry then
      stack ← gets m_Stack;
      if negb (action_ tableEntry =? 0)
         && errorAction (action_ tableEntry) stack top currInputToken
      then
        tok ← get_next_token;
        modify (set_CurrInputToken tok);;
        mret true
      else
        tok ← get_next_token;
        modify (set_CurrInputToken tok);;
        mret false
    else
      tok ← get_next_token;
      modify (set_CurrInputToken tok);;
      mret true.

(** The [while (true)] of [panic_mode]; [topSymbol] is read once, before the
    loop; [fuel] bounds the iterations. *)
Fixpoint panic_loop (fuel : nat) (topSymbol : Symbol) : M bool :=
  match fuel with
  | O => throw OutOfFuel
  | S fuel' =>
      if isTerminal topSymbol then
        pop_back;;
        mret true
      else
        currInputToken ← peak;
        synced ← panic_mode_try_sync_variable currInputToken;
        if (synced : bool) then mret true
        else
          tok ← gets m_CurrInputToken;
          if token_eqb tok default_token then
            pop_back;;
            stack ← gets m_Stack;
            if bool_decide (stack = []) then mret false
            else panic_loop fuel' topSymbol
          else panic_loop fuel' topSymbol
  end.

(** [panic_mode]. *)
Definition panic_mode (fuel : nat) : M bool :=
  top ← gets m_CurrTopElement;
  let topSymbol := as_gramSymbol top in
  panic_loop fuel topSymbol.

(** [error_recovery(errRecovType)]. *)
Definition error_recovery (fuel : nat) (errRecovType : ErrorRecoveryType) : M bool :=
  n ← gets numOfDetectedErrs;
  if negb (bool_decide (errRecovType = ERT_NONE))
     && negb (bool_decide (errRecovType = ERT_ABORT))
     && (n =? ERR_RECOVERY_LIMIT)
  then throw (RuntimeError "Limit of recovered-from errors exceeded")
  else if bool_decide (errRecovType = ERT_NUM) then
    throw (InvalidArgument "Argument ERT_NONE cannot be used in this context.")
  else
    match errRecovType with
    | ERT_NONE => mret false
    | ERT_PANIC_MODE => panic_mode fuel
    | ERT_PHRASE_LEVE => mret false
    | ERT_GLOBAL => mret false
    | ERT_ABORT => throw ProcessAbort
    | ERT_NUM => mret false
    end.

(** [parse_grammar_symbol(errRecoveryType)]. *)
Definition parse_grammar_symbol (fuel : nat) (errRecoveryType : ErrorRecoveryType)
  : M unit :=
  top ← gets m_CurrTopElement;
  let topSymbol := as_gramSymbol top in
  if isTerminal topSymbol then
    if sym_eq_token topSymbol Lex.EPSILON then mret tt
    else
      tok ← gets m_CurrInputToken;
      let matched := sym_eq_token topSymbol tok in
      tok ← get_next_token;
      modify (set_CurrInputToken tok);;
      if negb matched then
        error_recovery fuel errRecoveryType;; mret tt
      else mret tt
  else
    tok ← gets m_CurrInputToken;
    tableEntry ← table_at (as_nonTerminal (as_gramSymbol top)) (name tok);
    if isError tableEntry then
      error_recovery fuel errRecoveryType;; mret tt
    else expand (prodIndex tableEntry).

(** The body of the [while (-not m_Stack.empty())] loop of [parse]: the top
    element is copied to [m_CurrTopElement] and removed from the stack, then
    it is dispatched on. *)
Definition parse_iteration (fuel : nat) (errRecoveryType : ErrorRecoveryType)
  : M unit :=
  stack ← gets m_Stack;
  match back stack with
  | None => throw Undefined
  | Some top =>
      modify (set_CurrTopElement top);;
      pop_back;;
      match type top with
      | PET_GRAM_SYMBOL => parse_grammar_symbol fuel errRecoveryType
      | PET_SYNTH_RECORD => call_recordAction (as_synRecord top)
      | PET_ACTION_RECORD => call_recordAction (as_actRecord top)
      end
  end.

(** The loop of [parse]; [fuel] bounds the iterations. *)
Fixpoint parse_loop (fuel : nat) (errRecoveryType : ErrorRecoveryType) : M unit :=
  match fuel with
  | O => throw OutOfFuel
  | S fuel' =>
      stack ← gets m_Stack;
      if bool_decide (stack = []) then mret tt
      else
        parse_iteration fuel' errRecoveryType;;
        parse_loop fuel' errRecoveryType
  end.

(** [reset_parser_state]. *)
Definition reset_parser_state : M unit :=
  modify (fun p =>
    set_CurrInputToken default_token
      (set_CurrTopElement default_element (set_Stack [] p))).

(** [parse(errRecoveryType)]. *)
Definition parse (fuel : nat) (errRecoveryType : ErrorRecoveryType) : M unit :=
  start ← gets m_StartSymbol;
  push_back (elem_symbol start);;
  tok ← get_next_token;
  modify (set_CurrInputToken tok);;
  parse_loop fuel errRecoveryType;;
  reset_parser_state.

End WithEnums.

End LL.

(* ===================================================================== *)
(** ** Concrete machines, grammars and tables *)
(* ===================================================================== *)

Module Examples.
Import FSM PTable Grammar Items Lex.

(** *** A machine whose start state is final and has no transition *)

Definition dead_end_machine : FiniteStateMachine :=
  mkFSM [START_STATE] (TransFn []).

(** *** A machine for the words [a] and [abc]: state 2 follows [a] and is
    final, state 3 follows [ab], state 4 follows [abc] and is final *)

Definition abc_machine : FiniteStateMachine :=
  mkFSM [2; 4]%nat
    (fun q c =>
       if (q =? 1)%nat && Ascii.eqb c "a" then [2%nat]
       else if (q =? 2)%nat && Ascii.eqb c "b" then [3%nat]
       else if (q =? 3)%nat && Ascii.eqb c "c" then [4%nat]
       else []).

(** *** Enumerations, numbered as in the test-suite: the non-terminals come
    after the terminals *)

Definition T_a : nat := 0.
Definition T_b : nat := 1.
Definition NT_START : nat := 4.
Definition NT_S : nat := 5.
Definition NT_A : nat := 6.

#[export] Instance enums : Enums := {|
  T_EPSILON := 3;
  T_EOF := 2;
  T_COUNT := 4;
  NT_COUNT := 7
|}.

Definition t (x : nat) : ProductionElement := elem_symbol (toSymbol_terminal x).
Definition nt (x : nat) : ProductionElement := elem_symbol (toSymbol_nonTerminal x).

(** The production that [ProductionRecord(head, body, number)] builds. *)
Definition production (head : nat) (body : list ProductionElement) (number : nat)
  : ProductionRecord :=
  mkProduction (length (List.filter is_gram_symbol body))
    (toSymbol_nonTerminal head) body number None.

(** START -> S,  S -> A,  A -> EPSILON. *)
Definition grammar_chain : ProductionVector :=
  ProductionVector_ctor
    [production NT_START [nt NT_S] 0;
     production NT_S [nt NT_A] 1;
     production NT_A [t T_EPSILON] 2].

(** START -> S,  S -> A EPSILON,  A -> a. *)
Definition grammar_eps_after : ProductionVector :=
  ProductionVector_ctor
    [production NT_START [nt NT_S] 0;
     production NT_S [nt NT_A; t T_EPSILON] 1;
     production NT_A [t T_a] 2].

(** START -> S,  S -> S a,  S -> a. *)
Definition grammar_list : ProductionVector :=
  ProductionVector_ctor
    [production NT_START [nt NT_S] 0;
     production NT_S [nt NT_S; t T_a] 1;
     production NT_S [t T_a] 2].

(** START -> S,  S -> a S,  S -> b. *)
Definition grammar_right : ProductionVector :=
  ProductionVector_ctor
    [production NT_START [nt NT_S] 0;
     production NT_S [t T_a; nt NT_S] 1;
     production NT_S [t T_b] 2].

(** START -> S,  S -> a. *)
Definition grammar_single : ProductionVector :=
  ProductionVector_ctor
    [production NT_START [nt NT_S] 0;
     production NT_S [t T_a] 1].

(** The list grammar after [calculateFIRST]. *)
Definition grammar_list_first : ProductionVector :=
  Eval vm_compute in
    match calculateFIRST 29 grammar_list with
    | Ret g => g
    | Raise _ => grammar_list
    end.

(** *** LR tables *)

Definition e : LRTableEntry := empty_entry.

Definition goto_row (target : Z) : list LRTableEntry :=
  [e; e; e; e; e; TE_GOTO target; e].
Definition no_goto : list LRTableEntry := replicate 7 e.

(** The SLR table of [grammar_list]: state 0 is the start state, state 1
    follows S, state 2 follows [a] in state 0, state 3 follows [S a]. *)
Definition table_list : LR.LRParsingTable :=
  LR.mkLRTable grammar_list
    [ [TE_SHIFT 2; e; e; e];
      [TE_SHIFT 3; e; TE_ACCEPT; e];
      [TE_REDUCE 2; e; TE_REDUCE 2; e];
      [TE_REDUCE 1; e; TE_REDUCE 1; e] ]
    [ goto_row 1; no_goto; no_goto; no_goto ].

(** A table without any goto entry. *)
Definition table_no_goto : LR.LRParsingTable :=
  LR.mkLRTable grammar_single
    [ [TE_SHIFT 1; e; e; e]; [e; e; e; e] ]
    [ no_goto; no_goto ].

Definition tok_a : Token := mkToken T_a "a".
Definition tok_b : Token := mkToken T_b "b".

(** [b a b a b a b a b a b a]: six unexpected [b]s. *)
Definition six_errors : LexicalAnalyzer := concat (replicate 6 [tok_b; tok_a]).

(** Callbacks that leave everything as it is. *)
Definition no_reduceAction (h : nat) (s : LR.StackType) (st : LR.LRState)
  : LR.StackType * LR.LRState := (s, st).
Definition no_acceptAction (h : nat) (s : LR.StackType) (st : LR.LRState) (r : unit)
  : LR.StackType * LR.LRState * unit := (s, st, r).

(** The LR parser built from a table and a token source, then run. *)
Definition lr_run (table : LR.LRParsingTable) (tokens : LexicalAnalyzer)
    (errorRecoveryType : ErrorRecoveryType)
  : Res (Res (unit * nat) * LR.LRParser) :=
  p ← LR.LRParser_ctor 20 tokens table;
  Ret (LR.parse no_reduceAction no_acceptAction 200 tt errorRecoveryType p).

(** An LR parser of the list grammar about to reduce by S -> S a: state 3,
    which follows [S a], is on top of states 0 and 1. *)
Definition lr_parser_before_reduce : LR.LRParser :=
  LR.mkLRParser table_list []
    (map LR.LRState_ctor [0; 1; 3]) (LR.LRState_ctor 3) default_token.

(** *** LL parser *)

Definition ll_table : LL.LLParsingTable :=
  LL.mkLLTable grammar_single (replicate 7 (replicate 4 LL.default_entry)).

(** An LL parser in the middle of a parse: the stack holds [b] and, on top
    of it, [a]; the current token is [b]. *)
Definition ll_parser : LL.LLParser :=
  LL.mkLLParser ll_table (toSymbol_nonTerminal NT_START) [tok_a]
    [t T_b; t T_a] default_element tok_b 0.

Definition no_recordAction (h : nat) (s : LL.StackType) (d : nat) : LL.StackType := s.
Definition no_errorAction (h : Z) (s : LL.StackType) (top : LL.StackElementType)
    (tok : Token) : bool := false.

(** *** Item sets *)

(** [START -> . S], without lookaheads. *)
Definition item_start : Item :=
  mkItem 0 (production NT_START [nt NT_S] 0) 0 [].

Definition itemset_start : ItemSet := ItemSet_ctor [item_start].

(** [START -> . S] with the end marker as its lookahead: the item from
    which the LR(1) item sets of a grammar are built. *)
Definition item_start_eof : Item :=
  mkItem 0 (production NT_START [nt NT_S] 0) 0 [END_MARKER].

Definition itemset_start_eof : ItemSet := ItemSet_ctor [item_start_eof].

(** *** A lexical analyzer for the words [a] and [abc] *)

(** [std::isspace] in the C locale. *)
Definition isspace_C (c : ascii) : bool :=
  let n := nat_of_ascii c in
  (n =? 32)%nat || ((9 <=? n)%nat && (n <=? 13)%nat).

(** The storage of the string [ abx], with its terminating NUL, and the
    view of the four bytes before the NUL. *)
Definition abx_view : Lexer.string_view :=
  Lexer.mkView [" "; "a"; "b"; "x"; zero]%char 0 4.

(** The tokens are pairs of the state and the lexeme that the factory
    receives; the value-initialised token has state 0 and no lexeme. *)
Definition abx_lexer : @Lexer.LexicalAnalyzer (FSM.FSMStateType * FSM.InputT) :=
  Lexer.LexicalAnalyzer_ctor abc_machine pair abx_view.

(** The storage of a line feed and [a], with the terminating NUL. *)
Definition nl_view : Lexer.string_view :=
  Lexer.mkView ["010"; "a"; zero]%char 0 2.

Definition nl_lexer : @Lexer.LexicalAnalyzer (FSM.FSMStateType * FSM.InputT) :=
  Lexer.LexicalAnalyzer_ctor abc_machine pair nl_view.

End Examples.

(* ===================================================================== *)
(** ** Notions used in the statements *)
(* ===================================================================== *)

(** The failure by which the LR driver reports that the recovery limit is
    exhausted. *)
Definition limit_exceeded : Failure := LogicError "Error recovery limit exceeded!".

(** The member function [m] never ends with the failure [bad]. *)
Definition never_raises {S A} (bad : Failure) (m : StateRes S A) : Prop :=
  forall s f s', m s = (Raise f, s') -> f <> bad.

(** The member function [m], started on an object that satisfies [I],
    leaves an object that satisfies [I] and does not end with the failure
    [bad]. *)
Definition keeps_and_never_raises {S A} (I : S -> Prop) (bad : Failure)
    (m : StateRes S A) : Prop :=
  forall s r s', I s -> m s = (r, s') -> I s' /\ r <> Raise bad.

(** The failure by which the LL driver reports that the recovery limit is
    exhausted, and the value that the static counter of [error_recovery]
    has when the program starts. *)
Definition ll_limit_exceeded : Failure :=
  RuntimeError "Limit of recovered-from errors exceeded".

Definition no_error_counted (p : LL.LLParser) : Prop := LL.numOfDetectedErrs p = 0.

(** *** Views and what the lexical analyzer takes for whitespace *)

Module LexerNotions.
Import FSM Lexer.

(** The view lies inside its storage. *)
Definition view_ok (v : string_view) : Prop :=
  (sv_offset v + sv_size v <= length (sv_buffer v))%nat.

Section WithToken.
Context {TokenT : Type} (isspace : ascii -> bool).

(** What [_remove_whitespace_prefix] takes for whitespace. *)
Definition is_whitespace (c : ascii) : bool :=
  isspace c && negb (Ascii.eqb c zero).

(** The storage holds a byte after the view, and it does not count as
    whitespace: the terminating NUL of a string, for instance. *)
Definition terminated (v : string_view) : Prop :=
  exists c, sv_buffer v !! (sv_offset v + sv_size v)%nat = Some c /\
            is_whitespace c = false.

(** The members that the member functions never assign. *)
Definition same_machine (la la' : @LexicalAnalyzer TokenT) : Prop :=
  m_Automatan la' = m_Automatan la /\
  m_TokenFactory la' = m_TokenFactory la /\
  sv_buffer (m_SourceCode la') = sv_buffer (m_SourceCode la).

(** [la'] is [la] without the whitespace [ws] at the start of its view. *)
Definition skipped (la la' : @LexicalAnalyzer TokenT) (ws : list ascii) : Prop :=
  same_machine la la' /\
  (sv_offset (m_SourceCode la') + sv_size (m_SourceCode la') =
   sv_offset (m_SourceCode la) + sv_size (m_SourceCode la))%nat /\
  sv_bytes (m_SourceCode la) = ws ++ sv_bytes (m_SourceCode la') /\
  sv_size (m_SourceCode la) = (length ws + sv_size (m_SourceCode la'))%nat /\
  Forall (fun c => is_whitespace c = true) ws.

End WithToken.
End LexerNotions.

(** *** Bodies of the productions of an LR grammar *)

Module LRNotions.
Import Grammar.

(** The elements of the body of a production of an LR grammar are
    [LRProductionElement]s (stack.h): they hold a grammar symbol, and their
    [type] is [PET_GRAM_SYMBOL]. *)
Definition lr_body (body : list ProductionElement) : Prop :=
  Forall (fun element => is_gram_symbol element = true) body.

End LRNotions.

(** *** Positions of an input from which a prefix is accepted *)

Module FSMNotions.
Import FSM.

Section Machine.
Context (M : FiniteStateMachine).

(** The number of bytes from position [i] of [s] that the machine reads
    before it reaches the dead state or the end of [s]. *)
Definition run (s : InputT) (i : nat) : nat :=
  length (path M (drop i s) START_STATE).

(** Some prefix of [s] from position [i] on is accepted. *)
Definition accepted_from (s : InputT) (i : nat) : Prop :=
  exists k, accepted_prefix M (drop i s) k.

(** The same, read off the path: one of the states reached from position
    [i], the start state included, is final. *)
Definition accepted_from_b (s : InputT) (i : nat) : bool :=
  match first_final M (rev (START_STATE :: path M (drop i s) START_STATE)) with
  | Some _ => true
  | None => false
  end.

(** What the loop of [_simulate_longest_substring] records for the start
    position [i]. *)
Definition recorded (s : InputT) (i : nat) : Substring :=
  mkSubstring (START_STATE :: path M (drop i s) START_STATE)
    (mkIndecies (Z.of_nat i) (Z.of_nat (i + run s i))).

End Machine.

End FSMNotions.

(** *** Sets of terminals and grammars over the enumerations *)

Module GrammarNotions.
Import Grammar.

(** The order of [std::set<SymbolT>] on terminals: the order of the
    enumerator values. *)
Definition term_lt (x y : Symbol) : Prop := (as_ x < as_ y)%nat.

(** A set of terminals with values below [B], as [std::set] keeps it:
    strictly ascending. *)
Definition terminal_set (B : nat) (s : SymSet) : Prop :=
  StronglySorted term_lt s /\
  Forall (fun x => isTerminal x = true /\ (as_ x < B)%nat) s.

(** The number of symbols held by a vector of sets. *)
Definition total (F : list SymSet) : nat := sum_list (map length F).

Section WithEnums.
Context `{Enums}.

(** A symbol of the enumerations: a terminal below [T_COUNT] or a
    non-terminal below [NT_COUNT]. *)
Definition symbol_in_range (s : Symbol) : Prop :=
  if isTerminal s then (as_ s < T_COUNT)%nat else (as_ s < NT_COUNT)%nat.

(** A production whose head is a non-terminal of the enumeration and whose
    grammar symbols are symbols of the enumerations. *)
Definition production_in_range (P : ProductionRecord) : Prop :=
  isTerminal (prodHead P) = false /\
  (as_ (prodHead P) < NT_COUNT)%nat /\
  Forall (fun e => is_gram_symbol e = true -> symbol_in_range (as_gramSymbol e))
    (prodBody P).

Definition grammar_in_range (g : ProductionVector) : Prop :=
  Forall production_in_range (m_Vector g).

(** The vector of FIRST (or FOLLOW) sets has one set of terminals per
    non-terminal. *)
Definition sets_in_range (F : list SymSet) : Prop :=
  length F = NT_COUNT /\ Forall (terminal_set T_COUNT) F.


(** One step of a fixed-point round: the sets stay in range, none shrinks,
    and the flag [added] is raised only if a symbol has been added. *)
Definition grows (added : bool) (F : list SymSet) (added' : bool)
    (F' : list SymSet) : Prop :=
  sets_in_range F' /\ (total F <= total F')%nat /\
  (added = true -> added' = true) /\
  (added' = true -> added = true \/ (total F < total F')%nat).

(** No set of the vector holds EPSILON. *)
Definition epsilon_free (F : list SymSet) : Prop :=
  Forall (fun s : SymSet => ~ In EPSILON s) F.

(** In every body, a grammar symbol that is not the first element is not
    the EPSILON terminal: EPSILON is written as a body of its own. *)
Definition epsilon_only_first (g : ProductionVector) : Prop :=
  Forall (fun P =>
            Forall (fun e => is_gram_symbol e = true -> as_gramSymbol e <> EPSILON)
              (drop 1 (prodBody P)))
    (m_Vector g).

(** Every set of [F] is included in the set of [F'] at the same index. *)
Definition keeps (F F' : list SymSet) : Prop :=
  forall j s, F !! j = Some s -> exists s', F' !! j = Some s' /\ incl s s'.

(** One step of a round of the FOLLOW computation. *)
Definition fgrows (added : bool) (F : list SymSet) (added' : bool)
    (F' : list SymSet) : Prop :=
  (sets_in_range F' /\ epsilon_free F') /\ keeps F F' /\
  (total F <= total F')%nat /\
  (added' = true -> added = true \/ (total F < total F')%nat).


(** What the computation of FOLLOW asks of one production. *)
Definition production_ok (P : ProductionRecord) : Prop :=
  production_in_range P /\
  Forall (fun e => is_gram_symbol e = true -> as_gramSymbol e <> EPSILON)
    (drop 1 (prodBody P)).

End WithEnums.

(** The number of grammar symbols among elements. *)
Definition symbol_count (body : list ProductionElement) : nat :=
  length (List.filter is_gram_symbol body).

End GrammarNotions.

(* ===================================================================== *)
(** * Properties *)
(* ===================================================================== *)

(** ** Outcomes *)

Lemma bind_Ret_inv {A B} (m : Res A) (k : A -> Res B) (b : B) :
  (m ≫= k) = Ret b -> exists a, m = Ret a /\ k a = Ret b.
Proof. destruct m as [a|f]; simpl; [eauto | discriminate]. Qed.

Lemma wrap_small z : 0 <= z < 2 ^ 64 -> wrap z = z.
Proof. intros Hz. unfold wrap. now apply Z.mod_small. Qed.

Lemma wrap_wrap_add z k : wrap (wrap z + k) = wrap (z + k).
Proof. unfold wrap. now rewrite Zplus_mod_idemp_l. Qed.

(** ** LR table entries *)

Section TableEntries.
Import PTable.

(** C8 (as amended).  Two LR table entries are equal iff their emptiness
    flags agree, their tags agree and, for the shift and reduce tags only,
    their numbers agree.  The number of a goto entry is not compared. *)
Theorem C8_entry_equality (lhs rhs : LRTableEntry) :
  entry_eqb lhs rhs = true <->
  isEmpty lhs = isEmpty rhs /\
  type lhs = type rhs /\
  (type lhs = TET_ACTION_SHIFT \/ type lhs = TET_ACTION_REDUCE ->
   number lhs = number rhs).
Proof.
  destruct lhs as [e1 t1 n1], rhs as [e2 t2 n2]; unfold entry_eqb; simpl.
  split.
  - intros Heq.
    destruct (Bool.eqb e1 e2) eqn:He; simpl in Heq; [|discriminate].
    apply Bool.eqb_prop in He.
    destruct (bool_decide (t1 = t2)) eqn:Ht; simpl in Heq; [|discriminate].
    apply bool_decide_eq_true in Ht. subst t2.
    repeat split; [exact He|].
    intros [-> | ->]; simpl in Heq; now apply Z.eqb_eq.
  - intros (-> & -> & Hn).
    rewrite Bool.eqb_reflx, bool_decide_eq_true_2 by reflexivity. simpl.
    destruct t2; simpl; try reflexivity; apply Z.eqb_eq, Hn; auto.
Qed.

(** C8, as stated, fails: two goto entries with different target states
    compare equal. *)
Lemma C8_goto_targets_not_compared :
  entry_eqb (TE_GOTO 1) (TE_GOTO 2) = true /\
  isEmpty (TE_GOTO 1) = isEmpty (TE_GOTO 2) /\
  type (TE_GOTO 1) = type (TE_GOTO 2) /\
  number (TE_GOTO 1) <> number (TE_GOTO 2).
Proof. repeat split; discriminate. Qed.

End TableEntries.

Section TableEntryEquivalence.
Import PTable.

(** [LRTableEntry::operator==] is an equivalence relation. *)
Theorem entry_equality_is_an_equivalence :
  (forall a, entry_eqb a a = true) /\
  (forall a b, entry_eqb a b = true -> entry_eqb b a = true) /\
  (forall a b c, entry_eqb a b = true -> entry_eqb b c = true -> entry_eqb a c = true).
Proof.
  split; [|split].
  - intros [[] [] n]; unfold entry_eqb; simpl; try reflexivity; apply Z.eqb_refl.
  - intros [ea ta na] [eb tb nb]. unfold entry_eqb. simpl.
    destruct ea, eb, ta, tb; simpl; try discriminate; try reflexivity;
      rewrite Z.eqb_sym; trivial.
  - intros [ea ta na] [eb tb nb] [ec tc nc]. unfold entry_eqb. simpl.
    destruct ea, eb, ec, ta, tb, tc; simpl; try discriminate; try reflexivity;
      intros ->%Z.eqb_eq ->%Z.eqb_eq; apply Z.eqb_refl.
Qed.
End TableEntryEquivalence.

(** ** The DFA in longest-prefix mode *)

Section LongestPrefix.
Import FSM Examples.

(** C4 fails on the code when the first byte leads to the dead state and
    the start state is final.  On the input [b] the machine
    [dead_end_machine] accepts the empty prefix only, yet the longest-prefix
    simulation reports the span [0, 1): the guard [if (charIndex != 0)]
    leaves [charIndex] at 0 where the other exits of the loop leave it one
    below the number of matched bytes. *)
Theorem C4_dead_state_on_first_byte :
  let s := ["b"%char] in
  let r := _simulate_longest_prefix dead_end_machine s in
  accepted r = true /\
  indecies r = mkIndecies 0 1 /\
  accepts dead_end_machine (take 1 s) = false /\
  longest_accepted_prefix dead_end_machine s 0.
Proof.
  repeat split; try reflexivity.
  - simpl. lia.
  - intros k' [Hk Hacc]. simpl in Hk.
    destruct k' as [|[|k']]; [lia | discriminate Hacc | lia].
Qed.

End LongestPrefix.

(** *** The longest-prefix simulation in general

    The span that [_simulate_longest_prefix] reports, for any machine whose
    dead state is not final and any input shorter than [2 ^ 64] bytes. *)

Section LongestPrefixSpan.
Import FSM.
Context (M : FiniteStateMachine).

Lemma path_length s q : (length (path M s q) <= length s)%nat.
Proof.
  revert q. induction s as [|c s IH]; intros q; simpl; [lia|].
  destruct (_ =? _)%nat; simpl; [lia|]. specialize (IH (state_of_set (m_TransitionFunc M q c))). lia.
Qed.

Lemma longest_prefix_loop_spec rest ci q ms :
  0 <= ci -> ci + size rest < 2 ^ 64 ->
  longest_prefix_loop M rest ci q ms =
  ((if (length (path M rest q) =? length rest)%nat then ci + size rest
    else if ci + size (path M rest q) =? 0 then 0
         else ci + size (path M rest q) - 1),
   ms ++ path M rest q).
Proof.
  revert ci q ms. induction rest as [|c rest IH]; intros ci q ms Hci Hn; simpl.
  - unfold size. simpl. rewrite Z.add_0_r, app_nil_r. reflexivity.
  - unfold size in *. simpl length in Hn.
    destruct (_ =? _)%nat eqn:Hdead; simpl.
    + rewrite Z.add_0_r, app_nil_r. destruct (Z.eqb_spec ci 0) as [->|Hz]; simpl;
        [reflexivity|].
      rewrite wrap_small by lia. reflexivity.
    + rewrite wrap_small by lia.
      rewrite IH by lia. rewrite <- app_assoc. simpl.
      set (a := length (path M rest (state_of_set (m_TransitionFunc M q c)))).
      replace (ci + 1 + Z.of_nat a) with (ci + Z.of_nat (S a)) by lia.
      replace (ci + 1 + Z.of_nat (length rest))
        with (ci + Z.of_nat (S (length rest))) by lia.
      reflexivity.
Qed.

Lemma check_loop_spec l c :
  0 <= c < 2 ^ 64 ->
  check_loop M l c =
  match first_final M l with
  | Some j => (true, wrap (c - Z.of_nat j))
  | None => (false, wrap (c - size l))
  end.
Proof.
  revert c. induction l as [|q l IH]; intros c Hc; cbn [check_loop first_final].
  - unfold size. simpl. now rewrite Z.sub_0_r, wrap_small.
  - destruct (_is_state_final M (set_of_state q)).
    + replace (c - Z.of_nat 0) with c by (simpl; lia). now rewrite wrap_small.
    + rewrite IH by (unfold wrap; apply Z.mod_pos_bound; lia).
      destruct (first_final M l) as [j|]; cbn [fmap option_fmap option_map].
      * f_equal. unfold Z.sub. rewrite wrap_wrap_add. f_equal. lia.
      * f_equal. unfold Z.sub. rewrite wrap_wrap_add. f_equal.
        unfold size. simpl length. lia.
Qed.

Lemma whole_string_loop_take s k q :
  (k <= length s)%nat ->
  whole_string_loop M (take k s) q =
  if (k <=? length (path M s q))%nat then nth k (q :: path M s q) DEAD_STATE
  else DEAD_STATE.
Proof.
  revert k q. induction s as [|c s IH]; intros k q Hk; simpl in *.
  - assert (k = 0%nat) as -> by lia. reflexivity.
  - destruct k as [|k]; simpl; [reflexivity|].
    destruct (_ =? _)%nat eqn:Hdead; simpl.
    + now apply Nat.eqb_eq in Hdead.
    + rewrite IH by lia. reflexivity.
Qed.

Lemma first_final_Some l j :
  first_final M l = Some j ->
  (j < length l)%nat /\ is_final M (nth j l DEAD_STATE) = true /\
  forall j', (j' < j)%nat -> is_final M (nth j' l DEAD_STATE) = false.
Proof.
  revert j. induction l as [|q l IH]; intros j; cbn [first_final]; [discriminate|].
  destruct (_is_state_final M (set_of_state q)) eqn:Hq.
  - intros [= <-]. simpl. repeat split; [lia | exact Hq | lia].
  - destruct (first_final M l) as [j0|]; [|discriminate].
    intros [= <-]. destruct (IH j0 eq_refl) as (Hlt & Hfin & Hmin).
    simpl. repeat split; [lia | exact Hfin |].
    intros [|j'] Hj'; [exact Hq | apply Hmin; lia].
Qed.

Lemma first_final_None l j :
  first_final M l = None -> (j < length l)%nat ->
  is_final M (nth j l DEAD_STATE) = false.
Proof.
  revert j. induction l as [|q l IH]; intros j; cbn [first_final length]; [lia|].
  destruct (_is_state_final M (set_of_state q)) eqn:Hq; [discriminate|].
  destruct (first_final M l); [discriminate|].
  intros _ Hj. destruct j as [|j]; [exact Hq | apply IH; [reflexivity | lia]].
Qed.

Lemma dead_on_first_byte_path s :
  if dead_on_first_byte M s then path M s START_STATE = [] /\ s <> []
  else s = [] \/ path M s START_STATE <> [].
Proof.
  destruct s as [|c s]; simpl; [now left|].
  destruct (_ =? _)%nat; [split; [reflexivity | discriminate] | right; discriminate].
Qed.

(** The result of the longest-prefix simulation, read off the path. *)
Lemma longest_prefix_result s :
  size s < 2 ^ 64 ->
  let ms := START_STATE :: path M s START_STATE in
  let c0 := if dead_on_first_byte M s then 0
            else wrap (size (path M s START_STATE) - 1) in
  _simulate_longest_prefix M s =
  match first_final M (rev ms) with
  | Some j =>
      mkFSMResult true
        (_get_final_states_from_state_set M (set_of_state (List.last ms START_STATE)))
        (mkIndecies 0 (wrap (c0 - Z.of_nat j + 1))) s
  | None =>
      mkFSMResult false
        (_get_final_states_from_state_set M (set_of_state (List.last ms START_STATE)))
        (mkIndecies 0 0) s
  end.
Proof.
  intros Hn ms c0. unfold _simulate_longest_prefix.
  rewrite longest_prefix_loop_spec by (simpl; lia).
  cbn [app]. fold ms.
  assert (Hc0 :
    (let charIndex :=
       if (length (path M s START_STATE) =? length s)%nat then 0 + size s
       else if 0 + size (path M s START_STATE) =? 0 then 0
            else 0 + size (path M s START_STATE) - 1 in
     if charIndex =? size s then wrap (charIndex - 1) else charIndex) = c0).
  { unfold c0. pose proof (path_length s START_STATE) as Hlen.
    pose proof (dead_on_first_byte_path s) as Hd.
    unfold size in *. cbv zeta.
    destruct (dead_on_first_byte M s).
    - destruct Hd as [Hp Hs]. rewrite Hp. simpl length.
      destruct s as [|c s']; [contradiction|]. simpl length.
      destruct (Nat.eqb_spec 0 (S (length s'))) as [|_]; [lia|]. simpl.
      destruct (Z.eqb_spec 0 (Z.pos (Pos.of_succ_nat (length s')))); [lia | reflexivity].
    - destruct (Nat.eqb_spec (length (path M s START_STATE)) (length s)) as [He|Hne].
      + rewrite Z.add_0_l, Z.eqb_refl, He. reflexivity.
      + destruct Hd as [-> | Hp]; [simpl in Hne; contradiction|].
        destruct (path M s START_STATE) as [|q0 p0] eqn:Hpath; [contradiction|].
        simpl length in *.
        destruct (Z.eqb_spec (0 + Z.of_nat (S (length p0))) 0) as [|_]; [lia|].
        destruct (Z.eqb_spec (0 + Z.of_nat (S (length p0)) - 1) (Z.of_nat (length s))) as [|_];
          [lia|].
        rewrite wrap_small by lia. lia. }
  cbv zeta in Hc0. rewrite Hc0.
  unfold _check_accepted_longest_prefix.
  assert (Hr : 0 <= c0 < 2 ^ 64).
  { unfold c0. destruct (dead_on_first_byte M s); [lia|].
    unfold wrap. apply Z.mod_pos_bound. lia. }
  rewrite check_loop_spec by exact Hr.
  destruct (first_final M (rev ms)) as [j|]; [|reflexivity].
  f_equal. f_equal. unfold Z.sub. rewrite wrap_wrap_add. reflexivity.
Qed.

(** In longest-prefix mode the reported span starts at 0 and never ends
    after the end of the input. *)
Theorem longest_prefix_span_in_bounds s :
  size s < 2 ^ 64 ->
  let r := _simulate_longest_prefix M s in
  start (indecies r) = 0 /\ 0 <= end_ (indecies r) <= size s.
Proof.
  intros Hn r. unfold r. rewrite longest_prefix_result by exact Hn.
  pose proof (path_length s START_STATE) as Hlen.
  pose proof (dead_on_first_byte_path s) as Hd.
  destruct (first_final M (rev (START_STATE :: path M s START_STATE))) as [j|] eqn:Hff;
    cbn [indecies start end_]; [|unfold size; lia].
  split; [reflexivity|].
  apply first_final_Some in Hff as (Hj & _ & _).
  rewrite length_rev in Hj. cbn [length] in Hj. unfold size in *.
  destruct (dead_on_first_byte M s).
  - destruct Hd as [Hp Hs]. rewrite Hp in Hj. simpl in Hj.
    assert (j = 0%nat) as -> by lia.
    destruct s as [|c s]; [contradiction|]. simpl length in *.
    rewrite wrap_small by lia. lia.
  - replace (wrap (Z.of_nat (length (path M s START_STATE)) - 1) - Z.of_nat j + 1)
      with (wrap (Z.of_nat (length (path M s START_STATE)) - 1) + (1 - Z.of_nat j))
      by lia.
    rewrite wrap_wrap_add. rewrite wrap_small by lia. lia.
Qed.

Hypothesis dead_not_final : contains (m_FinalStates M) DEAD_STATE = false.

Lemma is_final_dead : is_final M DEAD_STATE = false.
Proof. unfold is_final, _is_state_final. simpl. now rewrite dead_not_final. Qed.

Lemma accepts_take s k :
  (k <= length s)%nat ->
  accepts M (take k s) =
  (k <=? length (path M s START_STATE))%nat &&
  is_final M (nth k (START_STATE :: path M s START_STATE) DEAD_STATE).
Proof.
  intros Hk. unfold accepts, _simulate_whole_string. cbn [accepted].
  rewrite whole_string_loop_take by exact Hk.
  destruct (_ <=? _)%nat; [reflexivity | apply is_final_dead].
Qed.

Lemma accepted_prefix_path s k :
  accepted_prefix M s k <->
  (k <= length (path M s START_STATE))%nat /\
  is_final M (nth k (START_STATE :: path M s START_STATE) DEAD_STATE) = true.
Proof.
  pose proof (path_length s START_STATE) as Hlen.
  unfold accepted_prefix. split.
  - intros [Hk Hacc]. rewrite accepts_take in Hacc by exact Hk.
    apply andb_prop in Hacc as [Hle Hfin]. apply Nat.leb_le in Hle. now split.
  - intros [Hk Hfin]. split; [lia|]. rewrite accepts_take by lia.
    apply andb_true_intro. split; [now apply Nat.leb_le | exact Hfin].
Qed.

(** The last final state of the path gives the longest accepted prefix. *)
Lemma first_final_rev_longest s j :
  first_final M (rev (START_STATE :: path M s START_STATE)) = Some j ->
  (j <= length (path M s START_STATE))%nat /\
  longest_accepted_prefix M s (length (path M s START_STATE) - j).
Proof.
  set (ms := START_STATE :: path M s START_STATE).
  intros Hff. apply first_final_Some in Hff as (Hlt & Hfin & Hmin).
  rewrite length_rev in Hlt.
  assert (Hms : length ms = S (length (path M s START_STATE))) by reflexivity.
  split; [lia|]. split.
  - apply accepted_prefix_path. split; [lia|]. fold ms.
    rewrite rev_nth in Hfin by lia.
    replace (length ms - S j)%nat with (length (path M s START_STATE) - j)%nat in Hfin
      by lia.
    exact Hfin.
  - intros k' Hk'. apply accepted_prefix_path in Hk' as [Hle Hk']. fold ms in Hk'.
    destruct (Nat.le_gt_cases k' (length (path M s START_STATE) - j)) as [|Hgt];
      [assumption|].
    specialize (Hmin (length (path M s START_STATE) - k')%nat ltac:(lia)).
    rewrite rev_nth in Hmin by lia.
    replace (length ms - S (length (path M s START_STATE) - k'))%nat with k' in Hmin
      by lia.
    congruence.
Qed.

Lemma first_final_rev_none s k :
  first_final M (rev (START_STATE :: path M s START_STATE)) = None ->
  ~ accepted_prefix M s k.
Proof.
  set (ms := START_STATE :: path M s START_STATE).
  intros Hff Hk. apply accepted_prefix_path in Hk as [Hle Hk]. fold ms in Hk.
  assert (Hms : length ms = S (length (path M s START_STATE))) by reflexivity.
  pose proof (first_final_None (rev ms) (length (path M s START_STATE) - k) Hff) as Hn.
  rewrite length_rev in Hn. specialize (Hn ltac:(lia)).
  rewrite rev_nth in Hn by lia.
  replace (length ms - S (length (path M s START_STATE) - k))%nat with k in Hn by lia.
  congruence.
Qed.

Lemma span_end (m j n : nat) :
  (j <= m)%nat -> (m <= n)%nat -> Z.of_nat n < 2 ^ 64 ->
  wrap (wrap (Z.of_nat m - 1) - Z.of_nat j + 1) = Z.of_nat (m - j).
Proof.
  intros Hj Hm Hn.
  replace (wrap (Z.of_nat m - 1) - Z.of_nat j + 1)
    with (wrap (Z.of_nat m - 1) + (1 - Z.of_nat j)) by lia.
  rewrite wrap_wrap_add. rewrite wrap_small by lia. lia.
Qed.

Lemma path_not_dead s q : Forall (fun x => x <> DEAD_STATE) (path M s q).
Proof.
  revert q. induction s as [|c s IH]; intros q; simpl; [constructor|].
  destruct (Nat.eqb_spec (state_of_set (m_TransitionFunc M q c)) DEAD_STATE);
    [constructor|]. constructor; [assumption | apply IH].
Qed.

Lemma accepts_path_full s :
  accepts M s = true -> length (path M s START_STATE) = length s.
Proof.
  intros Hacc.
  assert (Hp : accepted_prefix M s (length s)).
  { split; [lia|]. now rewrite firstn_all. }
  apply accepted_prefix_path in Hp as [Hle _].
  pose proof (path_length s START_STATE). lia.
Qed.

(** When the first byte does not lead to the dead state (or the input is
    empty) the longest-prefix simulation accepts exactly when some prefix is
    accepted, and then reports the span of the longest accepted prefix;
    otherwise it reports the empty span. *)
Theorem longest_prefix_span s :
  size s < 2 ^ 64 ->
  dead_on_first_byte M s = false ->
  let r := _simulate_longest_prefix M s in
  (accepted r = true <-> exists k, accepted_prefix M s k) /\
  (accepted r = true ->
   exists k, longest_accepted_prefix M s k /\ indecies r = mkIndecies 0 (Z.of_nat k)) /\
  (accepted r = false -> indecies r = mkIndecies 0 0).
Proof.
  intros Hn Hd r. unfold r. rewrite longest_prefix_result by exact Hn.
  rewrite Hd. pose proof (path_length s START_STATE) as Hlen. unfold size in *.
  destruct (first_final M (rev (START_STATE :: path M s START_STATE))) as [j|] eqn:Hff;
    cbn [accepted indecies].
  - destruct (first_final_rev_longest s j Hff) as [Hj Hlong].
    rewrite (span_end _ _ (length s)) by assumption. repeat split.
    + intros _. eexists. apply Hlong.
    + intros _. eexists. split; [exact Hlong | reflexivity].
    + discriminate.
  - repeat split.
    + discriminate.
    + intros [k Hk]. now apply first_final_rev_none in Hk.
    + discriminate.
Qed.

(** A string accepted in whole-string mode is accepted in longest-prefix
    mode, with the whole string as its span. *)
Theorem whole_string_accepted_is_longest_prefix s :
  size s < 2 ^ 64 ->
  accepted (_simulate_whole_string M s) = true ->
  let r := _simulate_longest_prefix M s in
  accepted r = true /\ indecies r = mkIndecies 0 (size s).
Proof.
  intros Hn Hacc r. fold (accepts M s) in Hacc.
  pose proof (accepts_path_full s Hacc) as Hfull.
  assert (Hd : dead_on_first_byte M s = false).
  { pose proof (dead_on_first_byte_path s) as Hd.
    destruct (dead_on_first_byte M s); [|reflexivity].
    destruct Hd as [Hp Hs]. rewrite Hp in Hfull.
    destruct s; [contradiction | discriminate]. }
  assert (Hp : accepted_prefix M s (length s)).
  { split; [lia|]. now rewrite firstn_all. }
  unfold r. rewrite longest_prefix_result by exact Hn. rewrite Hd.
  destruct (first_final M (rev (START_STATE :: path M s START_STATE))) as [j|] eqn:Hff.
  - destruct (first_final_rev_longest s j Hff) as [Hj [_ Hmax]].
    specialize (Hmax _ Hp). cbn [accepted indecies]. split; [reflexivity|].
    unfold size in *. rewrite (span_end _ _ (length s)) by lia.
    f_equal. lia.
  - now apply first_final_rev_none with (k := length s) in Hff.
Qed.

(** In whole-string mode, once a prefix of the input has led to the dead
    state the input is rejected, whatever follows the prefix. *)
Theorem whole_string_rejects_after_dead_prefix s k :
  (k <= length s)%nat ->
  whole_string_loop M (take k s) START_STATE = DEAD_STATE ->
  accepted (_simulate_whole_string M s) = false.
Proof.
  intros Hk Hdead. fold (accepts M s).
  destruct (accepts M s) eqn:Hacc; [|reflexivity].
  pose proof (accepts_path_full s Hacc) as Hfull.
  rewrite whole_string_loop_take in Hdead by exact Hk.
  destruct (Nat.leb_spec k (length (path M s START_STATE))) as [_|]; [|lia].
  pose proof (path_not_dead s START_STATE) as Hnd.
  destruct k as [|k]; [discriminate Hdead|].
  cbn [nth] in Hdead.
  rewrite Forall_forall in Hnd. exfalso. apply (Hnd DEAD_STATE); [|reflexivity].
  rewrite <- Hdead. apply nth_In. lia.
Qed.

(** When the first byte leads to the dead state the simulation accepts
    exactly when the start state is final; the longest accepted prefix is
    then the empty one and the reported span is [0, 1). *)
Theorem longest_prefix_span_dead_first s :
  size s < 2 ^ 64 ->
  dead_on_first_byte M s = true ->
  let r := _simulate_longest_prefix M s in
  (accepted r = true <-> is_final M START_STATE = true) /\
  (accepted r = true ->
   longest_accepted_prefix M s 0 /\ indecies r = mkIndecies 0 1) /\
  (accepted r = false -> indecies r = mkIndecies 0 0).
Proof.
  intros Hn Hd r. unfold r. rewrite longest_prefix_result by exact Hn.
  rewrite Hd. pose proof (dead_on_first_byte_path s) as Hp. rewrite Hd in Hp.
  destruct Hp as [Hp Hs].
  pose proof (first_final_rev_longest s) as Hlong.
  rewrite Hp in *. cbn [rev app first_final] in *. fold (is_final M START_STATE) in *.
  destruct (is_final M START_STATE) eqn:Hfin; cbn [accepted indecies fmap option_fmap option_map].
  - destruct (Hlong 0%nat eq_refl) as [_ H0]. simpl in H0.
    split; [tauto|]. split; [|discriminate].
    intros _. split; [exact H0 | reflexivity].
  - split; [split; discriminate|]. split; [discriminate | reflexivity].
Qed.
End LongestPrefixSpan.

Section LongestPrefixExamples.
Import FSM Examples.

(** On [abx] the machine for [a] and [abc] stops at [x]; the longest
    accepted prefix is [a]. *)
Lemma longest_prefix_span_witness :
  let s := ["a"; "b"; "x"]%char in
  contains (m_FinalStates abc_machine) DEAD_STATE = false /\
  size s < 2 ^ 64 /\
  dead_on_first_byte abc_machine s = false /\
  let r := _simulate_longest_prefix abc_machine s in
  accepted r = true /\
  indecies r = mkIndecies 0 1 /\
  (accepted r = true <-> exists k, accepted_prefix abc_machine s k) /\
  (accepted r = true ->
   exists k, longest_accepted_prefix abc_machine s k /\
             indecies r = mkIndecies 0 (Z.of_nat k)) /\
  (accepted r = false -> indecies r = mkIndecies 0 0).
Proof.
  intros s. split; [reflexivity|]. split; [reflexivity|]. split; [reflexivity|].
  intros r. split; [reflexivity|]. split; [reflexivity|].
  apply (longest_prefix_span abc_machine eq_refl s); reflexivity.
Defined.

(** On [b] the machine without transitions dies on the first byte. *)
Lemma longest_prefix_span_dead_first_witness :
  let s := ["b"]%char in
  contains (m_FinalStates dead_end_machine) DEAD_STATE = false /\
  size s < 2 ^ 64 /\
  dead_on_first_byte dead_end_machine s = true /\
  let r := _simulate_longest_prefix dead_end_machine s in
  (accepted r = true <-> is_final dead_end_machine START_STATE = true) /\
  (accepted r = true ->
   longest_accepted_prefix dead_end_machine s 0 /\ indecies r = mkIndecies 0 1) /\
  (accepted r = false -> indecies r = mkIndecies 0 0).
Proof.
  intros s. split; [reflexivity|]. split; [reflexivity|]. split; [reflexivity|].
  apply (longest_prefix_span_dead_first dead_end_machine eq_refl s); reflexivity.
Defined.

Lemma longest_prefix_span_in_bounds_witness :
  let s := ["a"; "b"; "x"]%char in
  size s < 2 ^ 64 /\
  let r := _simulate_longest_prefix abc_machine s in
  start (indecies r) = 0 /\ 0 <= end_ (indecies r) <= size s.
Proof.
  intros s. split; [reflexivity|].
  apply (longest_prefix_span_in_bounds abc_machine s). reflexivity.
Defined.

Lemma whole_string_accepted_is_longest_prefix_witness :
  let s := ["a"; "b"; "c"]%char in
  contains (m_FinalStates abc_machine) DEAD_STATE = false /\
  size s < 2 ^ 64 /\
  accepted (_simulate_whole_string abc_machine s) = true /\
  let r := _simulate_longest_prefix abc_machine s in
  accepted r = true /\ indecies r = mkIndecies 0 (size s).
Proof.
  intros s. split; [reflexivity|]. split; [reflexivity|]. split; [reflexivity|].
  apply (whole_string_accepted_is_longest_prefix abc_machine eq_refl s); reflexivity.
Defined.

(** [ax] leads to the dead state, so [axbc] is rejected. *)
Lemma whole_string_rejects_after_dead_prefix_witness :
  let s := ["a"; "x"; "b"; "c"]%char in
  contains (m_FinalStates abc_machine) DEAD_STATE = false /\
  (2 <= length s)%nat /\
  whole_string_loop abc_machine (take 2 s) START_STATE = DEAD_STATE /\
  accepted (_simulate_whole_string abc_machine s) = false.
Proof.
  intros s. split; [reflexivity|]. split; [simpl; lia|]. split; [reflexivity|].
  apply (whole_string_rejects_after_dead_prefix abc_machine eq_refl s 2);
    [simpl; lia | reflexivity].
Defined.

End LongestPrefixExamples.

Section LongestSubstring.
Import FSM FSMNotions.
Context (M : FiniteStateMachine).

Lemma substring_loop_spec rest ci q ms :
  0 <= ci -> ci + size rest < 2 ^ 64 ->
  substring_loop M rest ci q ms =
  ((if (length (path M rest q) =? length rest)%nat then ci + size rest
    else wrap (ci + size (path M rest q) - 1)),
   ms ++ path M rest q).
Proof.
  revert ci q ms. induction rest as [|c rest IH]; intros ci q ms Hci Hn; simpl.
  - unfold size. simpl. rewrite Z.add_0_r, app_nil_r. reflexivity.
  - unfold size in *. simpl length in Hn.
    destruct (_ =? _)%nat eqn:Hdead; simpl.
    + rewrite Z.add_0_r, app_nil_r. reflexivity.
    + rewrite wrap_small by lia.
      rewrite IH by lia. rewrite <- app_assoc. simpl.
      set (a := length (path M rest (state_of_set (m_TransitionFunc M q c)))).
      replace (ci + 1 + Z.of_nat a) with (ci + Z.of_nat (S a)) by lia.
      replace (ci + 1 + Z.of_nat (length rest))
        with (ci + Z.of_nat (S (length rest))) by lia.
      reflexivity.
Qed.

(** One call of [_check_accepted_substring] at a position of the input. *)
Lemma check_accepted_substring_spec s i :
  size s < 2 ^ 64 - 1 -> (i < length s)%nat ->
  exists ci,
    _check_accepted_substring M s [START_STATE] (Z.of_nat i) (Z.of_nat i) =
      Ret (accepted_from_b M s i,
           START_STATE :: path M (drop i s) START_STATE, ci) /\
    wrap (ci + 1) = Z.of_nat (i + run M s i).
Proof.
  intros Hn Hi. unfold _check_accepted_substring, run, accepted_from_b.
  rewrite Z.eqb_refl. cbn [negb]. rewrite Nat2Z.id.
  pose proof (path_length M (drop i s) START_STATE) as Hlen.
  assert (Hd : length (drop i s) = (length s - i)%nat) by apply length_drop.
  unfold size in *.
  rewrite substring_loop_spec by (unfold size; lia).
  cbn [app]. set (p := path M (drop i s) START_STATE) in *.
  unfold _check_accepted_longest_prefix.
  rewrite check_loop_spec
    by (unfold wrap; apply Z.mod_pos_bound; lia).
  unfold size. rewrite Hd.
  eexists. split.
  - destruct (first_final M (rev (START_STATE :: p))) as [j|]; reflexivity.
  - destruct (Nat.eqb_spec (length p) (length s - i)) as [He|Hne].
    + replace (Z.of_nat i + Z.of_nat (length s - i)) with (Z.of_nat (length s)) by lia.
      rewrite Z.eqb_refl. unfold Z.sub. rewrite wrap_wrap_add.
      rewrite wrap_small by lia. lia.
    + destruct (Z.eqb_spec (wrap (Z.of_nat i + Z.of_nat (length p) - 1))
                  (Z.of_nat (length s))) as [He|_].
      * exfalso. destruct (Z.eq_dec (Z.of_nat i + Z.of_nat (length p)) 0) as [H0|H0].
        -- rewrite H0 in He. change (wrap (0 - 1)) with (2 ^ 64 - 1) in He. lia.
        -- rewrite wrap_small in He by lia. lia.
      * unfold Z.sub. rewrite wrap_wrap_add. rewrite wrap_small by lia. lia.
Qed.


Lemma run_le s j : (j <= length s)%nat -> (j + run M s j <= length s)%nat.
Proof.
  intros Hj. unfold run. pose proof (path_length M (drop j s) START_STATE) as H.
  rewrite length_drop in H. lia.
Qed.

Lemma longest_substring_loop_spec s n :
  size s < 2 ^ 64 - 1 ->
  forall i sets, (i + n = length s)%nat ->
  exists ms' idxs,
    longest_substring_loop M s (drop i s) (Z.of_nat i) [START_STATE] sets =
      Ret (ms', sets ++ map (recorded M s) idxs) /\
    ms' <> [] /\
    StronglySorted lt idxs /\
    Forall (fun j => (i <= j < length s)%nat /\ accepted_from_b M s j = true) idxs /\
    forall j, (i <= j < length s)%nat -> accepted_from_b M s j = true ->
      In j idxs \/
      exists j0, In j0 idxs /\ (j0 < j)%nat /\ (j0 + run M s j0 = length s)%nat.
Proof.
  intros Hn. induction n as [|n IH]; intros i sets Hi.
  - rewrite drop_ge by lia. exists [START_STATE], []. cbn [longest_substring_loop map].
    rewrite app_nil_r. split; [reflexivity|]. split; [discriminate|].
    split; [constructor|]. split; [constructor|]. intros; lia.
  - destruct (lookup_lt_is_Some_2 s i ltac:(lia)) as [c Hc].
    rewrite (drop_S _ _ _ Hc). cbn [longest_substring_loop].
    destruct (check_accepted_substring_spec s i Hn ltac:(lia)) as (ci & -> & Hci).
    cbn [mbind Res_bind bind]. rewrite Hci. fold (recorded M s i).
    pose proof (run_le s i ltac:(lia)) as Hrun.
    assert (Hsz : size (START_STATE :: path M (drop i s) START_STATE) =
                  Z.of_nat (run M s i) + 1).
    { unfold size, run. cbn [length]. lia. }
    rewrite Hsz. unfold size in *.
    rewrite (wrap_small (Z.of_nat (length s) - Z.of_nat i)) by lia.
    destruct (accepted_from_b M s i) eqn:Hacc; cbn [andb].
    + destruct (Z.ltb_spec (Z.of_nat (length s) - Z.of_nat i) (Z.of_nat (run M s i) + 1))
        as [Hbrk|Hcont].
      * exists (START_STATE :: path M (drop i s) START_STATE), [i].
        split; [reflexivity|]. split; [discriminate|].
        split; [repeat constructor|]. split; [constructor; [split; [lia | exact Hacc] | constructor]|].
        intros j Hj Hjacc. destruct (Nat.eq_dec j i) as [->|Hne]; [left; now left|].
        right. exists i. split; [now left|]. split; lia.
      * assert (Hres : resize 1 0%nat (START_STATE :: path M (drop i s) START_STATE) =
                       [START_STATE]).
        { unfold resize. cbn [take length Nat.sub replicate]. now rewrite take_0. }
        rewrite Hres. rewrite wrap_small by lia.
        replace (Z.of_nat i + 1) with (Z.of_nat (S i)) by lia.
        destruct (IH (S i) (sets ++ [recorded M s i]) ltac:(lia))
          as (ms' & idxs & -> & Hms & Hsort & Hall & Hcov).
        exists ms', (i :: idxs). rewrite <- app_assoc. split; [reflexivity|].
        split; [exact Hms|]. split.
        { constructor; [exact Hsort|]. eapply Forall_impl; [|exact Hall].
          cbv beta. intros; lia. }
        split.
        { constructor; [split; [lia | exact Hacc]|].
          eapply Forall_impl; [|exact Hall]. cbv beta. intros j [? ?]. split; [lia|assumption]. }
        intros j Hj Hjacc. destruct (Nat.eq_dec j i) as [->|Hne]; [left; now left|].
        destruct (Hcov j ltac:(lia) Hjacc) as [Hin | (j0 & Hin & Hlt & Hfull)].
        -- left. now right.
        -- right. exists j0. split; [now right|]. split; assumption.
    + assert (Hres : resize 1 0%nat (START_STATE :: path M (drop i s) START_STATE) =
                     [START_STATE]).
      { unfold resize. cbn [take length Nat.sub replicate]. now rewrite take_0. }
      rewrite Hres. rewrite wrap_small by lia.
      replace (Z.of_nat i + 1) with (Z.of_nat (S i)) by lia.
      destruct (IH (S i) sets ltac:(lia)) as (ms' & idxs & -> & Hms & Hsort & Hall & Hcov).
      exists ms', idxs. split; [reflexivity|]. split; [exact Hms|].
      split; [exact Hsort|]. split.
      { eapply Forall_impl; [|exact Hall]. cbv beta. intros j [? ?]. split; [lia|assumption]. }
      intros j Hj Hjacc. destruct (Nat.eq_dec j i) as [->|Hne]; [congruence|].
      apply Hcov; [lia | exact Hjacc].
Qed.

Lemma choose_longest_spec rv longest sz :
  (Forall (fun d => sub_size d <= sz) rv /\ choose_longest rv longest sz = longest) \/
  exists r1 e r2,
    rv = r1 ++ e :: r2 /\ choose_longest rv longest sz = Some e /\ sz < sub_size e /\
    Forall (fun d => sub_size d < sub_size e) r1 /\
    Forall (fun d => sub_size d <= sub_size e) r2.
Proof.
  revert longest sz. induction rv as [|data rv IH]; intros longest sz; cbn [choose_longest].
  - left. split; [constructor | reflexivity].
  - destruct (Z.ltb_spec sz (sub_size data)) as [Hlt|Hge].
    + right. destruct (IH (Some data) (sub_size data))
        as [[Hall ->] | (r1 & e & r2 & -> & -> & Hsz & H1 & H2)].
      * exists [], data, rv. repeat split; [assumption | constructor | assumption].
      * exists (data :: r1), e, r2. repeat split; [lia | | assumption].
        constructor; [lia | assumption].
    + destruct (IH longest sz) as [[Hall ->] | (r1 & e & r2 & -> & -> & Hsz & H1 & H2)].
      * left. split; [constructor; assumption | reflexivity].
      * right. exists (data :: r1), e, r2. repeat split; [lia | | assumption].
        constructor; [lia | assumption].
Qed.


Lemma sorted_middle (l1 l2 : list nat) (j : nat) :
  StronglySorted lt (l1 ++ j :: l2) ->
  Forall (fun x => (x < j)%nat) l1 /\ Forall (fun x => (j < x)%nat) l2.
Proof.
  induction l1 as [|a l1 IH]; cbn [app]; intros Hs.
  - apply StronglySorted_inv in Hs as [_ Hall]. split; [constructor | exact Hall].
  - apply StronglySorted_inv in Hs as [Hs Hall].
    destruct (IH Hs) as [H1 H2]. split; [|exact H2].
    constructor; [|exact H1].
    rewrite Forall_forall in Hall. apply Hall. apply in_or_app. right. now left.
Qed.

Hypothesis dead_not_final : contains (m_FinalStates M) DEAD_STATE = false.

Lemma accepted_from_b_spec s j : accepted_from_b M s j = true <-> accepted_from M s j.
Proof.
  unfold accepted_from_b, accepted_from.
  destruct (first_final M (rev (START_STATE :: path M (drop j s) START_STATE)))
    as [j0|] eqn:Hff.
  - split; [intros _ | reflexivity].
    destruct (first_final_rev_longest M dead_not_final _ _ Hff) as [_ [Hacc _]].
    eexists. exact Hacc.
  - split; [discriminate|]. intros [k Hk].
    now apply (first_final_rev_none M dead_not_final _ k) in Hff.
Qed.

(** In longest-substring mode the simulation returns; it accepts exactly
    when some prefix of the input from one of its positions is accepted.
    The span it then reports starts at such a position and runs until the
    machine reaches the dead state or the end of the input: it is the
    longest such run, the last one among equals, and it is not cut back to
    the last final state. *)
Theorem longest_substring_span s :
  size s < 2 ^ 64 - 1 ->
  exists r,
    _simulate_longest_substring M s = Ret r /\
    (accepted r = true <-> exists i, (i < length s)%nat /\ accepted_from M s i) /\
    (accepted r = true ->
     exists i,
       (i < length s)%nat /\ accepted_from M s i /\
       indecies r = mkIndecies (Z.of_nat i) (Z.of_nat (i + run M s i)) /\
       (i + run M s i <= length s)%nat /\
       (forall i', (i' < length s)%nat -> accepted_from M s i' ->
                   (run M s i' <= run M s i)%nat) /\
       (forall i', (i < i' < length s)%nat -> accepted_from M s i' ->
                   (run M s i' < run M s i)%nat)) /\
    (accepted r = false -> indecies r = mkIndecies 0 0).
Proof.
  intros Hn. unfold _simulate_longest_substring.
  destruct (longest_substring_loop_spec s (length s) Hn 0%nat [] eq_refl)
    as (ms' & idxs & Hloop & Hms & Hsort & Hall & Hcov).
  rewrite drop_0 in Hloop. change (Z.of_nat 0) with 0 in Hloop.
  rewrite Hloop. cbn [mbind Res_bind bind app].
  unfold size at 1. rewrite length_map.
  destruct (choose_longest_spec (rev (map (recorded M s) idxs)) None 0)
    as [[Hle Hch] | (r1 & e & r2 & Hrev & Hch & _ & H1 & H2)].
  - (* nothing was recorded *)
    assert (idxs = []) as ->.
    { destruct idxs as [|j idxs]; [reflexivity|]. exfalso.
      rewrite Forall_forall in Hle.
      specialize (Hle (recorded M s j)). unfold sub_size, size, recorded in Hle.
      cbn [sub_matchedStates length] in Hle.
      assert (In (recorded M s j) (rev (map (recorded M s) (j :: idxs)))) as Hin.
      { apply in_rev. rewrite rev_involutive. now left. }
      specialize (Hle Hin). lia. }
    cbn [length Z.of_nat Z.eqb negb].
    eexists. split; [reflexivity|]. cbn [accepted indecies].
    split; [split; [discriminate|] | split; [discriminate | reflexivity]].
    intros (i & Hi & Hacc). apply accepted_from_b_spec in Hacc.
    destruct (Hcov i ltac:(lia) Hacc) as [[] | (j0 & [] & _)].
  - (* the recorded entries are those of [l1 ++ j :: l2] *)
    apply (f_equal (@rev _)) in Hrev. rewrite rev_involutive in Hrev.
    rewrite rev_app_distr in Hrev. cbn [rev] in Hrev.
    apply map_eq_app in Hrev as (la & l2 & -> & Hla & Hl2).
    apply map_eq_app in Hla as (l1 & lj & -> & Hl1 & Hlj).
    destruct lj as [|j [|? ?]]; try discriminate Hlj.
    cbn [map] in Hlj. injection Hlj as <-.
    rewrite <- app_assoc in *. cbn [app] in *.
    apply sorted_middle in Hsort as [Hlt1 Hlt2].
    assert (Hj : (j < length s)%nat /\ accepted_from_b M s j = true).
    { rewrite Forall_forall in Hall.
      destruct (Hall j ltac:(apply in_or_app; right; now left)) as [? ?].
      split; [lia | assumption]. }
    destruct Hj as [Hj Hjacc].
    assert (Hsz1 : forall x, In x l1 -> (run M s x <= run M s j)%nat).
    { intros x Hx. apply Forall_rev in H2. rewrite <- Hl1 in H2.
      rewrite Forall_forall in H2. specialize (H2 (recorded M s x) (in_map _ _ _ Hx)).
      unfold sub_size, size, recorded, run in *. cbn [sub_matchedStates length] in H2. lia. }
    assert (Hsz2 : forall x, In x l2 -> (run M s x < run M s j)%nat).
    { intros x Hx. apply Forall_rev in H1. rewrite <- Hl2 in H1.
      rewrite Forall_forall in H1. specialize (H1 (recorded M s x) (in_map _ _ _ Hx)).
      unfold sub_size, size, recorded, run in *. cbn [sub_matchedStates length] in H1. lia. }
    assert (Hmax : forall i', (i' < length s)%nat -> accepted_from M s i' ->
              (run M s i' <= run M s j)%nat /\
              ((j < i')%nat -> (run M s i' < run M s j)%nat)).
    { intros i' Hi' Hacc'. apply accepted_from_b_spec in Hacc'.
      assert (Hin : forall x, In x (l1 ++ j :: l2) ->
                (run M s x <= run M s j)%nat /\
                ((j < x)%nat -> (run M s x < run M s j)%nat)).
      { intros x Hx. apply in_app_or in Hx as [Hx | [<- | Hx]].
        - split; [now apply Hsz1|]. rewrite Forall_forall in Hlt1.
          specialize (Hlt1 x Hx). lia.
        - split; lia.
        - specialize (Hsz2 x Hx). split; lia. }
      destruct (Hcov i' ltac:(lia) Hacc') as [Hx | (j0 & Hx & Hlt & Hfull)].
      - now apply Hin.
      - destruct (Hin j0 Hx) as [Hle0 _].
        pose proof (run_le s i' ltac:(lia)). split; lia. }
    rewrite Hch. rewrite length_app. cbn [length].
    destruct (Z.eqb_spec (Z.of_nat (length l1 + S (length l2))) 0) as [|_]; [lia|].
    cbn [negb].
    destruct (back ms') as [finalState|] eqn:Hback.
    2:{ exfalso. apply Hms. unfold back in Hback.
        destruct ms' as [|a ms'] using rev_ind; [reflexivity|].
        rewrite last_snoc in Hback. discriminate. }
    eexists. split; [reflexivity|]. cbn [accepted indecies recorded sub_indecies start end_].
    split; [split; [intros _ | reflexivity] | split; [intros _ | discriminate]].
    + exists j. split; [exact Hj | now apply accepted_from_b_spec].
    + exists j. split; [exact Hj|]. split; [now apply accepted_from_b_spec|].
      split; [reflexivity|]. split; [apply run_le; lia|].
      split; intros i' Hi' Hacc'.
      * now apply Hmax.
      * apply Hmax; [lia | assumption | lia].
Qed.

End LongestSubstring.

Section LongestSubstringExample.
Import FSM FSMNotions Examples.

(** In [xabx] the machine for [a] and [abc] reads [ab] from position 1 and
    then reaches the dead state: the reported span is that of [ab]. *)
Lemma longest_substring_span_witness :
  let s := ["x"; "a"; "b"; "x"]%char in
  contains (m_FinalStates abc_machine) DEAD_STATE = false /\
  size s < 2 ^ 64 - 1 /\
  _simulate_longest_substring abc_machine s =
    Ret (mkFSMResult true [START_STATE] (mkIndecies 1 3) s) /\
  exists r,
    _simulate_longest_substring abc_machine s = Ret r /\
    (accepted r = true <-> exists i, (i < length s)%nat /\ accepted_from abc_machine s i) /\
    (accepted r = true ->
     exists i,
       (i < length s)%nat /\ accepted_from abc_machine s i /\
       indecies r = mkIndecies (Z.of_nat i) (Z.of_nat (i + run abc_machine s i)) /\
       (i + run abc_machine s i <= length s)%nat /\
       (forall i', (i' < length s)%nat -> accepted_from abc_machine s i' ->
                   (run abc_machine s i' <= run abc_machine s i)%nat) /\
       (forall i', (i < i' < length s)%nat -> accepted_from abc_machine s i' ->
                   (run abc_machine s i' < run abc_machine s i)%nat)) /\
    (accepted r = false -> indecies r = mkIndecies 0 0).
Proof.
  intros s. split; [reflexivity|]. split; [reflexivity|]. split; [reflexivity|].
  apply (longest_substring_span abc_machine eq_refl s); reflexivity.
Defined.

End LongestSubstringExample.

Section LexerProps.
Import FSM Lexer LexerNotions.
Context {TokenT : Type} (TokenT_default : TokenT) (isspace : ascii -> bool).

Local Abbreviation LA := (@LexicalAnalyzer TokenT).

(** One turn of the loop of [_remove_whitespace_prefix]. *)
Lemma remove_whitespace_loop_eq fuel flags (la : LA) :
  remove_whitespace_loop isspace fuel flags la =
  match sv_buffer (m_SourceCode la) !! sv_offset (m_SourceCode la) with
  | None => (Raise Undefined, la)
  | Some c =>
      if is_whitespace isspace c then
        match sv_size (m_SourceCode la) with
        | O => (Raise Undefined, la)
        | S n =>
            let v := mkView (sv_buffer (m_SourceCode la))
                       (sv_offset (m_SourceCode la) + 1) n in
            let la1 := set_SourceCode v la in
            let la2 :=
              if Ascii.eqb c "010" && negb (Z.land flags LAF_ALLOW_NEW_LINE =? 0)
              then set_Col 0 (set_Line (wrap (m_Line la1 + 1)) la1)
              else set_Col (wrap (m_Col la1 + 1)) la1 in
            match fuel with
            | O => (Raise OutOfFuel, la2)
            | S fuel' => remove_whitespace_loop isspace fuel' flags la2
            end
        end
      else (Ret tt, la)
  end.
Proof.
  destruct fuel; cbn [remove_whitespace_loop];
    unfold mbind, StateRes_bind, st_bind, gets, lift, sv_deref_data, mret,
      StateRes_ret, st_ret, modify, throw, remove_prefix, is_whitespace;
    destruct (sv_buffer (m_SourceCode la) !! sv_offset (m_SourceCode la)) as [c|];
    try reflexivity;
    destruct (isspace c && negb (Ascii.eqb c zero)); cbn [negb]; try reflexivity;
    destruct (sv_size (m_SourceCode la)) as [|n] eqn:Hsz; try reflexivity;
    (destruct (Z.ltb_spec (Z.of_nat (S n)) 1) as [|_]; [lia|]);
    change (Z.to_nat 1) with 1%nat; cbn [Nat.sub]; rewrite Nat.sub_0_r;
    destruct (Ascii.eqb c "010" && negb (Z.land flags LAF_ALLOW_NEW_LINE =? 0));
    reflexivity.
Qed.


Lemma sv_bytes_cons buf off n c :
  buf !! off = Some c ->
  sv_bytes (mkView buf off (S n)) = c :: sv_bytes (mkView buf (off + 1) n).
Proof.
  intros Hc. unfold sv_bytes. cbn [sv_size sv_offset sv_buffer].
  rewrite (drop_S _ _ _ Hc). cbn [take]. now rewrite Nat.add_1_r.
Qed.

Lemma sv_bytes_head v c :
  (sv_bytes v : list ascii) !! 0%nat = Some c -> sv_buffer v !! sv_offset v = Some c.
Proof.
  unfold sv_bytes. destruct (sv_size v) as [|n]; [rewrite take_0; discriminate|].
  rewrite lookup_take_lt by lia. rewrite lookup_drop. now rewrite Nat.add_0_r.
Qed.

Lemma skipped_refl (la : LA) : skipped isspace la la [].
Proof.
  unfold skipped, same_machine. cbn [app length].
  split; [now repeat split|]. split; [reflexivity|]. split; [reflexivity|].
  split; [reflexivity | constructor].
Qed.

(** What the loop of [_remove_whitespace_prefix] does: it ends without
    running out of fuel, and it has nothing left to do where it ends. *)
Lemma remove_whitespace_loop_spec flags fuel :
  forall la : LA,
  (sv_size (m_SourceCode la) <= fuel)%nat ->
  exists r la' ws,
    remove_whitespace_loop isspace fuel flags la = (r, la') /\
    skipped isspace la la' ws /\
    (r = Ret tt \/ r = Raise Undefined) /\
    (terminated isspace (m_SourceCode la) -> r = Ret tt) /\
    (forall fuel', remove_whitespace_loop isspace fuel' flags la' = (r, la')).
Proof.
  induction fuel as [|fuel IH]; intros la Hfuel.
  all: rewrite remove_whitespace_loop_eq.
  all: destruct (sv_buffer (m_SourceCode la) !! sv_offset (m_SourceCode la))
         as [c|] eqn:Hc;
       [destruct (is_whitespace isspace c) eqn:Hws;
        [destruct (sv_size (m_SourceCode la)) as [|n] eqn:Hsz|]|].
  all: try lia.
  all: try (eexists _, la, []; split; [reflexivity|];
            split; [apply skipped_refl|]; split; [auto|]; split;
            [ try reflexivity
            | intros fuel'; rewrite remove_whitespace_loop_eq, Hc, ?Hws, ?Hsz; reflexivity ]).
  (* the byte after an empty view is whitespace *)
  1,3: intros (c' & Hc' & Hws'); exfalso; rewrite Hsz, Nat.add_0_r in Hc'; congruence.
  (* the view starts outside its storage *)
  1,3: intros (c' & Hc' & Hws'); exfalso; apply lookup_ge_None in Hc;
       apply lookup_lt_Some in Hc'; lia.
  (* a byte of whitespace is removed and the loop goes on *)
  cbv zeta.
  set (la2 := if Ascii.eqb c "010" && negb (Z.land flags LAF_ALLOW_NEW_LINE =? 0)
              then _ else _).
  assert (Hsrc : m_SourceCode la2 =
                 mkView (sv_buffer (m_SourceCode la)) (sv_offset (m_SourceCode la) + 1) n)
    by (unfold la2; destruct (_ && _); reflexivity).
  assert (Hsame : same_machine la la2).
  { unfold same_machine. rewrite Hsrc.
    unfold la2; destruct (_ && _); now repeat split. }
  destruct (IH la2)
    as (r & la' & ws & Hrun & (Hm & Hend & Hbytes & Hlen & Hall) & Hr & Hterm & Hidem).
  { rewrite Hsrc. cbn [sv_size]. lia. }
  exists r, la', (c :: ws). split; [exact Hrun|].
  rewrite Hsrc in *. cbn [sv_size sv_offset sv_buffer] in *.
  unfold skipped. rewrite Hsz.
  split; [|split; [exact Hr | split; [|exact Hidem]]].
  - split.
    { destruct Hm as (? & ? & ?), Hsame as (? & ? & ?). unfold same_machine.
      repeat split; congruence. }
    split; [lia|]. split.
    { destruct (m_SourceCode la) as [buf off sz] eqn:Hv.
      cbn [sv_size sv_offset sv_buffer] in *.
      subst sz. rewrite (sv_bytes_cons _ _ _ _ Hc). cbn [app]. now rewrite Hbytes. }
    split; [simpl length; lia | constructor; assumption].
  - intros (c' & Hc' & Hws'). apply Hterm. exists c'. split; [|exact Hws'].
    cbn [sv_buffer sv_offset sv_size]. rewrite Hsz in Hc'. rewrite <- Hc'. f_equal. lia.
Qed.

(** What [_check_presearch_conditions] does; a second call changes
    nothing. *)
Lemma check_presearch_conditions_spec flags (la : LA) :
  exists r la' ws,
    _check_presearch_conditions isspace flags la = (r, la') /\
    skipped isspace la la' ws /\
    (Z.land flags LAF_ALLOW_WHITE_SPACE_CHARS <> 0 -> ws = []) /\
    (r = Ret (negb (sv_size (m_SourceCode la') =? 0)%nat) \/ r = Raise Undefined) /\
    (terminated isspace (m_SourceCode la) ->
     r = Ret (negb (sv_size (m_SourceCode la') =? 0)%nat)) /\
    _check_presearch_conditions isspace flags la' = (r, la').
Proof.
  unfold _check_presearch_conditions, _remove_whitespace_prefix, _check_source_code_empty.
  unfold mbind, StateRes_bind, st_bind, gets, mret, StateRes_ret, st_ret.
  rewrite negb_involutive.
  destruct (Z.eqb_spec (Z.land flags LAF_ALLOW_WHITE_SPACE_CHARS) 0) as [Hflag|Hflag].
  - destruct (remove_whitespace_loop_spec flags _ la (Nat.le_refl _))
      as (r & la' & ws & Hrun & Hskip & Hr & Hterm & Hidem).
    rewrite Hrun.
    destruct Hr as [-> | ->].
    + eexists _, la', ws. split; [reflexivity|]. split; [exact Hskip|].
      split; [intros; contradiction|]. split; [now left|]. split; [reflexivity|].
      now rewrite Hidem.
    + eexists _, la', ws. split; [reflexivity|]. split; [exact Hskip|].
      split; [intros; contradiction|]. split; [now right|].
      split; [intros Ht; now specialize (Hterm Ht)|].
      now rewrite Hidem.
  - eexists _, la, []. split; [reflexivity|]. split; [apply skipped_refl|].
    split; [reflexivity|]. split; [now left|]. split; reflexivity.
Qed.


(** The span that the longest-prefix simulation reports: it lies in the
    input, and it is not empty unless the start state is final. *)
Lemma longest_prefix_end (M : FiniteStateMachine) (s : InputT) :
  size s < 2 ^ 64 ->
  let r := _simulate_longest_prefix M s in
  input r = s /\ start (FSM.indecies r) = 0 /\
  0 <= end_ (FSM.indecies r) <= size s /\
  (accepted r = true -> is_final M START_STATE = false -> 1 <= end_ (FSM.indecies r)).
Proof.
  intros Hn r. unfold r. rewrite longest_prefix_result by exact Hn.
  pose proof (path_length M s START_STATE) as Hlen.
  pose proof (dead_on_first_byte_path M s) as Hd.
  destruct (first_final M (rev (START_STATE :: path M s START_STATE))) as [j|] eqn:Hff;
    cbn [FSM.indecies start end_ input accepted];
    [|unfold size; repeat split; try lia; discriminate].
  apply first_final_Some in Hff as (Hj & Hfin & _).
  rewrite length_rev in Hj. cbn [length] in Hj. unfold size in *.
  destruct (dead_on_first_byte M s).
  - destruct Hd as [Hp Hs]. rewrite Hp in Hj. simpl in Hj.
    assert (j = 0%nat) as -> by lia.
    destruct s as [|c s]; [contradiction|]. simpl length in *.
    rewrite wrap_small by lia. repeat split; lia.
  - rewrite (span_end _ _ (length s)) by lia.
    repeat split; try lia. intros _ Hstart.
    destruct (Nat.eq_dec j (length (path M s START_STATE))) as [->|Hne]; [|lia].
    exfalso. rewrite rev_nth in Hfin by (cbn [length]; lia).
    cbn [length] in Hfin. rewrite Nat.sub_diag in Hfin. cbn [nth] in Hfin. congruence.
Qed.

(** [getNextToken] and [peak] after [_check_presearch_conditions]. *)
Lemma getNextToken_eq flags (la : LA) r la1 :
  Z.of_nat (sv_size (m_SourceCode la1)) < 2 ^ 64 ->
  _check_presearch_conditions isspace flags la = (r, la1) ->
  let fsmRes := _simulate_longest_prefix (m_Automatan la1) (sv_bytes (m_SourceCode la1)) in
  let e := Z.to_nat (end_ (FSM.indecies fsmRes)) in
  (e <= length (sv_bytes (m_SourceCode la1)))%nat /\
  (e <= sv_size (m_SourceCode la1))%nat /\
  (accepted fsmRes = true -> is_final (m_Automatan la1) START_STATE = false ->
   (1 <= e)%nat) /\
  getNextToken TokenT_default isspace flags la =
  match r with
  | Raise f => (Raise f, la1)
  | Ret ok =>
      if negb ok then (Ret (Result_default TokenT_default), la1)
      else if negb (accepted fsmRes) then (Ret (Result_default TokenT_default), la1)
      else
        (Ret (mkResult true
                (m_TokenFactory la1 (state_of_set (finalState fsmRes))
                   (take e (sv_bytes (m_SourceCode la1))))
                (mkIndecies (wrap (m_Col la1)) (wrap (m_Col la1 + Z.of_nat e)))
                (m_Line la1)),
         set_SourceCode
           (mkView (sv_buffer (m_SourceCode la1))
              (sv_offset (m_SourceCode la1) + e) (sv_size (m_SourceCode la1) - e))
           (set_Col (wrap (m_Col la1 + Z.of_nat e)) la1))
  end /\
  peak TokenT_default isspace flags la =
  match r with
  | Raise f => (Raise f, la1)
  | Ret ok =>
      if negb ok then (Ret (Result_default TokenT_default), la1)
      else if negb (accepted fsmRes) then (Ret (Result_default TokenT_default), la1)
      else
        (Ret (mkResult true
                (m_TokenFactory la1 (state_of_set (finalState fsmRes))
                   (take e (sv_bytes (m_SourceCode la1))))
                (mkIndecies (wrap (m_Col la1)) (wrap (m_Col la1 + Z.of_nat e)))
                (m_Line la1)),
         la1)
  end.
Proof.
  intros Hn Hpre fsmRes e.
  assert (Hlen : (length (sv_bytes (m_SourceCode la1)) <= sv_size (m_SourceCode la1))%nat).
  { unfold sv_bytes. rewrite length_take. lia. }
  destruct (longest_prefix_end (m_Automatan la1) (sv_bytes (m_SourceCode la1)))
    as (Hin & Hstart & Hend & Hpos).
  { unfold size. lia. }
  fold fsmRes in Hin, Hstart, Hend, Hpos. unfold size in Hend.
  assert (He : Z.of_nat e = end_ (FSM.indecies fsmRes)) by (unfold e; lia).
  split; [lia|]. split; [lia|]. split; [intros Ha Hs; specialize (Hpos Ha Hs); lia|].
  unfold getNextToken, peak.
  unfold mbind, StateRes_bind, st_bind. rewrite Hpre.
  destruct r as [ok|f]; [|split; reflexivity].
  destruct ok; cbn [negb]; [|split; reflexivity].
  unfold gets, lift, simulate, mret, StateRes_ret, st_ret, modify, id. fold fsmRes.
  destruct (accepted fsmRes); cbn [negb]; [|split; reflexivity].
  unfold Result_ctor, getMatch, substr, FSMResult_size, Indecies_add, remove_prefix.
  rewrite Hin, Hstart.
  destruct (Z.ltb_spec (size (sv_bytes (m_SourceCode la1))) 0) as [|_];
    [unfold size in *; lia|].
  rewrite Z.sub_0_r, Z.add_0_l. rewrite (wrap_small (end_ _)) by lia.
  cbn [mbind Res_bind bind]. change (Z.to_nat 0) with 0%nat. rewrite drop_0.
  fold e. rewrite <- He. cbn [m_SourceCode set_Col m_Col m_Line m_TokenFactory].
  destruct (Z.ltb_spec (Z.of_nat (sv_size (m_SourceCode la1))) (Z.of_nat e)) as [|_];
    [lia|].
  rewrite (Z.add_comm (Z.of_nat e) (m_Col la1)).
  split; reflexivity.
Qed.


Lemma terminated_view_ok (v : string_view) : terminated isspace v -> view_ok v.
Proof.
  intros (c & Hc & _). apply lookup_lt_Some in Hc. unfold view_ok. lia.
Qed.

Lemma sv_bytes_split buf off sz e :
  (e <= sz)%nat ->
  sv_bytes (mkView buf off sz) =
  take e (sv_bytes (mkView buf off sz)) ++ sv_bytes (mkView buf (off + e) (sz - e)).
Proof.
  intros He. unfold sv_bytes. cbn [sv_buffer sv_offset sv_size].
  rewrite <- (take_drop e (take sz (drop off buf))) at 1. f_equal.
  rewrite skipn_firstn_comm. now rewrite drop_drop.
Qed.

(** On a source that is followed by a byte other than whitespace,
    [getNextToken] returns; it splits the source into the whitespace it
    skips, the lexeme and the source it leaves.  The lexeme is the span
    that the longest-prefix simulation reports on the source without the
    whitespace; without a token nothing but whitespace is removed. *)
Theorem getNextToken_splits_the_source flags (la : LA) :
  terminated isspace (m_SourceCode la) ->
  Z.of_nat (sv_size (m_SourceCode la)) < 2 ^ 64 ->
  exists r la' ws lexeme,
    getNextToken TokenT_default isspace flags la = (Ret r, la') /\
    same_machine la la' /\
    view_ok (m_SourceCode la') /\ terminated isspace (m_SourceCode la') /\
    sv_bytes (m_SourceCode la) = ws ++ lexeme ++ sv_bytes (m_SourceCode la') /\
    Forall (fun c => is_whitespace isspace c = true) ws /\
    (Z.land flags LAF_ALLOW_WHITE_SPACE_CHARS <> 0 -> ws = []) /\
    if foundToken r then
      let fsmRes :=
        _simulate_longest_prefix (m_Automatan la)
          (lexeme ++ sv_bytes (m_SourceCode la')) in
      accepted fsmRes = true /\
      FSM.indecies fsmRes = mkIndecies 0 (size lexeme) /\
      token r = m_TokenFactory la (state_of_set (finalState fsmRes)) lexeme /\
      lineNumber r = m_Line la' /\
      end_ (indecies r) = m_Col la' /\
      wrap (start (indecies r) + size lexeme) = m_Col la'
    else r = Result_default TokenT_default /\ lexeme = [].
Proof.
  intros Hterm Hn.
  destruct (check_presearch_conditions_spec flags la)
    as (rp & la1 & ws & Hpre & Hskip & Hflag & _ & Hrp & _).
  specialize (Hrp Hterm). subst rp.
  pose proof Hskip as ((Hma & Hmf & Hmb) & Hend & Hbytes & Hsz & Hall).
  assert (Hterm1 : terminated isspace (m_SourceCode la1)).
  { destruct Hterm as (c & Hc & Hws). exists c. split; [|exact Hws].
    rewrite Hmb, Hend. exact Hc. }
  assert (Hfinish : forall la', la' = la1 ->
    exists r la'0 ws0 lexeme,
      (Ret (Result_default TokenT_default), la') = (Ret r, la'0) /\
      same_machine la la'0 /\
      view_ok (m_SourceCode la'0) /\ terminated isspace (m_SourceCode la'0) /\
      sv_bytes (m_SourceCode la) = ws0 ++ lexeme ++ sv_bytes (m_SourceCode la'0) /\
      Forall (fun c => is_whitespace isspace c = true) ws0 /\
      (Z.land flags LAF_ALLOW_WHITE_SPACE_CHARS <> 0 -> ws0 = []) /\
      if foundToken r then
        let fsmRes :=
          _simulate_longest_prefix (m_Automatan la)
            (lexeme ++ sv_bytes (m_SourceCode la'0)) in
        accepted fsmRes = true /\
        FSM.indecies fsmRes = mkIndecies 0 (size lexeme) /\
        token r = m_TokenFactory la (state_of_set (finalState fsmRes)) lexeme /\
        lineNumber r = m_Line la'0 /\
        end_ (indecies r) = m_Col la'0 /\
        wrap (start (indecies r) + size lexeme) = m_Col la'0
      else r = Result_default TokenT_default /\ lexeme = []).
  { intros la' ->. exists (Result_default TokenT_default), la1, ws, [].
    split; [reflexivity|]. split; [now repeat split|].
    split; [now apply terminated_view_ok|]. split; [exact Hterm1|].
    split; [exact Hbytes|]. split; [exact Hall|]. split; [exact Hflag|].
    cbn [foundToken Result_default]. now split. }
  destruct (getNextToken_eq flags la _ la1 ltac:(lia) Hpre) as (He & Hes & _ & -> & _).
  cbv zeta in He, Hes.
  set (fsmRes := _simulate_longest_prefix (m_Automatan la1) (sv_bytes (m_SourceCode la1))) in *.
  set (e := Z.to_nat (end_ (FSM.indecies fsmRes))) in *.
  destruct (negb (sv_size (m_SourceCode la1) =? 0)%nat); cbn [negb];
    [|now apply Hfinish].
  destruct (accepted fsmRes) eqn:Hacc; cbn [negb]; [|now apply Hfinish].
  destruct (longest_prefix_end (m_Automatan la1) (sv_bytes (m_SourceCode la1)))
    as (_ & Hstart & Hend' & _).
  { assert (length (sv_bytes (m_SourceCode la1)) <= sv_size (m_SourceCode la1))%nat
      by (unfold sv_bytes; rewrite length_take; lia).
    unfold size. lia. }
  fold fsmRes in Hstart, Hend'.
  assert (Hsplit : sv_bytes (m_SourceCode la1) =
                   take e (sv_bytes (m_SourceCode la1)) ++
                   sv_bytes (mkView (sv_buffer (m_SourceCode la1))
                               (sv_offset (m_SourceCode la1) + e)
                               (sv_size (m_SourceCode la1) - e))).
  { destruct (m_SourceCode la1) as [buf off sz]. now apply sv_bytes_split. }
  assert (Hlex : size (take e (sv_bytes (m_SourceCode la1))) = end_ (FSM.indecies fsmRes)).
  { unfold size. rewrite length_take. unfold e in *. lia. }
  eexists _, _, ws, (take e (sv_bytes (m_SourceCode la1))).
  split; [reflexivity|].
  cbn [m_SourceCode set_SourceCode set_Col m_Col m_Line foundToken token lineNumber
       indecies start end_].
  split; [unfold same_machine; cbn; now repeat split|].
  assert (Hterm' : terminated isspace
            (mkView (sv_buffer (m_SourceCode la1)) (sv_offset (m_SourceCode la1) + e)
               (sv_size (m_SourceCode la1) - e))).
  { destruct Hterm1 as (c & Hc & Hws). exists c. split; [|exact Hws].
    cbn [sv_buffer sv_offset sv_size]. rewrite <- Hc. f_equal. lia. }
  split; [now apply terminated_view_ok|]. split; [exact Hterm'|].
  split; [rewrite Hbytes; f_equal; exact Hsplit|]. split; [exact Hall|].
  split; [exact Hflag|].
  rewrite <- Hsplit, <- Hma. fold fsmRes. rewrite <- Hmf.
  split; [exact Hacc|]. split.
  { rewrite Hlex. destruct (FSM.indecies fsmRes) as [a b]. cbn in *. now subst a. }
  split; [reflexivity|]. split; [reflexivity|]. split; [reflexivity|].
  rewrite Hlex. rewrite wrap_wrap_add. f_equal. unfold e. lia.
Qed.


(** [peak] returns what [getNextToken] returns, and after [peak] the call
    of [getNextToken] returns the same and leaves the analyzer in the same
    state as without it; a second [peak] changes nothing. *)
Theorem peak_agrees_with_getNextToken flags (la : LA) r la1 :
  view_ok (m_SourceCode la) ->
  Z.of_nat (sv_size (m_SourceCode la)) < 2 ^ 64 ->
  peak TokenT_default isspace flags la = (r, la1) ->
  exists la2,
    getNextToken TokenT_default isspace flags la = (r, la2) /\
    getNextToken TokenT_default isspace flags la1 = (r, la2) /\
    peak TokenT_default isspace flags la1 = (r, la1).
Proof.
  intros _ Hn Hpeak.
  destruct (check_presearch_conditions_spec flags la)
    as (rp & lap & ws & Hpre & Hskip & _ & _ & _ & Hidem).
  pose proof Hskip as (_ & _ & _ & Hsz & _).
  destruct (getNextToken_eq flags la _ lap ltac:(lia) Hpre) as (_ & _ & _ & Hnext & Hpk).
  destruct (getNextToken_eq flags lap _ lap ltac:(lia) Hidem) as (_ & _ & _ & Hnext' & Hpk').
  cbv zeta in Hnext, Hpk, Hnext', Hpk'.
  rewrite Hpk in Hpeak. rewrite Hnext. clear Hnext Hpk.
  destruct rp as [ok|f].
  - destruct (negb ok).
    { injection Hpeak as <- <-. eexists. repeat split; assumption. }
    destruct (negb (accepted _)).
    { injection Hpeak as <- <-. eexists. repeat split; assumption. }
    injection Hpeak as <- <-. eexists. repeat split; assumption.
  - injection Hpeak as <- <-. eexists. repeat split; assumption.
Qed.

(** When [getNextToken] finds no token, at the end of the source or before
    a byte that starts no lexeme, it returns the value-initialised result,
    and every further call returns the same and leaves the analyzer as it
    is. *)
Theorem getNextToken_without_token_is_stuck flags (la : LA) r la' :
  view_ok (m_SourceCode la) ->
  Z.of_nat (sv_size (m_SourceCode la)) < 2 ^ 64 ->
  getNextToken TokenT_default isspace flags la = (Ret r, la') ->
  foundToken r = false ->
  r = Result_default TokenT_default /\
  getNextToken TokenT_default isspace flags la' = (Ret r, la') /\
  peak TokenT_default isspace flags la' = (Ret r, la').
Proof.
  intros _ Hn Hnext Hfound.
  destruct (check_presearch_conditions_spec flags la)
    as (rp & lap & ws & Hpre & Hskip & _ & _ & _ & Hidem).
  pose proof Hskip as (_ & _ & _ & Hsz & _).
  destruct (getNextToken_eq flags la _ lap ltac:(lia) Hpre) as (_ & _ & _ & Heq & _).
  destruct (getNextToken_eq flags lap _ lap ltac:(lia) Hidem) as (_ & _ & _ & Hnext' & Hpk').
  cbv zeta in Heq, Hnext', Hpk'.
  rewrite Heq in Hnext. clear Heq.
  destruct rp as [ok|f]; [|discriminate Hnext].
  destruct (negb ok).
  { injection Hnext as <- <-. repeat split; assumption. }
  destruct (negb (accepted _)).
  { injection Hnext as <- <-. repeat split; assumption. }
  injection Hnext as <- <-. discriminate Hfound.
Qed.

(** When the start state of the automaton is not final, a call of
    [getNextToken] that finds a token leaves a shorter source. *)
Theorem getNextToken_with_token_consumes flags (la : LA) r la' :
  view_ok (m_SourceCode la) ->
  Z.of_nat (sv_size (m_SourceCode la)) < 2 ^ 64 ->
  is_final (m_Automatan la) START_STATE = false ->
  getNextToken TokenT_default isspace flags la = (Ret r, la') ->
  foundToken r = true ->
  (sv_size (m_SourceCode la') < sv_size (m_SourceCode la))%nat.
Proof.
  intros _ Hn Hstart Hnext Hfound.
  destruct (check_presearch_conditions_spec flags la)
    as (rp & lap & ws & Hpre & Hskip & _ & _ & _ & _).
  pose proof Hskip as ((Hma & _ & _) & _ & _ & Hsz & _).
  destruct (getNextToken_eq flags la _ lap ltac:(lia) Hpre) as (_ & Hes & Hpos & Heq & _).
  cbv zeta in Hes, Hpos, Heq.
  rewrite Heq in Hnext. clear Heq.
  destruct rp as [ok|f]; [|discriminate Hnext].
  destruct (negb ok).
  { injection Hnext as <- <-. discriminate Hfound. }
  destruct (accepted _) eqn:Hacc; cbn [negb] in Hnext.
  2:{ injection Hnext as <- <-. discriminate Hfound. }
  injection Hnext as <- <-. cbn [m_SourceCode set_SourceCode sv_size].
  rewrite <- Hma in Hstart. specialize (Hpos eq_refl Hstart). lia.
Qed.

End LexerProps.

Section LexerPosition.
Import FSM Lexer LexerNotions.
Context {TokenT : Type} (TokenT_default : TokenT) (isspace : ascii -> bool).

Local Abbreviation LA := (@LexicalAnalyzer TokenT).

(** Without [LAF_ALLOW_NEW_LINE] the loop of [_remove_whitespace_prefix]
    counts every byte it removes as a column. *)
Lemma remove_whitespace_loop_position flags fuel :
  Z.land flags LAF_ALLOW_NEW_LINE = 0 ->
  forall (la : LA) r la',
  0 <= m_Col la < 2 ^ 64 ->
  remove_whitespace_loop isspace fuel flags la = (r, la') ->
  m_Line la' = m_Line la /\
  (sv_size (m_SourceCode la') <= sv_size (m_SourceCode la))%nat /\
  m_Col la' =
    wrap (m_Col la + (Z.of_nat (sv_size (m_SourceCode la)) -
                      Z.of_nat (sv_size (m_SourceCode la')))).
Proof.
  intros Hflag. induction fuel as [|fuel IH]; intros la r la' Hcol.
  all: rewrite remove_whitespace_loop_eq, Hflag; cbn [Z.eqb negb].
  all: destruct (sv_buffer (m_SourceCode la) !! sv_offset (m_SourceCode la)) as [c|];
       [destruct (is_whitespace isspace c);
        [destruct (sv_size (m_SourceCode la)) as [|n] eqn:Hsz|]|].
  all: cbv zeta; rewrite ?andb_false_r.
  all: try (intros [= <- <-]; rewrite ?Hsz;
            cbn [m_Line m_Col m_SourceCode set_Col set_SourceCode sv_size];
            split; [reflexivity|]; split; [lia|];
            rewrite ?Z.sub_diag, ?Z.add_0_r, ?wrap_small by lia;
            first [reflexivity | f_equal; lia]).
  intros Hrun. apply IH in Hrun as (Hline & Hsz' & Hc).
  - cbn [m_Line m_Col m_SourceCode set_Col set_SourceCode sv_size] in *.
    split; [exact Hline|]. split; [lia|]. rewrite Hc.
    rewrite wrap_wrap_add. f_equal. lia.
  - cbn [m_Col set_Col]. unfold wrap. apply Z.mod_pos_bound. lia.
Qed.

(** Unless whitespace is skipped with [LAF_ALLOW_NEW_LINE], a call of
    [getNextToken] leaves the line number as it is and advances the column
    by the number of bytes that it removes from the source, newlines
    included; the token it finds carries the line number of the
    analyzer. *)
Theorem getNextToken_counts_bytes_as_columns flags (la : LA) r la' :
  view_ok (m_SourceCode la) ->
  Z.of_nat (sv_size (m_SourceCode la)) < 2 ^ 64 ->
  0 <= m_Col la < 2 ^ 64 ->
  Z.land flags LAF_ALLOW_NEW_LINE = 0 \/
  Z.land flags LAF_ALLOW_WHITE_SPACE_CHARS <> 0 ->
  getNextToken TokenT_default isspace flags la = (r, la') ->
  m_Line la' = m_Line la /\
  (sv_size (m_SourceCode la') <= sv_size (m_SourceCode la))%nat /\
  m_Col la' =
    wrap (m_Col la + (Z.of_nat (sv_size (m_SourceCode la)) -
                      Z.of_nat (sv_size (m_SourceCode la')))) /\
  forall res, r = Ret res -> foundToken res = true -> lineNumber res = m_Line la.
Proof.
  intros _ Hn Hcol Hflags Hnext.
  destruct (check_presearch_conditions_spec isspace flags la)
    as (rp & la1 & ws & Hpre & Hskip & _ & _ & _ & _).
  pose proof Hskip as (_ & _ & _ & Hsz & _).
  assert (Hpos : m_Line la1 = m_Line la /\
                 m_Col la1 = wrap (m_Col la + (Z.of_nat (sv_size (m_SourceCode la)) -
                                               Z.of_nat (sv_size (m_SourceCode la1))))).
  { revert Hpre.
    unfold _check_presearch_conditions, _remove_whitespace_prefix, _check_source_code_empty.
    unfold mbind, StateRes_bind, st_bind, gets, mret, StateRes_ret, st_ret.
    rewrite negb_involutive.
    destruct (Z.eqb_spec (Z.land flags LAF_ALLOW_WHITE_SPACE_CHARS) 0) as [Hw|Hw].
    - destruct Hflags as [Hnl|]; [|contradiction].
      destruct (remove_whitespace_loop isspace _ flags la) as [r0 la0] eqn:Hrun.
      apply (remove_whitespace_loop_position flags _ Hnl la r0 la0 Hcol) in Hrun
        as (Hline & _ & Hc).
      destruct r0; intros [= <- <-]; now split.
    - intros [= <- <-]. split; [reflexivity|].
      rewrite Z.sub_diag, Z.add_0_r, wrap_small by lia. reflexivity. }
  destruct Hpos as [Hline Hc1].
  destruct (getNextToken_eq TokenT_default isspace flags la _ la1 ltac:(lia) Hpre)
    as (_ & Hes & _ & Heq & _).
  cbv zeta in Hes, Heq. rewrite Heq in Hnext. clear Heq.
  assert (Hstay : (r, la') =
                  (match rp with Ret _ => Ret (Result_default TokenT_default)
                            | Raise f => Raise f end, la1) ->
    m_Line la' = m_Line la /\
    (sv_size (m_SourceCode la') <= sv_size (m_SourceCode la))%nat /\
    m_Col la' =
      wrap (m_Col la + (Z.of_nat (sv_size (m_SourceCode la)) -
                        Z.of_nat (sv_size (m_SourceCode la')))) /\
    forall res, r = Ret res -> foundToken res = true -> lineNumber res = m_Line la).
  { intros [= -> ->]. split; [exact Hline|]. split; [lia|]. split; [exact Hc1|].
    intros res Hres. destruct rp; [|discriminate]. injection Hres as <-. discriminate. }
  destruct rp as [ok|f]; [|now apply Hstay].
  destruct (negb ok); [now apply Hstay|].
  destruct (negb (accepted _)); [now apply Hstay|].
  injection Hnext as <- <-.
  cbn [m_Line m_Col m_SourceCode set_Col set_SourceCode sv_size].
  split; [exact Hline|]. split; [lia|]. split.
  - rewrite Hc1, wrap_wrap_add. f_equal. lia.
  - intros res [= <-] _. exact Hline.
Qed.

End LexerPosition.

Section LexerExamples.
Import FSM Lexer LexerNotions Examples.

(** On [ abx] the analyzer skips the blank and returns the lexeme [a]; the
    factory receives the state 0, because the path ends in the state that
    follows [ab], which is not final. *)
Lemma getNextToken_splits_the_source_witness :
  terminated isspace_C (m_SourceCode abx_lexer) /\
  Z.of_nat (sv_size (m_SourceCode abx_lexer)) < 2 ^ 64 /\
  getNextToken (0%nat, []) isspace_C LAF_DEFAULT abx_lexer =
    (Ret (mkResult true (0%nat, ["a"%char]) (mkIndecies 1 2) 0),
     mkLexer abc_machine pair (mkView (sv_buffer abx_view) 2 2) 0 2) /\
  exists r la' ws lexeme,
    getNextToken (0%nat, []) isspace_C LAF_DEFAULT abx_lexer = (Ret r, la') /\
    same_machine abx_lexer la' /\
    view_ok (m_SourceCode la') /\ terminated isspace_C (m_SourceCode la') /\
    sv_bytes (m_SourceCode abx_lexer) = ws ++ lexeme ++ sv_bytes (m_SourceCode la') /\
    Forall (fun c => is_whitespace isspace_C c = true) ws /\
    (Z.land LAF_DEFAULT LAF_ALLOW_WHITE_SPACE_CHARS <> 0 -> ws = []) /\
    if foundToken r then
      let fsmRes :=
        _simulate_longest_prefix (m_Automatan abx_lexer)
          (lexeme ++ sv_bytes (m_SourceCode la')) in
      accepted fsmRes = true /\
      FSM.indecies fsmRes = mkIndecies 0 (size lexeme) /\
      token r = m_TokenFactory abx_lexer (state_of_set (finalState fsmRes)) lexeme /\
      lineNumber r = m_Line la' /\
      end_ (indecies r) = m_Col la' /\
      wrap (start (indecies r) + size lexeme) = m_Col la'
    else r = Result_default (0%nat, []) /\ lexeme = [].
Proof.
  split; [exists zero; split; reflexivity|]. split; [reflexivity|].
  split; [reflexivity|].
  apply (getNextToken_splits_the_source (0%nat, []) isspace_C LAF_DEFAULT abx_lexer);
    [exists zero; split; reflexivity | reflexivity].
Defined.

Lemma peak_agrees_with_getNextToken_witness :
  let r := Ret (mkResult true (0%nat, ["a"%char]) (mkIndecies 1 2) 0) in
  let la1 := mkLexer abc_machine pair (mkView (sv_buffer abx_view) 1 3) 0 1 in
  view_ok (m_SourceCode abx_lexer) /\
  Z.of_nat (sv_size (m_SourceCode abx_lexer)) < 2 ^ 64 /\
  peak (0%nat, []) isspace_C LAF_DEFAULT abx_lexer = (r, la1) /\
  exists la2,
    getNextToken (0%nat, []) isspace_C LAF_DEFAULT abx_lexer = (r, la2) /\
    getNextToken (0%nat, []) isspace_C LAF_DEFAULT la1 = (r, la2) /\
    peak (0%nat, []) isspace_C LAF_DEFAULT la1 = (r, la1).
Proof.
  intros r la1.
  assert (Hok : view_ok (m_SourceCode abx_lexer)) by (unfold view_ok; simpl; lia).
  split; [exact Hok|]. split; [reflexivity|]. split; [reflexivity|].
  apply (peak_agrees_with_getNextToken (0%nat, []) isspace_C LAF_DEFAULT abx_lexer r la1);
    [exact Hok | reflexivity | reflexivity].
Defined.

(** After the lexeme [a] the source is [bx], which starts no lexeme. *)
Lemma getNextToken_without_token_is_stuck_witness :
  let la := mkLexer abc_machine pair (mkView (sv_buffer abx_view) 2 2) 0 2 in
  let r := Result_default (0%nat, []) in
  view_ok (m_SourceCode la) /\
  Z.of_nat (sv_size (m_SourceCode la)) < 2 ^ 64 /\
  getNextToken (0%nat, []) isspace_C LAF_DEFAULT la = (Ret r, la) /\
  foundToken r = false /\
  r = Result_default (0%nat, []) /\
  getNextToken (0%nat, []) isspace_C LAF_DEFAULT la = (Ret r, la) /\
  peak (0%nat, []) isspace_C LAF_DEFAULT la = (Ret r, la).
Proof.
  intros la r.
  assert (Hok : view_ok (m_SourceCode la)) by (unfold view_ok; simpl; lia).
  split; [exact Hok|]. split; [reflexivity|]. split; [reflexivity|].
  split; [reflexivity|].
  apply (getNextToken_without_token_is_stuck (0%nat, []) isspace_C LAF_DEFAULT la r la);
    [exact Hok | reflexivity | reflexivity | reflexivity].
Defined.

Lemma getNextToken_with_token_consumes_witness :
  let r := mkResult true (0%nat, ["a"%char]) (mkIndecies 1 2) 0 in
  let la' := mkLexer abc_machine pair (mkView (sv_buffer abx_view) 2 2) 0 2 in
  view_ok (m_SourceCode abx_lexer) /\
  Z.of_nat (sv_size (m_SourceCode abx_lexer)) < 2 ^ 64 /\
  is_final (m_Automatan abx_lexer) START_STATE = false /\
  getNextToken (0%nat, []) isspace_C LAF_DEFAULT abx_lexer = (Ret r, la') /\
  foundToken r = true /\
  (sv_size (m_SourceCode la') < sv_size (m_SourceCode abx_lexer))%nat.
Proof.
  intros r la'.
  assert (Hok : view_ok (m_SourceCode abx_lexer)) by (unfold view_ok; simpl; lia).
  split; [exact Hok|]. split; [reflexivity|]. split; [reflexivity|].
  split; [reflexivity|]. split; [reflexivity|].
  apply (getNextToken_with_token_consumes (0%nat, []) isspace_C LAF_DEFAULT abx_lexer r la');
    [exact Hok | reflexivity | reflexivity | reflexivity | reflexivity].
Defined.

(** With the default flags the line feed before [a] counts as a column:
    the analyzer ends at line 0, column 2. *)
Lemma getNextToken_counts_bytes_as_columns_witness :
  let r := Ret (mkResult true (2%nat, ["a"%char]) (mkIndecies 1 2) 0) in
  let la' := mkLexer abc_machine pair (mkView (sv_buffer nl_view) 2 0) 0 2 in
  view_ok (m_SourceCode nl_lexer) /\
  Z.of_nat (sv_size (m_SourceCode nl_lexer)) < 2 ^ 64 /\
  0 <= m_Col nl_lexer < 2 ^ 64 /\
  (Z.land LAF_DEFAULT LAF_ALLOW_NEW_LINE = 0 \/
   Z.land LAF_DEFAULT LAF_ALLOW_WHITE_SPACE_CHARS <> 0) /\
  getNextToken (0%nat, []) isspace_C LAF_DEFAULT nl_lexer = (r, la') /\
  m_Line la' = m_Line nl_lexer /\
  (sv_size (m_SourceCode la') <= sv_size (m_SourceCode nl_lexer))%nat /\
  m_Col la' =
    wrap (m_Col nl_lexer + (Z.of_nat (sv_size (m_SourceCode nl_lexer)) -
                            Z.of_nat (sv_size (m_SourceCode la')))) /\
  forall res, r = Ret res -> foundToken res = true -> lineNumber res = m_Line nl_lexer.
Proof.
  intros r la'.
  assert (Hok : view_ok (m_SourceCode nl_lexer)) by (unfold view_ok; simpl; lia).
  assert (Hcol : 0 <= m_Col nl_lexer < 2 ^ 64) by (simpl; lia).
  split; [exact Hok|]. split; [reflexivity|]. split; [exact Hcol|].
  split; [now left|]. split; [reflexivity|].
  apply (getNextToken_counts_bytes_as_columns (0%nat, []) isspace_C LAF_DEFAULT
           nl_lexer r la');
    [exact Hok | reflexivity | exact Hcol | now left | reflexivity].
Defined.

End LexerExamples.

(** ** FIRST and FOLLOW *)

Section FirstFollow.
Import Grammar Examples.

(** The productions of the examples are those that the constructor of
    [ProductionRecord] builds. *)
Lemma production_ctor head body number :
  body <> [] ->
  ProductionRecord_ctor (toSymbol_nonTerminal head) body number None
  = Ret (production head body number).
Proof.
  intros Hb. unfold ProductionRecord_ctor. simpl.
  destruct body; [contradiction | reflexivity].
Qed.

(** C3 fails on the code.  For the grammar START -> S, S -> A, A -> EPSILON
    the fixed point is reached after two rounds with FIRST(A) = {EPSILON}
    and FIRST(S) empty, while FIRST of the body of S -> A, computed from the
    same table, is {EPSILON}: inside [_calc_FIRST_of_prod] the loop over
    FIRST(A) returns as soon as it meets EPSILON, so the code below it that
    adds EPSILON at the end of a body is never reached. *)
Theorem C3_first_of_body_not_in_first_of_head :
  exists g body,
    (forall fuel, calculateFIRST (2 + fuel) grammar_chain = Ret g) /\
    FIRST g !! NT_A = Some [EPSILON] /\
    FIRST g !! NT_S = Some [] /\
    ss_calculateFIRST (FIRST g) (SymbolString_ctor [toSymbol_nonTerminal NT_A])
      = Ret body /\
    ss_FIRST body = [EPSILON] /\
    ~ (forall x, x ∈ ss_FIRST body -> x ∈ default [] (FIRST g !! NT_S)).
Proof.
  eexists. eexists.
  split; [intros fuel; vm_compute; reflexivity|].
  split; [reflexivity|]. split; [reflexivity|].
  split; [vm_compute; reflexivity|]. split; [reflexivity|].
  simpl. intros Hsub. specialize (Hsub EPSILON (list_elem_of_here _ _)).
  inversion Hsub.
Qed.

(** C6 fails on the code.  For the grammar START -> S, S -> A EPSILON,
    A -> a the computed FOLLOW(A) is {EPSILON}: the branch of
    [_calc_FOLLOW_of_nonTerminal] for a terminal after the non-terminal
    inserts it without the test for EPSILON that the other branches make. *)
Theorem C6_epsilon_in_follow :
  exists g1 g,
    (forall fuel, calculateFIRST (4 + fuel) grammar_eps_after = Ret g1) /\
    (forall fuel, calculateFOLLOW (2 + fuel) g1 = Ret g) /\
    m_CalculatedFOLLOW g = true /\
    FOLLOW g !! NT_A = Some [EPSILON] /\
    set_contains EPSILON (default [] (FOLLOW g !! NT_A)) = true.
Proof.
  eexists. eexists.
  split; [intros fuel; vm_compute; reflexivity|].
  split; [intros fuel; vm_compute; reflexivity|].
  repeat split.
Qed.

(** C7 (as amended).  Computing FIRST of a symbol string whose sequence of
    symbols is empty succeeds, marks the set as calculated and leaves it as
    it was: nothing is inserted, EPSILON included. *)
Theorem C7_first_of_empty_string `{Enums} (prodVecFIRST : list SymSet)
    (s : GrammaticalSymbolString) :
  symbols s = [] ->
  exists s',
    ss_calculateFIRST prodVecFIRST s = Ret s' /\
    ss_CalculatedFIRST s' = true /\
    ss_FIRST s' = ss_FIRST s /\
    symbols s' = [].
Proof.
  intros Hs. unfold ss_calculateFIRST.
  destruct (ss_CalculatedFIRST s) eqn:Hc.
  - exists s. auto.
  - rewrite Hs. simpl. eexists. repeat split.
Qed.

(** The FIRST set of a newly built empty string is the empty set. *)
Lemma C7_first_of_empty_string_witness :
  symbols (SymbolString_ctor []) = [] /\
  exists s',
    ss_calculateFIRST [] (SymbolString_ctor []) = Ret s' /\
    ss_CalculatedFIRST s' = true /\
    ss_FIRST s' = [] /\
    symbols s' = [].
Proof.
  split; [reflexivity|].
  apply (C7_first_of_empty_string [] (SymbolString_ctor [])). reflexivity.
Defined.

(** C7, as stated, fails: the FIRST set computed for the empty string is
    empty, it is not {EPSILON}. *)
Lemma C7_empty_string_has_empty_first :
  exists s',
    ss_calculateFIRST [] (SymbolString_ctor []) = Ret s' /\
    symbols s' = [] /\
    ss_FIRST s' = [] /\
    ss_FIRST s' <> [EPSILON].
Proof. eexists. repeat split. discriminate. Qed.

End FirstFollow.

(** *** Termination of the FIRST and FOLLOW computations

    Both computations are fixed-point iterations over vectors of sets of
    terminals.  A round that reports an addition has made one of the sets
    larger, and [NT_COUNT] sets of terminals below [T_COUNT] hold at most
    [NT_COUNT * T_COUNT] symbols. *)

Section TerminalSets.
Import Grammar GrammarNotions.

Lemma sym_ltb_terminals x y :
  isTerminal x = true -> isTerminal y = true ->
  sym_ltb x y = (as_ x <? as_ y)%nat.
Proof. intros Hx Hy. unfold sym_ltb. rewrite Hx, Hy. reflexivity. Qed.

Lemma terminal_eq x y :
  isTerminal x = true -> isTerminal y = true -> as_ x = as_ y -> x = y.
Proof. destruct x, y; simpl; intros; subst; reflexivity. Qed.

Lemma terminal_set_nil B : terminal_set B [].
Proof. split; constructor. Qed.

Lemma terminal_set_length B s : terminal_set B s -> (length s <= B)%nat.
Proof.
  intros [Hs Hb].
  assert (Hgen : match s with [] => True | x :: _ => (as_ x + length s <= B)%nat end).
  { induction s as [|x s IH]; [exact I|].
    apply StronglySorted_inv in Hs as [Hs Hx].
    apply Forall_cons_1 in Hb as [[_ Hxb] Hb].
    specialize (IH Hs Hb). destruct s as [|y s]; simpl in *; [lia|].
    apply Forall_cons_1 in Hx as [Hxy _]. unfold term_lt in Hxy. lia. }
  destruct s; simpl in *; lia.
Qed.

(** [insert] on a set of terminals. *)
Lemma set_insert_terminal B x s :
  terminal_set B s -> isTerminal x = true -> (as_ x < B)%nat ->
  terminal_set B (fst (set_insert x s)) /\
  length (fst (set_insert x s)) =
    (length s + (if snd (set_insert x s) then 1 else 0))%nat /\
  (forall y, In y (fst (set_insert x s)) <-> y = x \/ In y s).
Proof.
  intros [Hs Hb] Hx Hxb. induction s as [|y s IH]; simpl.
  - split; [split; repeat constructor; assumption|]. split; [reflexivity|].
    intros z. simpl. intuition.
  - apply StronglySorted_inv in Hs as [Hs Hy].
    apply Forall_cons_1 in Hb as [[Hyt Hyb] Hb].
    rewrite (sym_ltb_terminals x y), (sym_ltb_terminals y x) by assumption.
    destruct (Nat.ltb_spec (as_ x) (as_ y)) as [Hlt|Hge]; simpl.
    + split; [|split; [lia | intros z; simpl; intuition]].
      split.
      * constructor; [constructor; assumption|].
        constructor; [exact Hlt|].
        eapply Forall_impl; [|exact Hy]. unfold term_lt. intros; lia.
      * repeat constructor; assumption.
    + destruct (Nat.ltb_spec (as_ y) (as_ x)) as [Hlt|Hge'].
      * specialize (IH Hs Hb). destruct (set_insert x s) as [r second]. simpl in *.
        destruct IH as ([Hrs Hrb] & Hlen & Hin).
        split; [|split; [lia | intros z; simpl; rewrite Hin; intuition]].
        split; [|constructor; [split|]; assumption].
        constructor; [exact Hrs|].
        apply Forall_forall. intros z Hz. apply Hin in Hz as [->|Hz]; [exact Hlt|].
        rewrite Forall_forall in Hy. now apply Hy.
      * simpl. split; [|split; [lia|]].
        -- split; [constructor; assumption | constructor; [split|]; assumption].
        -- assert (x = y) by (apply terminal_eq; [assumption..|lia]). subst.
           intros z. simpl. intuition.
Qed.

Lemma set_insert_same B x s :
  terminal_set B s -> isTerminal x = true ->
  snd (set_insert x s) = false -> fst (set_insert x s) = s.
Proof.
  intros [Hs Hb] Hx. induction s as [|y s IH]; simpl; [discriminate|].
  apply StronglySorted_inv in Hs as [Hs Hy].
  apply Forall_cons_1 in Hb as [[Hyt Hyb] Hb].
  destruct (sym_ltb x y); [discriminate|].
  destruct (sym_ltb y x); [|reflexivity].
  specialize (IH Hs Hb). destruct (set_insert x s) as [r second]. simpl in *.
  intros ->. now rewrite IH.
Qed.

Lemma total_insert (F : list SymSet) i s old :
  F !! i = Some old ->
  (total (<[i := s]> F) + length old = total F + length s)%nat.
Proof.
  unfold total. revert i. induction F as [|a F IH]; intros [|i]; simpl; try discriminate.
  - intros [= ->]. unfold SymSet, Symbol in *. lia.
  - intros Hi. specialize (IH _ Hi). unfold SymSet, Symbol in *. lia.
Qed.

Lemma total_bound B (F : list SymSet) :
  Forall (terminal_set B) F -> (total F <= length F * B)%nat.
Proof.
  unfold total. induction 1 as [|s F Hs _ IH]; simpl; [lia|].
  apply terminal_set_length in Hs. unfold SymSet, Symbol in *. lia.
Qed.

Lemma terminal_set_NoDup B s : terminal_set B s -> List.NoDup s.
Proof.
  intros [Hs _]. induction Hs as [|x s Hs IH Hx]; constructor; [|exact IH].
  intros Hin. rewrite Forall_forall in Hx. specialize (Hx _ Hin).
  unfold term_lt in Hx. lia.
Qed.

Lemma set_insert_second B x s :
  terminal_set B s -> isTerminal x = true ->
  (snd (set_insert x s) = true <-> ~ In x s).
Proof.
  intros [Hs Hb] Hx. induction s as [|y s IH]; simpl; [intuition|].
  apply StronglySorted_inv in Hs as [Hs Hy].
  apply Forall_cons_1 in Hb as [[Hyt Hyb] Hb].
  rewrite (sym_ltb_terminals x y), (sym_ltb_terminals y x) by assumption.
  rewrite Forall_forall in Hy. unfold term_lt in Hy.
  destruct (Nat.ltb_spec (as_ x) (as_ y)) as [Hlt|Hge]; simpl.
  - split; [intros _|reflexivity]. intros [->|Hin]; [lia|].
    specialize (Hy _ Hin). lia.
  - destruct (Nat.ltb_spec (as_ y) (as_ x)) as [Hlt|Hge'].
    + specialize (IH Hs Hb). destruct (set_insert x s) as [r second]. simpl in *.
      rewrite IH. split; [intros Hn [->|Hin]; [lia | contradiction] | tauto].
    + simpl. split; [discriminate|]. intros Hn. exfalso. apply Hn. left.
      apply terminal_eq; [assumption..|lia].
Qed.

Lemma sym_eqb_EPSILON `{Enums} x :
  isTerminal x = true -> (sym_eqb x EPSILON = true <-> x = EPSILON).
Proof.
  intros Hx. unfold sym_eqb. rewrite Hx. unfold as_terminal. simpl.
  rewrite Nat.eqb_eq. split; [|now intros ->].
  intros He. apply terminal_eq; [assumption | reflexivity | exact He].
Qed.

Lemma StronglySorted_filter {A} (R : A -> A -> Prop) (f : A -> bool) l :
  StronglySorted R l -> StronglySorted R (List.filter f l).
Proof.
  induction 1 as [|x l Hs IH Hx]; simpl; [constructor|].
  destruct (f x); [|exact IH]. constructor; [exact IH|].
  rewrite Forall_forall in *. intros y Hy. apply filter_In in Hy as [Hy _]. auto.
Qed.

(** [erase(EPSILON)] on a set of terminals. *)
Lemma set_erase_EPSILON `{Enums} B s :
  terminal_set B s ->
  terminal_set B (fst (set_erase EPSILON s)) /\
  (forall y, In y (fst (set_erase EPSILON s)) <-> In y s /\ y <> EPSILON).
Proof.
  intros [Hs Hb]. unfold set_erase. simpl. split; [split|].
  - now apply StronglySorted_filter.
  - rewrite Forall_forall in *. intros y Hy. apply filter_In in Hy as [Hy _]. auto.
  - intros y. rewrite filter_In. rewrite Forall_forall in Hb.
    split; intros [Hy Hf]; (split; [exact Hy|]); destruct (Hb _ Hy) as [Hyt _].
    + intros ->. simpl in Hf. unfold sym_ltb in Hf. simpl in Hf.
      rewrite Nat.ltb_irrefl in Hf. discriminate.
    + rewrite (sym_ltb_terminals EPSILON y), (sym_ltb_terminals y EPSILON)
        by (assumption || reflexivity).
      destruct (Nat.ltb_spec (as_ EPSILON) (as_ y)); [reflexivity|].
      destruct (Nat.ltb_spec (as_ y) (as_ EPSILON)); [reflexivity|].
      exfalso. apply Hf. apply terminal_eq; [assumption | reflexivity | lia].
Qed.

Lemma total_update (F F1 : list SymSet) i set0 set1 :
  length F1 = length F ->
  (forall j, j <> i -> F1 !! j = F !! j) ->
  F !! i = Some set0 -> F1 !! i = Some set1 ->
  (total F1 + length set0 = total F + length set1)%nat.
Proof.
  intros Hlen Hsame H0 H1. unfold SymSet, Symbol in *.
  assert (F1 = <[i := set1]> F) as ->.
  { apply list_eq. intros j. destruct (decide (j = i)) as [->|Hne].
    - rewrite H1. symmetry. apply list_lookup_insert_eq. eapply lookup_lt_Some, H0.
    - rewrite list_lookup_insert_ne by congruence. now apply Hsame. }
  now apply total_insert.
Qed.

Lemma NoDup_incl_lt {A} (l l' : list A) (y : A) :
  List.NoDup l -> incl l l' -> In y l' -> ~ In y l -> (length l < length l')%nat.
Proof.
  intros Hnd Hincl Hy Hny.
  assert (Hle : (length (y :: l) <= length l')%nat).
  { apply List.NoDup_incl_length; [now constructor|].
    intros z [<-|Hz]; [exact Hy | now apply Hincl]. }
  simpl in Hle. lia.
Qed.

End TerminalSets.

Section SetVectors.
Import Grammar GrammarNotions.
Context `{Enums}.

Lemma resize_sets_in_range (F : list SymSet) :
  Forall (terminal_set T_COUNT) F -> sets_in_range (resize NT_COUNT [] F).
Proof.
  intros HF. unfold resize. split.
  - rewrite length_app, length_take, length_replicate. lia.
  - apply Forall_app. split; [now apply Forall_take|].
    apply Forall_replicate, terminal_set_nil.
Qed.

Lemma resize_epsilon_free (F : list SymSet) :
  epsilon_free F -> epsilon_free (resize NT_COUNT [] F).
Proof.
  intros HF. unfold resize, epsilon_free in *.
  apply Forall_app. split; [now apply Forall_take|].
  apply Forall_replicate. intros [].
Qed.

End SetVectors.

Section FirstTermination.
Import Grammar GrammarNotions.
Context `{Enums}.
Hypothesis epsilon_in_range : (T_EPSILON < T_COUNT)%nat.

Lemma grows_refl added F : sets_in_range F -> grows added F added F.
Proof. intros HF. repeat split; try apply HF; auto. Qed.

Lemma grows_trans a F a1 F1 a2 F2 :
  grows a F a1 F1 -> grows a1 F1 a2 F2 -> grows a F a2 F2.
Proof.
  intros (_ & Hle & Hup & Hadd) (HF2 & Hle' & Hup' & Hadd').
  split; [exact HF2|]. split; [lia|]. split; [auto|].
  intros H2. destruct (Hadd' H2) as [H1|Hlt]; [|right; lia].
  destruct (Hadd H1) as [?|Hlt]; [left|right]; [assumption | lia].
Qed.

Lemma set_FIRST_id this : set_FIRST (FIRST this) this = this.
Proof. destruct this; reflexivity. Qed.

(** Inserting a terminal into one of the sets. *)
Lemma insert_grows added F i x s second :
  sets_in_range F -> (i < NT_COUNT)%nat ->
  isTerminal x = true -> (as_ x < T_COUNT)%nat ->
  set_insert x (default [] (F !! i)) = (s, second) ->
  grows added F (added || second) (<[i := s]> F).
Proof.
  intros [Hlen HF] Hi Hx Hxb Hins. unfold SymSet, Symbol in *.
  destruct (lookup_lt_is_Some_2 F i ltac:(lia)) as [old Hold].
  rewrite Hold in Hins. simpl in Hins.
  pose proof (Forall_lookup_1 _ _ _ _ HF Hold) as Hset.
  destruct (set_insert_terminal T_COUNT x old Hset Hx Hxb) as (Hs & Hl & _).
  rewrite Hins in Hs, Hl. simpl in Hs, Hl.
  pose proof (total_insert F i s old Hold) as Htot.
  split; [split|].
  - rewrite length_insert. exact Hlen.
  - apply Forall_insert; assumption.
  - unfold SymSet, Symbol in *.
    destruct second; rewrite ?orb_true_r, ?orb_false_r;
      (split; [lia|]); (split; [auto|]); intros; [right; lia | left; assumption].
Qed.

Lemma first_copy_loop_grows fsetN setIndexH added F r added' F' :
  sets_in_range F -> (setIndexH < NT_COUNT)%nat ->
  Forall (fun x => isTerminal x = true /\ (as_ x < T_COUNT)%nat) fsetN ->
  first_copy_loop fsetN setIndexH added F = (r, added', F') ->
  grows added F added' F'.
Proof.
  intros HF Hi Hset. revert added F HF.
  induction Hset as [|x fsetN [Hx Hxb] _ IH]; intros added F HF; simpl.
  - intros [= <- <- <-]. now apply grows_refl.
  - destruct (sym_eqb x EPSILON); simpl; [intros [= <- <- <-]; now apply grows_refl|].
    destruct (set_insert _ _) as [s second] eqn:Hins.
    pose proof (insert_grows added F setIndexH x s second HF Hi Hx Hxb Hins) as Hstep.
    intros Hloop. eapply grows_trans; [exact Hstep|].
    eapply IH; [apply Hstep | exact Hloop].
Qed.

Lemma calc_FIRST_of_prod_grows prod symbol added index this :
  production_in_range prod -> symbol_in_range symbol ->
  sets_in_range (FIRST this) ->
  exists cont added' F',
    _calc_FIRST_of_prod prod symbol added index this
    = Ret (cont, added', set_FIRST F' this) /\
    grows added (FIRST this) added' F'.
Proof.
  intros (Hhead & Hhi & _) Hsym HF. unfold _calc_FIRST_of_prod.
  pose proof HF as [Hlen HFs]. unfold SymSet, Symbol in *.
  destruct (lookup_lt_is_Some_2 (FIRST this) (as_nonTerminal (prodHead prod))
              ltac:(unfold as_nonTerminal, SymSet, Symbol in *; lia)) as [fsetH HfH].
  unfold Cpp.index. unfold SymSet, Symbol in *. rewrite HfH. simpl.
  unfold symbol_in_range in Hsym.
  destruct (isTerminal symbol) eqn:Hter; simpl.
  - destruct (set_insert _ _) as [s second] eqn:Hins.
    eexists _, _, _. split; [reflexivity|].
    apply insert_grows with (x := symbol); try assumption.
    unfold SymSet, Symbol in *. rewrite HfH. exact Hins.
  - destruct (lookup_lt_is_Some_2 (FIRST this) (as_nonTerminal symbol)
                ltac:(unfold as_nonTerminal, SymSet, Symbol in *; lia)) as [fsetN HfN].
    unfold SymSet, Symbol in *. rewrite HfN. simpl.
    assert (Hret : forall cont,
              exists cont' added' F',
                @Ret (bool * bool * ProductionVector) (cont, added, this)
                = Ret (cont', added', set_FIRST F' this)
                /\ grows added (FIRST this) added' F').
    { intros cont. exists cont, added, (FIRST this). rewrite set_FIRST_id.
      split; [reflexivity | now apply grows_refl]. }
    destruct (sym_eqb symbol (prodHead prod)).
    { destruct (negb _); apply Hret. }
    destruct (bool_decide (fsetN = [])); [apply Hret|].
    pose proof (Forall_lookup_1 _ _ _ _ HFs HfN) as [_ HsetN].
    destruct (first_copy_loop _ _ _ _) as [[r added1] F1] eqn:Hcopy.
    pose proof (first_copy_loop_grows _ _ _ _ _ _ _ HF Hhi HsetN Hcopy) as Hloop.
    destruct r as [r|].
    { eexists _, _, _. split; [reflexivity | exact Hloop]. }
    assert (Hret1 : forall cont,
              exists cont' added' F',
                @Ret (bool * bool * ProductionVector) (cont, added1, set_FIRST F1 this)
                = Ret (cont', added', set_FIRST F' this)
                /\ grows added (FIRST this) added' F').
    { intros cont. exists cont, added1, F1. split; [reflexivity | exact Hloop]. }
    destruct (set_contains EPSILON fsetN); [|apply Hret1].
    destruct (negb (index =? length (prodBody prod))%nat); [apply Hret1|].
    destruct (negb (set_contains EPSILON fsetH)); [|apply Hret1].
    simpl FIRST.
    destruct (set_insert _ _) as [s second] eqn:Hins.
    eexists _, _, _. split; [reflexivity|].
    eapply grows_trans; [exact Hloop|].
    apply insert_grows with (x := EPSILON);
      [apply Hloop | assumption | reflexivity | exact epsilon_in_range | exact Hins].
Qed.

Lemma first_body_loop_grows prod rest index added this :
  production_in_range prod ->
  Forall (fun e => is_gram_symbol e = true -> symbol_in_range (as_gramSymbol e)) rest ->
  sets_in_range (FIRST this) ->
  exists added' F',
    first_body_loop prod rest index added this = Ret (added', set_FIRST F' this) /\
    grows added (FIRST this) added' F'.
Proof.
  intros Hprod Hrest. revert index added this.
  induction Hrest as [|e rest He _ IH]; intros index added this HF; simpl.
  - exists added, (FIRST this). rewrite set_FIRST_id.
    split; [reflexivity | now apply grows_refl].
  - destruct (is_gram_symbol e) eqn:Hg; simpl; [|now apply IH].
    destruct (calc_FIRST_of_prod_grows prod (as_gramSymbol e) added index this
                Hprod (He eq_refl) HF) as (cont & added1 & F1 & -> & Hg1).
    simpl. destruct cont; simpl.
    + destruct (IH (S index) added1 (set_FIRST F1 this) (proj1 Hg1))
        as (added2 & F2 & -> & Hg2).
      exists added2, F2. split; [reflexivity|].
      eapply grows_trans; [exact Hg1 | exact Hg2].
    + exists added1, F1. split; [reflexivity | exact Hg1].
Qed.

Lemma first_prod_loop_grows prods added this :
  Forall production_in_range prods ->
  sets_in_range (FIRST this) ->
  exists added' F',
    first_prod_loop prods added this = Ret (added', set_FIRST F' this) /\
    grows added (FIRST this) added' F'.
Proof.
  intros Hprods. revert added this.
  induction Hprods as [|prod prods Hprod _ IH]; intros added this HF; simpl.
  - exists added, (FIRST this). rewrite set_FIRST_id.
    split; [reflexivity | now apply grows_refl].
  - destruct (first_body_loop_grows prod (prodBody prod) 1 added this Hprod
                (proj2 (proj2 Hprod)) HF) as (added1 & F1 & -> & Hg1).
    simpl.
    destruct (IH added1 (set_FIRST F1 this) (proj1 Hg1)) as (added2 & F2 & -> & Hg2).
    exists added2, F2. split; [reflexivity|].
    eapply grows_trans; [exact Hg1 | exact Hg2].
Qed.

Lemma first_rounds_terminates fuel this :
  grammar_in_range this ->
  sets_in_range (FIRST this) ->
  (NT_COUNT * T_COUNT - total (FIRST this) < fuel)%nat ->
  exists F',
    first_rounds fuel this = Ret (set_FIRST F' this) /\ sets_in_range F'.
Proof.
  revert this. induction fuel as [|fuel IH]; intros this Hg HF Hfuel; [lia|].
  simpl.
  destruct (first_prod_loop_grows (m_Vector this) false this Hg HF)
    as (added1 & F1 & -> & (HF1 & Hle & _ & Hadd)).
  simpl. destruct added1; simpl.
  - destruct (Hadd eq_refl) as [|Hlt]; [discriminate|].
    pose proof (total_bound T_COUNT F1 (proj2 HF1)) as Hb.
    rewrite (proj1 HF1) in Hb.
    destruct (IH (set_FIRST F1 this) Hg HF1 ltac:(simpl; lia)) as (F2 & -> & HF2).
    exists F2. split; [reflexivity | exact HF2].
  - exists F1. split; [reflexivity | exact HF1].
Qed.

(** [calculateFIRST] terminates on every grammar over the enumerations:
    [NT_COUNT * T_COUNT + 1] rounds are enough.  It leaves the productions
    and the FOLLOW cache as they were, sets the flag, and the FIRST cache
    then holds one ascending set of terminals per non-terminal, which
    [getFIRST] returns. *)
Theorem calculateFIRST_terminates (g : ProductionVector) (fuel : nat) :
  grammar_in_range g ->
  m_CalculatedFIRST g = false ->
  Forall (terminal_set T_COUNT) (FIRST g) ->
  (NT_COUNT * T_COUNT < fuel)%nat ->
  exists F',
    calculateFIRST fuel g = Ret (set_CalculatedFIRST true (set_FIRST F' g)) /\
    sets_in_range F' /\
    forall n, (n < NT_COUNT)%nat ->
      exists s, getFIRST n (set_CalculatedFIRST true (set_FIRST F' g)) = Ret s /\
                terminal_set T_COUNT s.
Proof.
  intros Hg Hflag HF Hfuel. unfold calculateFIRST. rewrite Hflag.
  pose proof (resize_sets_in_range _ HF) as HF0.
  destruct (first_rounds_terminates fuel
              (set_FIRST (resize NT_COUNT [] (FIRST g)) g) Hg HF0 ltac:(lia))
    as (F' & Hrun & HF').
  simpl in Hrun. rewrite Hrun. simpl.
  exists F'. split; [reflexivity|]. split; [exact HF'|].
  intros n Hn. unfold getFIRST. simpl.
  destruct HF' as [Hlen HFs].
  destruct (lookup_lt_is_Some_2 F' n ltac:(lia)) as [s Hs].
  exists s. unfold Cpp.index. rewrite Hs.
  split; [reflexivity|]. exact (Forall_lookup_1 _ _ _ _ HFs Hs).
Qed.

End FirstTermination.

Section FirstExample.
Import Grammar GrammarNotions Examples.

Lemma calculateFIRST_terminates_witness :
  (T_EPSILON < T_COUNT)%nat /\
  grammar_in_range grammar_chain /\
  m_CalculatedFIRST grammar_chain = false /\
  Forall (terminal_set T_COUNT) (FIRST grammar_chain) /\
  (NT_COUNT * T_COUNT < 29)%nat /\
  exists F',
    calculateFIRST 29 grammar_chain
    = Ret (set_CalculatedFIRST true (set_FIRST F' grammar_chain)) /\
    sets_in_range F' /\
    forall n, (n < NT_COUNT)%nat ->
      exists s, getFIRST n (set_CalculatedFIRST true (set_FIRST F' grammar_chain)) = Ret s /\
                terminal_set T_COUNT s.
Proof.
  assert (He : (T_EPSILON < T_COUNT)%nat) by (vm_compute; lia).
  assert (Hg : grammar_in_range grammar_chain).
  { repeat constructor; simpl; intros _; vm_compute; lia. }
  assert (Hfuel : (NT_COUNT * T_COUNT < 29)%nat) by (vm_compute; lia).
  split; [exact He|]. split; [exact Hg|]. split; [reflexivity|].
  split; [constructor|]. split; [exact Hfuel|].
  apply (calculateFIRST_terminates He grammar_chain 29 Hg eq_refl (Forall_nil _) Hfuel).
Defined.

End FirstExample.

Section FollowTermination.
Import Grammar GrammarNotions.
Context `{Enums}.

Ltac norm := unfold epsilon_free, SymSet, Symbol in *.

Lemma set_FOLLOW_id this : set_FOLLOW (FOLLOW this) this = this.
Proof. destruct this; reflexivity. Qed.

Lemma keeps_refl F : keeps F F.
Proof. intros j s Hs. exists s. split; [exact Hs | apply incl_refl]. Qed.

Lemma fgrows_refl added F :
  sets_in_range F -> epsilon_free F -> fgrows added F added F.
Proof. intros HF He. repeat split; try apply HF; auto using keeps_refl. Qed.

Lemma fgrows_trans a F a1 F1 a2 F2 :
  fgrows a F a1 F1 -> fgrows a1 F1 a2 F2 -> fgrows a F a2 F2.
Proof.
  intros (_ & Hk & Hle & Hadd) (HF2 & Hk' & Hle' & Hadd').
  split; [exact HF2|]. split; [|split; [lia|]].
  - intros j s Hs. destruct (Hk _ _ Hs) as (s1 & Hs1 & Hi1).
    destruct (Hk' _ _ Hs1) as (s2 & Hs2 & Hi2).
    exists s2. split; [exact Hs2 | eapply incl_tran; eassumption].
  - intros H2. destruct (Hadd' H2) as [H1|Hlt]; [|right; lia].
    destruct (Hadd H1) as [?|Hlt]; [left|right]; [assumption | lia].
Qed.

(** A change of one set that only adds symbols other than EPSILON. *)
Lemma update_fgrows added added1 (F F1 : list SymSet) curr set0 set1 :
  sets_in_range F -> epsilon_free F -> sets_in_range F1 ->
  (forall j, j <> curr -> F1 !! j = F !! j) ->
  F !! curr = Some set0 -> F1 !! curr = Some set1 ->
  incl set0 set1 -> ~ In EPSILON set1 ->
  (added1 = true -> added = true \/ exists y, In y set1 /\ ~ In y set0) ->
  fgrows added F added1 F1.
Proof.
  intros HF He HF1 Hsame H0 H1 Hincl Hne Hadd. unfold SymSet, Symbol in *.
  pose proof (total_update F F1 curr set0 set1
                ltac:(destruct HF, HF1; unfold SymSet, Symbol in *; lia) Hsame H0 H1)
    as Htot.
  pose proof (terminal_set_NoDup _ _ (Forall_lookup_1 _ _ _ _ (proj2 HF) H0)) as Hnd.
  pose proof (List.NoDup_incl_length Hnd Hincl) as Hlen.
  split; [split; [exact HF1|]|split; [|split]].
  - apply Forall_lookup. intros j s Hs. norm. destruct (decide (j = curr)) as [->|Hj].
    + rewrite H1 in Hs. injection Hs as <-. exact Hne.
    + rewrite Hsame in Hs by exact Hj. exact (Forall_lookup_1 _ _ _ _ He Hs).
  - intros j s Hs. norm. destruct (decide (j = curr)) as [->|Hj].
    + rewrite H0 in Hs. injection Hs as <-. exists set1. auto.
    + exists s. rewrite Hsame by exact Hj. split; [exact Hs | apply incl_refl].
  - unfold SymSet, Symbol in *. lia.
  - intros Ha. destruct (Hadd Ha) as [?|(y & Hy & Hny)]; [now left | right].
    pose proof (NoDup_incl_lt _ _ y Hnd Hincl Hy Hny). unfold SymSet, Symbol in *. lia.
Qed.

Lemma cpy_spec src curr added F added1 F1 :
  sets_in_range F -> (curr < NT_COUNT)%nat ->
  Forall (fun x => isTerminal x = true /\ (as_ x < T_COUNT)%nat) src ->
  cpyToFollow_each src curr added F = (added1, F1) ->
  sets_in_range F1 /\
  (forall j, j <> curr -> F1 !! j = F !! j) /\
  exists set0 set1,
    F !! curr = Some set0 /\ F1 !! curr = Some set1 /\
    (forall y, In y set1 <-> In y set0 \/ In y src) /\
    (added1 = true <->
     added = true \/ exists y, In y src /\ ~ In y set0 /\ y <> EPSILON).
Proof.
  intros HF Hc Hsrc. revert added F HF.
  induction Hsrc as [|x src [Hx Hxb] Hsrc IH]; intros added F HF; simpl.
  - intros [= <- <-]. split; [exact HF|]. split; [reflexivity|].
    destruct (lookup_lt_is_Some_2 F curr ltac:(destruct HF; lia)) as [set0 H0].
    exists set0, set0. split; [exact H0|]. split; [exact H0|].
    split; [intros y; simpl; tauto|].
    split; [now left | intros [?|(y & [] & _)]; assumption].
  - destruct (lookup_lt_is_Some_2 F curr ltac:(destruct HF; lia)) as [set0 H0].
    unfold SymSet, Symbol in *. rewrite H0. simpl.
    pose proof (Forall_lookup_1 _ _ _ _ (proj2 HF) H0) as Hset0.
    destruct (set_insert_terminal T_COUNT x set0 Hset0 Hx Hxb) as (Hs & _ & Hmem).
    pose proof (set_insert_second T_COUNT x set0 Hset0 Hx) as Hsec.
    destruct (set_insert x set0) as [s second]. simpl in Hs, Hmem, Hsec.
    assert (HF' : sets_in_range (<[curr := s]> F)).
    { split; [rewrite length_insert; apply HF | apply Forall_insert; [apply HF | exact Hs]]. }
    intros Hrun.
    destruct (IH _ _ HF' Hrun) as (HF1 & Hsame & set0' & set1 & H0' & H1 & Hmem1 & Hadd).
    unfold SymSet, Symbol in *.
    rewrite list_lookup_insert_eq in H0' by (eapply lookup_lt_Some, H0).
    injection H0' as <-.
    split; [exact HF1|]. split.
    { intros j Hj. rewrite Hsame by exact Hj. now apply list_lookup_insert_ne. }
    exists set0, set1. split; [reflexivity|]. split; [exact H1|]. split.
    { intros y. rewrite Hmem1, Hmem. simpl. intuition. }
    assert (Hxe : sym_eqb x EPSILON = true <-> x = EPSILON) by now apply sym_eqb_EPSILON.
    rewrite Hadd. split.
    + intros [Ha|(y & Hy & Hny & Hye)].
      * destruct second; simpl in Ha; [|now left].
        destruct (sym_eqb x EPSILON) eqn:Hxeq; simpl in Ha; [now left|].
        right. exists x. split; [now left|]. split; [now apply Hsec|].
        intros Heq. apply Hxe in Heq. congruence.
      * right. exists y. split; [now right|]. split; [|exact Hye].
        intros Hin. apply Hny, Hmem. now right.
    + intros [Ha|(y & [<-|Hy] & Hny & Hye)].
      * left. destruct (second && _); [reflexivity | exact Ha].
      * left. apply Hsec in Hny. rewrite Hny. simpl.
        destruct (sym_eqb x EPSILON) eqn:Hxeq; [|reflexivity].
        exfalso. apply Hye. now apply Hxe.
      * destruct (Nat.eq_dec (as_ y) (as_ x)) as [Heq|Hneq].
        -- rewrite Forall_forall in Hsrc. destruct (Hsrc _ Hy) as [Hyt _].
           assert (y = x) by (now apply terminal_eq). subst y.
           left. apply Hsec in Hny. rewrite Hny. simpl.
           destruct (sym_eqb x EPSILON) eqn:Hxeq; [|reflexivity].
           exfalso. apply Hye. now apply Hxe.
        -- right. exists y. split; [exact Hy|]. split; [|exact Hye].
           intros Hin. apply Hmem in Hin as [->|Hin]; [now apply Hneq | now apply Hny].
Qed.

Lemma copy_headFollow_fgrows headIndex curr added this added1 this1 :
  sets_in_range (FOLLOW this) -> epsilon_free (FOLLOW this) ->
  (headIndex < NT_COUNT)%nat -> (curr < NT_COUNT)%nat ->
  copy_headFollow headIndex curr added this = (added1, this1) ->
  exists F1, this1 = set_FOLLOW F1 this /\ fgrows added (FOLLOW this) added1 F1.
Proof.
  intros HF He Hh Hc. unfold copy_headFollow.
  destruct (lookup_lt_is_Some_2 (FOLLOW this) headIndex ltac:(destruct HF; lia))
    as [headFollow Hhead].
  unfold SymSet, Symbol in *. rewrite Hhead. simpl.
  destruct (cpyToFollow_each _ _ _ _) as [a1 F1] eqn:Hcpy. intros [= <- <-].
  pose proof (Forall_lookup_1 _ _ _ _ (proj2 HF) Hhead) as [_ Hsrc].
  destruct (cpy_spec _ _ _ _ _ _ HF Hc Hsrc Hcpy)
    as (HF1 & Hsame & set0 & set1 & H0 & H1 & Hmem & Hadd).
  exists F1. split; [reflexivity|].
  pose proof (Forall_lookup_1 _ _ _ _ He Hhead) as Hhe.
  pose proof (Forall_lookup_1 _ _ _ _ He H0) as H0e.
  eapply update_fgrows; try eassumption.
  - intros y Hy. apply Hmem. now left.
  - intros Hin. apply Hmem in Hin as [?|?]; contradiction.
  - intros Ha. apply Hadd in Ha as [?|(y & Hy & Hny & _)]; [now left | right].
    exists y. split; [apply Hmem; now right | exact Hny].
Qed.

Lemma copy_then_erase_fgrows (src : SymSet) curr added (F : list SymSet) added1 F1 :
  sets_in_range F -> epsilon_free F -> (curr < NT_COUNT)%nat ->
  terminal_set T_COUNT src ->
  cpyToFollow_each src curr added F = (added1, F1) ->
  fgrows added F added1
    (<[curr := fst (set_erase EPSILON (default [] (F1 !! curr)))]> F1).
Proof.
  intros HF He Hc [_ Hsrc] Hcpy.
  destruct (cpy_spec _ _ _ _ _ _ HF Hc Hsrc Hcpy)
    as (HF1 & Hsame & set0 & set1 & H0 & H1 & Hmem & Hadd).
  unfold SymSet, Symbol in *. rewrite H1. simpl default.
  pose proof (Forall_lookup_1 _ _ _ _ (proj2 HF1) H1) as Hset1.
  destruct (set_erase_EPSILON T_COUNT set1 Hset1) as (Hs & Hmems).
  pose proof (Forall_lookup_1 _ _ _ _ He H0) as H0e.
  set (s := fst (set_erase EPSILON set1)) in *.
  eapply (update_fgrows added added1 F (<[curr := s]> F1) curr set0 s);
    try eassumption.
  - split; [rewrite length_insert; apply HF1 | apply Forall_insert; [apply HF1 | exact Hs]].
  - intros j Hj. rewrite list_lookup_insert_ne by congruence. now apply Hsame.
  - apply list_lookup_insert_eq. eapply lookup_lt_Some, H1.
  - intros y Hy. apply Hmems. split; [apply Hmem; now left|]. now intros ->.
  - intros Hin. apply Hmems in Hin as [_ Hne]. now apply Hne.
  - intros Ha. apply Hadd in Ha as [?|(y & Hy & Hny & Hye)]; [now left | right].
    exists y. split; [|exact Hny]. apply Hmems. split; [apply Hmem; now right | exact Hye].
Qed.

Lemma insert_terminal_fgrows added (F : list SymSet) curr x s second :
  sets_in_range F -> epsilon_free F -> (curr < NT_COUNT)%nat ->
  isTerminal x = true -> (as_ x < T_COUNT)%nat -> x <> EPSILON ->
  set_insert x (default [] (F !! curr)) = (s, second) ->
  fgrows added F second (<[curr := s]> F).
Proof.
  intros HF He Hc Hx Hxb Hxe Hins.
  destruct (lookup_lt_is_Some_2 F curr ltac:(destruct HF; lia)) as [set0 H0].
  unfold SymSet, Symbol in *. rewrite H0 in Hins. simpl in Hins.
  pose proof (Forall_lookup_1 _ _ _ _ (proj2 HF) H0) as Hset0.
  destruct (set_insert_terminal T_COUNT x set0 Hset0 Hx Hxb) as (Hs & _ & Hmem).
  pose proof (set_insert_second T_COUNT x set0 Hset0 Hx) as Hsec.
  rewrite Hins in Hs, Hmem, Hsec. simpl in Hs, Hmem, Hsec.
  pose proof (Forall_lookup_1 _ _ _ _ He H0) as H0e.
  eapply (update_fgrows added second F (<[curr := s]> F) curr set0 s);
    try eassumption.
  - split; [rewrite length_insert; apply HF | apply Forall_insert; [apply HF | exact Hs]].
  - intros j Hj. now apply list_lookup_insert_ne.
  - apply list_lookup_insert_eq. eapply lookup_lt_Some, H0.
  - intros y Hy. apply Hmem. now right.
  - intros Hin. apply Hmem in Hin as [Heq|?]; [now apply Hxe | contradiction].
  - intros Ha. right. exists x. split; [apply Hmem; now left | now apply Hsec].
Qed.

Lemma follow_scan_fgrows rest varIndex prodBdySz headIndex curr added this :
  sets_in_range (FIRST this) ->
  sets_in_range (FOLLOW this) -> epsilon_free (FOLLOW this) ->
  (headIndex < NT_COUNT)%nat -> (curr < NT_COUNT)%nat ->
  Forall (fun e => is_gram_symbol e = true ->
                   symbol_in_range (as_gramSymbol e) /\ as_gramSymbol e <> EPSILON) rest ->
  exists added' F',
    follow_scan rest varIndex prodBdySz headIndex curr added this
    = Ret (added', set_FOLLOW F' this) /\
    fgrows added (FOLLOW this) added' F'.
Proof.
  intros HFI HF He Hh Hc Hrest. revert varIndex added this HFI HF He.
  induction Hrest as [|e rest Helem _ IH]; intros varIndex added this HFI HF He; simpl.
  - exists added, (FOLLOW this). rewrite set_FOLLOW_id.
    split; [reflexivity | now apply fgrows_refl].
  - destruct (is_gram_symbol e) eqn:Hg; simpl.
    2:{ destruct (negb (varIndex + 1 =? prodBdySz)%nat); [now apply IH|].
        destruct (copy_headFollow headIndex curr added this) as [a1 this1] eqn:Hcopy.
        destruct (copy_headFollow_fgrows _ _ _ _ _ _ HF He Hh Hc Hcopy) as (F1 & -> & Hg1).
        exists a1, F1. split; [reflexivity | exact Hg1]. }
    destruct (Helem eq_refl) as [Hrange Hne]. unfold symbol_in_range in Hrange.
    destruct (isTerminal (as_gramSymbol e)) eqn:Hter.
    + destruct (set_insert _ _) as [s second] eqn:Hins.
      exists second, (<[curr := s]> (FOLLOW this)). split; [reflexivity|].
      eapply insert_terminal_fgrows; eassumption.
    + unfold as_nonTerminal.
      destruct (lookup_lt_is_Some_2 (FIRST this) (as_ (as_gramSymbol e))
                  ltac:(destruct HFI; norm; lia)) as [symbolFrst Hfrst].
      unfold at_. norm. rewrite Hfrst. simpl.
      destruct (cpyToFollow_each _ _ _ _) as [a1 F1] eqn:Hcpy.
      pose proof (copy_then_erase_fgrows symbolFrst curr added (FOLLOW this) a1 F1
                    HF He Hc (Forall_lookup_1 _ _ _ _ (proj2 HFI) Hfrst) Hcpy) as Hg1.
      norm. unfold set_erase in Hg1. cbn [fst] in Hg1.
      set (s := List.filter _ (default [] (F1 !! curr))) in *.
      destruct (negb (set_contains _ _)).
      { exists a1, (<[curr := s]> F1). split; [reflexivity | exact Hg1]. }
      pose proof Hg1 as ([HF1 He1] & _).
      destruct (negb (varIndex + 1 =? prodBdySz)%nat).
      * destruct (IH (S varIndex) a1 (set_FOLLOW (<[curr := s]> F1) this) HFI HF1 He1)
          as (a2 & F2 & Hrun & Hg2).
        exists a2, F2. split; [exact Hrun|].
        eapply fgrows_trans; [exact Hg1 | exact Hg2].
      * destruct (copy_headFollow _ _ _ _) as [a2 this2] eqn:Hcopy.
        destruct (copy_headFollow_fgrows headIndex curr a1
                    (set_FOLLOW (<[curr := s]> F1) this) a2 this2 HF1 He1 Hh Hc Hcopy)
          as (F2 & -> & Hg2).
        pose proof Hg2 as ([HF2 He2] & _).
        destruct (IH (S varIndex) a2 (set_FOLLOW F2 (set_FOLLOW (<[curr := s]> F1) this))
                    HFI HF2 He2) as (a3 & F3 & Hrun & Hg3).
        exists a3, F3. split; [exact Hrun|].
        eapply fgrows_trans; [exact Hg1|].
        eapply fgrows_trans; [exact Hg2 | exact Hg3].
Qed.

Lemma calc_FOLLOW_fgrows nonTerminal prodIndex variableIndex this P :
  m_Vector this !! prodIndex = Some P -> production_ok P ->
  sets_in_range (FIRST this) ->
  sets_in_range (FOLLOW this) -> epsilon_free (FOLLOW this) ->
  (nonTerminal < NT_COUNT)%nat ->
  exists addedNow F',
    _calc_FOLLOW_of_nonTerminal nonTerminal prodIndex variableIndex this
    = Ret (addedNow, set_FOLLOW F' this) /\
    fgrows false (FOLLOW this) addedNow F'.
Proof.
  intros HP [(Hhead & Hhi & Hbody) Heps] HFI HF He Hn.
  unfold _calc_FOLLOW_of_nonTerminal. unfold at_. rewrite HP. simpl.
  destruct (lookup_lt_is_Some_2 (FOLLOW this) (as_nonTerminal (prodHead P))
              ltac:(destruct HF; unfold as_nonTerminal; norm; lia)) as [hf Hhf].
  destruct (lookup_lt_is_Some_2 (FOLLOW this) nonTerminal
              ltac:(destruct HF; norm; lia)) as [cf Hcf].
  norm. rewrite Hhf, Hcf. simpl.
  destruct (variableIndex =? length (prodBody P) - 1)%nat.
  - destruct (copy_headFollow _ _ _ _) as [a1 this1] eqn:Hcopy.
    destruct (copy_headFollow_fgrows _ _ _ _ _ _ HF He Hhi Hn Hcopy) as (F1 & -> & Hg1).
    exists a1, F1. split; [reflexivity | exact Hg1].
  - apply follow_scan_fgrows; try assumption.
    replace (variableIndex + 1)%nat with (1 + variableIndex)%nat by lia.
    rewrite <- drop_drop.
    apply Forall_drop.
    apply Forall_drop with (n := 1%nat) in Hbody.
    rewrite Forall_forall in *. intros e Hin Hg. split; [now apply Hbody | now apply Heps].
Qed.

Lemma follow_body_loop_fgrows prodIndex P rest symIndex added this :
  m_Vector this !! prodIndex = Some P -> production_ok P ->
  Forall (fun e => is_gram_symbol e = true -> symbol_in_range (as_gramSymbol e)) rest ->
  sets_in_range (FIRST this) ->
  sets_in_range (FOLLOW this) -> epsilon_free (FOLLOW this) ->
  exists added' F',
    follow_body_loop prodIndex rest symIndex added this
    = Ret (added', set_FOLLOW F' this) /\
    fgrows added (FOLLOW this) added' F'.
Proof.
  intros HP Hok Hrest. revert symIndex added this HP.
  induction Hrest as [|e rest Helem _ IH]; intros symIndex added this HP HFI HF He; simpl.
  - exists added, (FOLLOW this). rewrite set_FOLLOW_id.
    split; [reflexivity | now apply fgrows_refl].
  - destruct (is_gram_symbol e) eqn:Hg; simpl; [|now apply IH].
    specialize (Helem eq_refl). unfold symbol_in_range in Helem.
    destruct (isTerminal (as_gramSymbol e)); [now apply IH|].
    destruct (calc_FOLLOW_fgrows (as_nonTerminal (as_gramSymbol e)) prodIndex symIndex
                this P HP Hok HFI HF He Helem) as (a1 & F1 & -> & Hg1).
    simpl. pose proof Hg1 as ([HF1 He1] & _).
    destruct (IH (S symIndex) (if a1 then true else added) (set_FOLLOW F1 this)
                HP HFI HF1 He1) as (a2 & F2 & Hrun & Hg2).
    exists a2, F2. split; [rewrite Hrun; reflexivity|].
    eapply fgrows_trans; [|exact Hg2].
    destruct Hg1 as (Hinv & Hk & Hle & Hadd).
    repeat split; try apply Hinv; try assumption.
    destruct a1; [|now left]. intros _. destruct (Hadd eq_refl) as [?|?]; [discriminate|now right].
Qed.

Lemma follow_prod_loop_fgrows prods prodIndex added this :
  (forall k P, prods !! k = Some P -> m_Vector this !! (prodIndex + k)%nat = Some P) ->
  Forall production_ok (m_Vector this) ->
  sets_in_range (FIRST this) ->
  sets_in_range (FOLLOW this) -> epsilon_free (FOLLOW this) ->
  exists added' F',
    follow_prod_loop prods prodIndex added this = Ret (added', set_FOLLOW F' this) /\
    fgrows added (FOLLOW this) added' F'.
Proof.
  revert prodIndex added this.
  induction prods as [|P prods IH]; intros prodIndex added this Hat Hok HFI HF He; simpl.
  - exists added, (FOLLOW this). rewrite set_FOLLOW_id.
    split; [reflexivity | now apply fgrows_refl].
  - assert (HP : m_Vector this !! prodIndex = Some P).
    { specialize (Hat 0%nat P eq_refl). now rewrite Nat.add_0_r in Hat. }
    pose proof (Forall_lookup_1 _ _ _ _ Hok HP) as HPok.
    destruct (follow_body_loop_fgrows prodIndex P (prodBody P) 0 added this HP HPok
                (proj2 (proj2 (proj1 HPok))) HFI HF He) as (a1 & F1 & -> & Hg1).
    simpl. pose proof Hg1 as ([HF1 He1] & _).
    destruct (IH (S prodIndex) a1 (set_FOLLOW F1 this)) as (a2 & F2 & Hrun & Hg2);
      try assumption.
    { intros k Q HQ. specialize (Hat (S k) Q HQ).
      rewrite Nat.add_succ_r in Hat. exact Hat. }
    exists a2, F2. split; [rewrite Hrun; reflexivity|].
    eapply fgrows_trans; [exact Hg1 | exact Hg2].
Qed.

Lemma follow_rounds_terminates fuel this :
  Forall production_ok (m_Vector this) ->
  sets_in_range (FIRST this) ->
  sets_in_range (FOLLOW this) -> epsilon_free (FOLLOW this) ->
  (NT_COUNT * T_COUNT - total (FOLLOW this) < fuel)%nat ->
  exists F',
    follow_rounds fuel this = Ret (set_FOLLOW F' this) /\
    sets_in_range F' /\ epsilon_free F' /\ keeps (FOLLOW this) F'.
Proof.
  revert this. induction fuel as [|fuel IH]; intros this Hok HFI HF He Hfuel; [lia|].
  simpl.
  destruct (follow_prod_loop_fgrows (m_Vector this) 0 false this
              ltac:(intros k P HP; exact HP) Hok HFI HF He)
    as (a1 & F1 & -> & ([HF1 He1] & Hk & Hle & Hadd)).
  simpl. destruct a1; simpl.
  - destruct (Hadd eq_refl) as [|Hlt]; [discriminate|].
    pose proof (total_bound T_COUNT F1 (proj2 HF1)) as Hb.
    rewrite (proj1 HF1) in Hb.
    destruct (IH (set_FOLLOW F1 this) Hok HFI HF1 He1 ltac:(simpl; lia))
      as (F2 & -> & HF2 & He2 & Hk2).
    exists F2. split; [reflexivity|]. split; [exact HF2|]. split; [exact He2|].
    intros j s Hs. destruct (Hk _ _ Hs) as (s1 & Hs1 & Hi1).
    destruct (Hk2 _ _ Hs1) as (s2 & Hs2 & Hi2).
    exists s2. split; [exact Hs2 | eapply incl_tran; eassumption].
  - exists F1. auto.
Qed.

(** [calculateFOLLOW] terminates on every grammar over the enumerations in
    which EPSILON is only written as the first element of a body, once FIRST
    has been computed: [NT_COUNT * T_COUNT + 1] rounds are enough.  It then
    sets the flag and changes the FOLLOW cache only, which holds one
    ascending set of terminals per non-terminal; no set holds EPSILON, and
    the set of the head of the first production holds the end marker. *)
Theorem calculateFOLLOW_terminates (g : ProductionVector) (fuel : nat)
    (startProd : ProductionRecord) :
  (T_EOF < T_COUNT)%nat -> T_EOF <> T_EPSILON ->
  grammar_in_range g -> epsilon_only_first g ->
  m_Vector g !! 0%nat = Some startProd ->
  m_CalculatedFIRST g = true -> sets_in_range (FIRST g) ->
  m_CalculatedFOLLOW g = false ->
  Forall (terminal_set T_COUNT) (FOLLOW g) -> epsilon_free (FOLLOW g) ->
  (NT_COUNT * T_COUNT < fuel)%nat ->
  exists F',
    calculateFOLLOW fuel g = Ret (set_CalculatedFOLLOW true (set_FOLLOW F' g)) /\
    sets_in_range F' /\
    epsilon_free F' /\
    exists s, F' !! as_nonTerminal (prodHead startProd) = Some s /\ In END_MARKER s.
Proof.
  intros Heof Hne Hg Heps Hstart Hfirst HFI Hflag HF He Hfuel.
  unfold calculateFOLLOW. rewrite Hflag, Hfirst. simpl.
  pose proof (resize_sets_in_range _ HF) as HF0.
  pose proof (resize_epsilon_free _ He) as He0.
  set (F0 := resize NT_COUNT [] (FOLLOW g)) in *.
  unfold at_. cbn [m_Vector set_FOLLOW FOLLOW]. rewrite Hstart. cbn [mbind Res_bind bind].
  assert (Hok : Forall production_ok (m_Vector g)).
  { unfold grammar_in_range, epsilon_only_first in *.
    apply Forall_lookup. intros i P HP. split;
      [exact (Forall_lookup_1 _ _ _ _ Hg HP) | exact (Forall_lookup_1 _ _ _ _ Heps HP)]. }
  pose proof (Forall_lookup_1 _ _ _ _ Hg Hstart) as (_ & Hidx & _).
  destruct (lookup_lt_is_Some_2 F0 (as_nonTerminal (prodHead startProd))
              ltac:(destruct HF0; unfold as_nonTerminal, SymSet, Symbol in *; lia))
    as [startFollow Hsf].
  unfold SymSet, Symbol in *. rewrite Hsf. cbn [mbind Res_bind bind].
  destruct (set_insert END_MARKER startFollow) as [s0 second] eqn:Hins. cbn [fst].
  assert (Hend : END_MARKER <> EPSILON).
  { unfold END_MARKER, EPSILON. intros [= Heq]. now apply Hne. }
  pose proof (insert_terminal_fgrows false F0 (as_nonTerminal (prodHead startProd))
                END_MARKER s0 second HF0 He0 Hidx eq_refl Heof Hend
                ltac:(unfold SymSet, Symbol in *; rewrite Hsf; exact Hins))
    as ([HF1 He1] & _).
  pose proof (Forall_lookup_1 _ _ _ _ (proj2 HF0) Hsf) as Hset0.
  destruct (set_insert_terminal T_COUNT END_MARKER startFollow Hset0 eq_refl Heof)
    as (_ & _ & Hmem).
  rewrite Hins in Hmem. simpl in Hmem.
  set (F1 := <[as_nonTerminal (prodHead startProd) := s0]> F0) in *.
  destruct (follow_rounds_terminates fuel (set_FOLLOW F1 (set_FOLLOW F0 g)) Hok HFI HF1 He1
              ltac:(simpl; lia)) as (F' & Hrun & HF' & He' & Hk).
  unfold F1 in Hrun. unfold SymSet, Symbol in *. rewrite Hrun. simpl.
  exists F'. split; [reflexivity|]. split; [exact HF'|]. split; [exact He'|].
  destruct (Hk (as_nonTerminal (prodHead startProd)) s0) as (s & Hs & Hincl).
  { simpl. unfold F1. apply list_lookup_insert_eq. eapply lookup_lt_Some, Hsf. }
  exists s. split; [exact Hs|]. apply Hincl, Hmem. now left.
Qed.

End FollowTermination.

Section FollowExample.
Import Grammar GrammarNotions Examples.

Lemma calculateFOLLOW_terminates_witness :
  calculateFIRST 29 grammar_list = Ret grammar_list_first /\
  (T_EOF < T_COUNT)%nat /\ T_EOF <> T_EPSILON /\
  grammar_in_range grammar_list_first /\ epsilon_only_first grammar_list_first /\
  m_Vector grammar_list_first !! 0%nat = Some (production NT_START [nt NT_S] 0) /\
  m_CalculatedFIRST grammar_list_first = true /\
  sets_in_range (FIRST grammar_list_first) /\
  m_CalculatedFOLLOW grammar_list_first = false /\
  Forall (terminal_set T_COUNT) (FOLLOW grammar_list_first) /\
  epsilon_free (FOLLOW grammar_list_first) /\
  (NT_COUNT * T_COUNT < 29)%nat /\
  exists F',
    calculateFOLLOW 29 grammar_list_first
    = Ret (set_CalculatedFOLLOW true (set_FOLLOW F' grammar_list_first)) /\
    sets_in_range F' /\
    epsilon_free F' /\
    exists s, F' !! as_nonTerminal (prodHead (production NT_START [nt NT_S] 0)) = Some s /\
              In END_MARKER s.
Proof.
  assert (Heof : (T_EOF < T_COUNT)%nat) by (vm_compute; lia).
  assert (Hne : T_EOF <> T_EPSILON) by discriminate.
  assert (Hg : grammar_in_range grammar_list_first).
  { repeat constructor; simpl; intros _; vm_compute; lia. }
  assert (Heps : epsilon_only_first grammar_list_first).
  { repeat constructor; simpl; intros _; discriminate. }
  assert (HFI : sets_in_range (FIRST grammar_list_first)).
  { split; [reflexivity|]. repeat constructor; vm_compute; lia. }
  assert (Hfuel : (NT_COUNT * T_COUNT < 29)%nat) by (vm_compute; lia).
  split; [vm_compute; reflexivity|].
  split; [exact Heof|]. split; [exact Hne|]. split; [exact Hg|]. split; [exact Heps|].
  split; [reflexivity|]. split; [reflexivity|]. split; [exact HFI|].
  split; [reflexivity|]. split; [constructor|]. split; [constructor|].
  split; [exact Hfuel|].
  apply (calculateFOLLOW_terminates grammar_list_first 29 (production NT_START [nt NT_S] 0)
           Heof Hne Hg Heps eq_refl eq_refl HFI eq_refl (Forall_nil _) (Forall_nil _) Hfuel).
Defined.

End FollowExample.

(** ** The dot of an item *)

Section ItemDot.
Import Grammar Items GrammarNotions.

Lemma advance_dot_spec (body : list ProductionElement) (encountered dotPos a : nat) :
  (encountered <= dotPos)%nat ->
  (dotPos - encountered <= symbol_count body)%nat ->
  exists k,
    advance_dot body encountered dotPos a = Ret (a + k)%nat /\
    (k <= length body)%nat /\
    symbol_count (take k body) = (dotPos - encountered)%nat /\
    forall k', (k' < k)%nat -> (symbol_count (take k' body) < dotPos - encountered)%nat.
Proof.
  unfold symbol_count.
  revert encountered a. induction body as [|e body IH]; intros enc a Hle Hcnt; simpl in *.
  - assert (enc = dotPos) as -> by lia. rewrite Nat.eqb_refl.
    exists 0%nat. rewrite Nat.add_0_r.
    split; [reflexivity|]. split; [lia|]. split; [simpl; lia | intros; lia].
  - destruct (Nat.eqb_spec enc dotPos) as [->|Hne].
    + exists 0%nat. rewrite Nat.add_0_r.
      split; [reflexivity|]. split; [lia|]. split; [simpl; lia | intros; lia].
    + destruct (is_gram_symbol e) eqn:He; simpl in Hcnt.
      * destruct (IH (S enc) (S a) ltac:(lia) ltac:(lia)) as (k & Hrun & Hk & Hc & Hmin).
        exists (S k). rewrite Hrun. simpl. rewrite He. simpl.
        split; [f_equal; lia|]. split; [lia|]. split; [lia|].
        intros [|k'] Hk'; simpl; [lia|]. rewrite He. simpl.
        specialize (Hmin k' ltac:(lia)). lia.
      * destruct (IH enc (S a) ltac:(lia) ltac:(lia)) as (k & Hrun & Hk & Hc & Hmin).
        exists (S k). rewrite Hrun. simpl. rewrite He.
        split; [f_equal; lia|]. split; [lia|]. split; [lia|].
        intros [|k'] Hk'; simpl; [lia|]. rewrite He.
        specialize (Hmin k' ltac:(lia)). lia.
Qed.

(** The constructor of an item throws exactly when the dot position exceeds
    the number of grammar symbols of the body.  Otherwise it succeeds, and
    the actual dot position is the least index of the body that has
    [dotPosition] grammar symbols before it: records before the dot are
    counted, a record just after the dot is not skipped. *)
Theorem Item_ctor_actual_dot (P : ProductionRecord) (dotPosition : nat)
    (lookaheads_ : SymSet) :
  if (symbol_count (prodBody P) <? dotPosition)%nat then
    Item_ctor P dotPosition lookaheads_
    = Raise (LogicError "Invalid dot position in item.")
  else
    exists actual,
      Item_ctor P dotPosition lookaheads_
      = Ret (mkItem actual P dotPosition lookaheads_) /\
      (actual <= length (prodBody P))%nat /\
      symbol_count (take actual (prodBody P)) = dotPosition /\
      forall k, (k < actual)%nat -> (symbol_count (take k (prodBody P)) < dotPosition)%nat.
Proof.
  unfold Item_ctor. fold (symbol_count (prodBody P)).
  destruct (Nat.ltb_spec (symbol_count (prodBody P)) dotPosition) as [Hlt|Hge];
    [reflexivity|].
  destruct (advance_dot_spec (prodBody P) 0 dotPosition 0 ltac:(lia) ltac:(lia))
    as (k & Hrun & Hk & Hc & Hmin).
  rewrite Hrun. simpl. exists k. rewrite Nat.sub_0_r in *. auto.
Qed.

End ItemDot.

(** ** The LR driver *)

Ltac st_unfold :=
  unfold mbind, mret, StateRes_bind, StateRes_ret, st_bind, st_ret,
    gets, modify, throw, lift in *.

Section LRDriver.
Import PTable Grammar Lex LR Examples.

Lemma back_snoc {A} (l : list A) (x : A) : back (l ++ [x]) = Some x.
Proof. unfold back. apply last_snoc. Qed.

Lemma pop_back_snoc {A} (l : list A) (x : A) : pop_back (l ++ [x]) = l.
Proof. unfold pop_back. apply removelast_last. Qed.

Lemma size_nonneg {A} (v : list A) : 0 <= size v.
Proof. unfold size. lia. Qed.

(** C2 fails on the code.  [errorNum] is passed to
    [_check_and_resolve_parsing_errors] by value, so the counter of [parse]
    stays at 0 and the limit is never reached: on the input
    [b a b a b a b a b a b a] six errors are recovered in panic mode and the
    parse accepts. *)
Theorem C2_six_errors_recovered_and_accepted :
  exists p',
    lr_run table_list six_errors ERT_PANIC_MODE = Ret (Ret (tt, 6%nat), p') /\
    (Z.of_nat 6 > ERR_RECOVERY_LIMIT) /\
    map state (m_Stack p') = [0; 1].
Proof.
  eexists. split; [vm_compute; reflexivity|]. split; reflexivity.
Qed.

(** C10 (as amended).  A pop through [_pop_state], and a pop of [num]
    states through [_pop_states] for [num] below [SIZE_MAX], first checks
    that a state would remain.  When the check fails the call throws the
    stack-underflow runtime error and the parser is as before; otherwise
    exactly one state, respectively [num] states, are removed from the top
    and the stack is not empty afterwards. *)
Theorem C10_checked_pops_keep_a_state `{Enums} (p : LRParser) (num : Z) :
  0 <= num < SIZE_MAX ->
  (forall r p', _pop_state p = (r, p') ->
     match r with
     | Ret _ =>
         exists top, m_Stack p = m_Stack p' ++ [top] /\ m_Stack p' <> []
     | Raise f =>
         f = RuntimeError "Stack underflow: Cannot pop more states from the LR stack. The stack cannot reach an empty stated."
         /\ p' = p /\ size (m_Stack p) <= 1
     end) /\
  (forall r p', _pop_states num p = (r, p') ->
     match r with
     | Ret _ =>
         exists popped,
           m_Stack p = m_Stack p' ++ popped /\ size popped = num /\
           m_Stack p' <> []
     | Raise f =>
         f = RuntimeError "Stack underflow: Cannot pop states from the LR stack. The stack cannot reach an empty stated."
         /\ p' = p /\ size (m_Stack p) < num + 1
     end).
Proof.
  intros Hnum. unfold SIZE_MAX in Hnum. split.
  - intros r p'. unfold _pop_state. st_unfold.
    destruct (Z.leb_spec (size (m_Stack p)) 1) as [Hle|Hgt].
    + intros [= <- <-]. auto.
    + destruct (m_Stack p) as [|x l] eqn:Hst using rev_ind;
        [unfold size in Hgt; simpl in Hgt; lia|].
      clear IHl. rewrite back_snoc, pop_back_snoc.
      intros [= <- <-]. simpl. exists x. split; [reflexivity|].
      intros ->. unfold size in Hgt. simpl in Hgt. lia.
  - intros r p'. unfold _pop_states. st_unfold.
    rewrite (wrap_small (num + 1)) by lia.
    destruct (Z.ltb_spec (size (m_Stack p)) (num + 1)) as [Hlt|Hge].
    + intros [= <- <-]. auto.
    + destruct (Z.ltb_spec (size (m_Stack p)) num) as [Hlt'|_]; [lia|].
      unfold size in Hge.
      set (n := (length (m_Stack p) - Z.to_nat num)%nat).
      assert (Hn : (0 < n)%nat) by (unfold n; lia).
      assert (Hlen : length (take n (m_Stack p)) = n)
        by (rewrite length_take; unfold n; lia).
      destruct (take n (m_Stack p)) as [|x l] eqn:Htake using rev_ind;
        [simpl in Hlen; lia|].
      clear IHl. simpl. rewrite back_snoc.
      intros [= <- <-]. simpl.
      exists (drop n (m_Stack p)). split; [|split].
      * rewrite <- Htake. symmetry. apply take_drop.
      * unfold size. rewrite length_drop. unfold n. lia.
      * intros Hnil. apply (f_equal (@length _)) in Hnil.
        rewrite length_app in Hnil. simpl in Hnil. lia.
Qed.

(** Two states are popped from a stack of three. *)
Lemma C10_checked_pops_keep_a_state_witness :
  0 <= 2 < SIZE_MAX /\
  (forall r p', _pop_state lr_parser_before_reduce = (r, p') ->
     match r with
     | Ret _ =>
         exists top,
           m_Stack lr_parser_before_reduce = m_Stack p' ++ [top] /\ m_Stack p' <> []
     | Raise f =>
         f = RuntimeError "Stack underflow: Cannot pop more states from the LR stack. The stack cannot reach an empty stated."
         /\ p' = lr_parser_before_reduce /\ size (m_Stack lr_parser_before_reduce) <= 1
     end) /\
  (forall r p', _pop_states 2 lr_parser_before_reduce = (r, p') ->
     match r with
     | Ret _ =>
         exists popped,
           m_Stack lr_parser_before_reduce = m_Stack p' ++ popped /\ size popped = 2 /\
           m_Stack p' <> []
     | Raise f =>
         f = RuntimeError "Stack underflow: Cannot pop states from the LR stack. The stack cannot reach an empty stated."
         /\ p' = lr_parser_before_reduce /\ size (m_Stack lr_parser_before_reduce) < 2 + 1
     end).
Proof.
  assert (Hnum : 0 <= 2 < SIZE_MAX) by (unfold SIZE_MAX; lia).
  split; [exact Hnum|].
  exact (C10_checked_pops_keep_a_state lr_parser_before_reduce 2 Hnum).
Defined.

(** C10, as stated, fails: panic-mode recovery removes states with
    [pop_back], without the check.  With a table that has no goto entry the
    parse of [a b] reaches an error in state 1, both states are removed and
    the parse aborts on an empty stack. *)
Lemma C10_panic_mode_empties_the_stack :
  exists p',
    lr_run table_no_goto [tok_a; tok_b] ERT_PANIC_MODE = Ret (Raise ProcessAbort, p') /\
    m_Stack p' = [].
Proof. eexists. split; [vm_compute; reflexivity | reflexivity]. Qed.

End LRDriver.

Section ReduceLength.
Import PTable Grammar Lex LR.
Context `{Enums}.
Context {ParserResultT : Type}.
Context (reduceAction : nat -> StackType -> LRState -> StackType * LRState).

(** In general: a reduction by a production without postfix action that
    returns normally has removed as many states as the body vector has
    elements, and has pushed one state. *)
Lemma reduce_pops_the_body_length (prodNumber : nat) (p p' : LRParser)
    (P : ProductionRecord) :
  at_ (m_Vector (grammar (p_Table p))) prodNumber = Ret P ->
  postfixAction P = None ->
  _reduce reduceAction prodNumber p = (Ret tt, p') ->
  exists popped newState,
    m_Stack p = take (length (m_Stack p) - length (prodBody P)) (m_Stack p) ++ popped /\
    length popped = length (prodBody P) /\
    m_Stack p' = take (length (m_Stack p) - length (prodBody P)) (m_Stack p) ++ [newState].
Proof.
  intros Hat Hact. unfold _reduce. st_unfold. rewrite Hat, Hact. simpl.
  unfold _pop_states. st_unfold.
  destruct (_ <? wrap _); [discriminate|].
  destruct (Z.ltb_spec (size (m_Stack p)) (size (prodBody P))) as [|Hge]; [discriminate|].
  unfold size in Hge. unfold size. rewrite Nat2Z.id.
  set (kept := take (length (m_Stack p) - length (prodBody P)) (m_Stack p)).
  destruct (back kept) as [top|]; [|discriminate]. simpl.
  unfold on_table.
  destruct (atGoto _ _ _) as [[currEntry|f] t]; [|discriminate].
  destruct (negb _); [discriminate|].
  unfold _push_state. st_unfold. simpl. intros [= <-]. simpl.
  exists (drop (length (m_Stack p) - length (prodBody P)) (m_Stack p)).
  eexists. split; [|split; [|reflexivity]].
  - symmetry. apply take_drop.
  - rewrite length_drop. lia.
Qed.
End ReduceLength.

Section ReduceSymbols.
Import PTable Grammar Lex LR LRNotions.
Context `{Enums}.
Context {ParserResultT : Type}.
Context (reduceAction : nat -> StackType -> LRState -> StackType * LRState).

Lemma lr_body_symbols (body : list ProductionElement) :
  lr_body body -> length (body_grammar_symbols body) = length body.
Proof.
  intros Hb. unfold body_grammar_symbols. rewrite length_map.
  induction Hb as [|e body He _ IH]; [reflexivity|].
  cbn [List.filter]. rewrite He. cbn [length]. now rewrite IH.
Qed.

(** C1.  A reduction by a production P of an LR grammar, whose body holds
    grammar symbols only, works on the stack that the postfix action of P
    (if any) has left.  When that stack has more states than P has grammar
    symbols, exactly |body_grammar_symbols(P)| states are removed from its
    top; only then the goto table is consulted, with the state that has
    been uncovered and the head of P, and the state of the goto entry is
    pushed (or the failure of the table is passed on, with the states
    removed).  Otherwise the reduction throws the stack-underflow error and
    removes nothing. *)
Theorem C1_reduce_pops_the_grammar_symbols (prodNumber : nat) (p : LRParser)
    (P : ProductionRecord) :
  at_ (m_Vector (grammar (p_Table p))) prodNumber = Ret P ->
  lr_body (prodBody P) ->
  size (prodBody P) < SIZE_MAX ->
  let n := length (body_grammar_symbols (prodBody P)) in
  let called :=
    match postfixAction P with
    | Some action => reduceAction action (m_Stack p) LRState_default
    | None => (m_Stack p, LRState_default)
    end in
  let stack := fst called in
  let newState := snd called in
  forall r p',
    _reduce reduceAction prodNumber p = (r, p') ->
    if (n <? length stack)%nat then
      exists kept popped below,
        stack = kept ++ popped /\ length popped = n /\ back kept = Some below /\
        match fst (atGoto (state below) (as_nonTerminal (prodHead P)) (p_Table p)) with
        | Ret entry =>
            if bool_decide (PTable.type entry = TET_GOTO) then
              r = Ret tt /\
              m_Stack p' =
                kept ++ [mkLRState (number entry) (data newState) (token newState)]
            else
              r = Raise (LogicError "Incorrect entry type! Expected type `GOTO` within function reduce after accessing the GOTO table.") /\
              m_Stack p' = kept
        | Raise f => r = Raise f /\ m_Stack p' = kept
        end
    else
      r = Raise (RuntimeError "Stack underflow: Cannot pop states from the LR stack. The stack cannot reach an empty stated.") /\
      m_Stack p' = stack.
Proof.
  intros Hat Hbody Hsize n called stack newState r p'.
  unfold n. rewrite (lr_body_symbols _ Hbody).
  unfold _reduce. st_unfold. rewrite Hat.
  unfold stack, newState, called, call_reduceAction. clear n called stack newState.
  destruct (postfixAction P) as [action|];
    [destruct (reduceAction action (m_Stack p) LRState_default) as [stack newState]|
     set (stack := m_Stack p); set (newState := LRState_default)];
    cbn [fst snd].
  all: unfold _pop_states; st_unfold; cbn [m_Stack set_Stack]; try fold stack.
  all: unfold SIZE_MAX in Hsize; unfold size in *.
  all: rewrite wrap_small by lia.
  all: destruct (Z.ltb_spec (Z.of_nat (length stack)) (Z.of_nat (length (prodBody P)) + 1))
         as [Hlt|Hge];
       [ destruct (Nat.ltb_spec (length (prodBody P)) (length stack)) as [|_]; [lia|];
         intros [= <- <-]; split; reflexivity |].
  all: destruct (Nat.ltb_spec (length (prodBody P)) (length stack)) as [Hn|]; [|lia].
  all: destruct (Z.ltb_spec (Z.of_nat (length stack)) (Z.of_nat (length (prodBody P))))
         as [|_]; [lia|].
  all: rewrite Nat2Z.id.
  all: pose proof (take_drop (length stack - length (prodBody P)) stack) as Hsplit.
  all: assert (Hkept : length (take (length stack - length (prodBody P)) stack) =
                       (length stack - length (prodBody P))%nat)
         by (rewrite length_take; lia).
  all: destruct (take (length stack - length (prodBody P)) stack)
         as [|below kept0 _] using rev_ind; [cbn [length] in Hkept; lia|].
  all: rewrite back_snoc.
  all: cbn [m_Stack set_Stack set_CurrTopState m_CurrTopState p_Table].
  all: unfold on_table; cbn [p_Table set_CurrTopState set_Stack].
  all: intros Hrun.
  all: exists (kept0 ++ [below]), (drop (length stack - length (prodBody P)) stack), below.
  all: split; [symmetry; exact Hsplit|].
  all: split; [rewrite length_drop; lia|]. 
  all: split; [apply back_snoc|].
  all: revert Hrun.
  all: destruct (atGoto (state below) (as_nonTerminal (prodHead P)) (p_Table p))
         as [[entry|f] t']; cbn [fst];
       [|intros [= <- <-]; split; reflexivity].
  all: destruct (bool_decide (PTable.type entry = TET_GOTO)); cbn [negb].
  all: unfold _push_state; st_unfold; cbn [m_Stack set_Stack set_Table set_CurrTopState].
  all: intros [= <- <-]; split; reflexivity.
Qed.
End ReduceSymbols.

Section ReduceGoto.
Import PTable Grammar Lex LR.
Context `{Enums}.
Context {ParserResultT : Type}.
Context (reduceAction : nat -> StackType -> LRState -> StackType * LRState).

(** A reduction by a production without postfix action that returns
    normally has removed as many states as the body vector has elements and
    has pushed one state: the target of the goto entry of the uncovered state
    and the head of the production.  That state is [m_CurrTopState]. *)
Theorem reduce_replaces_the_body_states (prodNumber : nat) (p p' : LRParser)
    (P : ProductionRecord) :
  at_ (m_Vector (grammar (p_Table p))) prodNumber = Ret P ->
  postfixAction P = None ->
  _reduce reduceAction prodNumber p = (Ret tt, p') ->
  exists kept popped below entry,
    m_Stack p = kept ++ popped /\
    length popped = length (prodBody P) /\
    back kept = Some below /\
    fst (atGoto (state below) (as_nonTerminal (prodHead P)) (p_Table p)) = Ret entry /\
    PTable.type entry = TET_GOTO /\
    m_Stack p' = kept ++ [m_CurrTopState p'] /\
    state (m_CurrTopState p') = number entry.
Proof.
  intros Hat Hact. unfold _reduce. st_unfold. rewrite Hat, Hact. simpl.
  unfold _pop_states. st_unfold.
  destruct (_ <? wrap _); [discriminate|].
  destruct (Z.ltb_spec (size (m_Stack p)) (size (prodBody P))) as [|Hge]; [discriminate|].
  unfold size in Hge. unfold size. rewrite Nat2Z.id.
  set (kept := take (length (m_Stack p) - length (prodBody P)) (m_Stack p)).
  destruct (back kept) as [top|] eqn:Hback; [|discriminate]. simpl.
  unfold on_table. simpl.
  destruct (atGoto _ _ _) as [[currEntry|f] t] eqn:Hgoto; [|discriminate].
  destruct (bool_decide (PTable.type currEntry = TET_GOTO)) eqn:Hty; [|discriminate].
  apply bool_decide_eq_true in Hty. simpl.
  unfold _push_state. st_unfold. simpl. intros [= <-]. simpl.
  exists kept, (drop (length (m_Stack p) - length (prodBody P)) (m_Stack p)), top, currEntry.
  repeat split.
  - symmetry. apply take_drop.
  - rewrite length_drop. lia.
  - exact Hback.
  - rewrite Hgoto. reflexivity.
  - exact Hty.
Qed.
End ReduceGoto.

Section LRTable.
Import PTable Grammar Lex LR.
Context `{Enums}.


(** [_pop_states] leaves [m_CurrTopState] equal to the new top of the
    stack; [_pop_state] leaves it equal to the state that it has removed. *)
Theorem pop_state_records_the_removed_state (num : Z) (p p1 p2 : LRParser) :
  _pop_state p = (Ret tt, p1) ->
  _pop_states num p = (Ret tt, p2) ->
  m_Stack p = m_Stack p1 ++ [m_CurrTopState p1] /\
  back (m_Stack p2) = Some (m_CurrTopState p2).
Proof.
  intros H1 H2. split.
  - revert H1. unfold _pop_state. st_unfold.
    destruct (_ <=? _); [discriminate|].
    destruct (m_Stack p) as [|x l] eqn:Hst using rev_ind; [discriminate|].
    clear IHl. rewrite back_snoc, pop_back_snoc. intros [= <-]. reflexivity.
  - revert H2. unfold _pop_states. st_unfold.
    destruct (_ <? _); [discriminate|]. destruct (_ <? _); [discriminate|].
    destruct (back _) as [top|] eqn:Hb; [|discriminate].
    intros [= <-]. simpl. exact Hb.
Qed.

(** Pushing a state and popping one state again gives back the parser as
    it was, provided [m_CurrTopState] was the top of the stack. *)
Theorem push_then_pop_states_round_trip (s : LRState) (p : LRParser) :
  back (m_Stack p) = Some (m_CurrTopState p) ->
  (_push_state s;; _pop_states 1) p = (Ret tt, p).
Proof.
  intros Hb. unfold _push_state, _pop_states. st_unfold. simpl.
  destruct (m_Stack p) as [|x l] eqn:Hst using rev_ind; [discriminate|].
  clear IHl. rewrite back_snoc in Hb. injection Hb as ->.
  unfold size. rewrite !length_app. simpl.
  replace (wrap (1 + 1)) with 2 by reflexivity.
  destruct (Z.ltb_spec (Z.of_nat (length l + 1 + 1)) 2) as [|_]; [lia|].
  destruct (Z.ltb_spec (Z.of_nat (length l + 1 + 1)) 1) as [|_]; [lia|].
  replace (length l + 1 + 1 - Z.to_nat 1)%nat with (length (l ++ [m_CurrTopState p]))
    by (rewrite length_app; simpl; lia).
  rewrite take_app_length. rewrite back_snoc. simpl.
  destruct p; simpl in *. subst. reflexivity.
Qed.

End LRTable.

(** *** The recovery limit is never reported

    The counter that [parse] hands to [_check_and_resolve_parsing_errors] is
    always 0, whatever the table and the input are. *)

Section RecoveryLimit.
Import PTable Grammar Lex LR.
Context `{Enums}.

Lemma never_raises_bind {S A B} bad (m : StateRes S A) (k : A -> StateRes S B) :
  never_raises bad m -> (forall a, never_raises bad (k a)) ->
  never_raises bad (m ≫= k).
Proof.
  intros Hm Hk s f s'. st_unfold.
  destruct (m s) as [[a|f0] s0] eqn:Hms.
  - apply Hk.
  - intros [= <- <-]. eapply Hm, Hms.
Qed.

Lemma never_raises_ret {S A} bad (a : A) : never_raises (S := S) bad (mret a).
Proof. intros s f s'. st_unfold. discriminate. Qed.

Lemma never_raises_gets {S A} bad (g : S -> A) : never_raises bad (gets g).
Proof. intros s f s'. st_unfold. discriminate. Qed.

Lemma never_raises_modify {S} bad (g : S -> S) : never_raises bad (modify g).
Proof. intros s f s'. st_unfold. discriminate. Qed.

Lemma never_raises_throw {S A} bad (f : Failure) :
  f <> bad -> never_raises (S := S) (A := A) bad (throw f).
Proof. intros Hne s f' s'. st_unfold. intros [= <- _]. exact Hne. Qed.

Lemma never_raises_lift {S A} bad (r : Res A) :
  (forall f, r = Raise f -> f <> bad) -> never_raises (S := S) bad (lift r).
Proof. intros Hr s f s'. st_unfold. intros [= -> _]. now apply Hr. Qed.

Lemma at_failure {A} (v : list A) (i : nat) (f : Failure) :
  at_ v i = Raise f -> f = OutOfRange.
Proof. unfold at_. destruct (v !! i); [discriminate | now intros [= <-]]. Qed.

Lemma index_failure {A} (v : list A) (i : nat) (f : Failure) :
  Cpp.index v i = Raise f -> f = Undefined.
Proof. unfold Cpp.index. destruct (v !! i); [discriminate | now intros [= <-]]. Qed.

Lemma never_raises_on_table_atAction st t :
  never_raises limit_exceeded (on_table (atAction st t)).
Proof.
  intros p f p'. unfold on_table, atAction.
  destruct (_ ≫= _); intros [= <- _]; discriminate.
Qed.

Lemma never_raises_on_table_atGoto st t :
  never_raises limit_exceeded (on_table (atGoto st t)).
Proof.
  intros p f p'. unfold on_table, atGoto.
  destruct (_ ≫= _); intros [= <- _]; discriminate.
Qed.

Lemma never_raises_get_next_token : never_raises limit_exceeded get_next_token.
Proof.
  intros p f p'. unfold get_next_token.
  destruct (getNextToken _). discriminate.
Qed.

Ltac nr :=
  repeat match goal with
    | |- never_raises _ (_ ≫= _) => apply never_raises_bind; [|intros]
    | |- never_raises _ (mret _) => apply never_raises_ret
    | |- never_raises _ (gets _) => apply never_raises_gets
    | |- never_raises _ (modify _) => apply never_raises_modify
    | |- never_raises _ (throw _) => apply never_raises_throw; discriminate
    | |- never_raises _ (on_table (atAction _ _)) => apply never_raises_on_table_atAction
    | |- never_raises _ (on_table (atGoto _ _)) => apply never_raises_on_table_atGoto
    | |- never_raises _ get_next_token => apply never_raises_get_next_token
    end.

Lemma never_raises_push_state s : never_raises limit_exceeded (_push_state s).
Proof. unfold _push_state. nr. Qed.

Lemma never_raises_pop_states num : never_raises limit_exceeded (_pop_states num).
Proof.
  unfold _pop_states. nr.
  destruct (_ <? _); nr. destruct (_ <? _); nr. destruct (back _); nr.
Qed.

Context {ParserResultT : Type}.
Context (reduceAction : nat -> StackType -> LRState -> StackType * LRState).
Context (acceptAction :
  nat -> StackType -> LRState -> ParserResultT -> StackType * LRState * ParserResultT).

Lemma never_raises_reduce n : never_raises limit_exceeded (_reduce reduceAction n).
Proof.
  unfold _reduce. nr.
  - apply never_raises_lift. intros f Hf. apply at_failure in Hf. now subst.
  - destruct (postfixAction _); nr.
    intros p f p'. unfold call_reduceAction. destruct (reduceAction _ _ _). discriminate.
  - apply never_raises_pop_states.
  - destruct (negb _); nr. apply never_raises_push_state.
Qed.

Lemma never_raises_take_parsing_action result :
  never_raises limit_exceeded (_take_parsing_action reduceAction acceptAction result).
Proof.
  unfold _take_parsing_action. nr.
  destruct (PTable.type _); nr.
  - apply never_raises_push_state.
  - apply never_raises_reduce.
  - apply never_raises_lift. intros f Hf. apply at_failure in Hf. now subst.
  - destruct (postfixAction _); nr.
    intros p f p'. unfold call_acceptAction. destruct (acceptAction _ _ _ _) as [[? ?] ?]. discriminate.
Qed.

Lemma never_raises_panic_find_state fuel :
  never_raises limit_exceeded (panic_find_state fuel).
Proof.
  induction fuel as [|fuel IH]; simpl; nr.
  destruct (back _); nr.
  - apply never_raises_lift. intros f Hf. unfold getGotos in Hf.
    destruct (Cpp.index _ _) eqn:Hi; simpl in Hf; [discriminate|].
    injection Hf as <-. apply index_failure in Hi. now subst.
  - destruct (negb _); nr. exact IH.
Qed.

Lemma never_raises_panic_try_sync nts currT :
  never_raises limit_exceeded (panic_try_sync nts currT).
Proof.
  induction nts as [|nt nts IH]; simpl; nr.
  - apply never_raises_lift. intros f Hf. unfold getFOLLOW in Hf.
    destruct (m_CalculatedFOLLOW _); [|injection Hf as <-; discriminate].
    apply index_failure in Hf. now subst.
  - destruct (negb _); [exact IH|]. nr.
    destruct (back _); nr. destruct (isError _); nr.
    apply never_raises_push_state.
Qed.

Lemma never_raises_panic_sync fuel nts b :
  never_raises limit_exceeded (panic_sync fuel nts b).
Proof.
  revert b. induction fuel as [|fuel IH]; intros b; simpl; nr.
  destruct b; nr.
  - apply never_raises_panic_try_sync.
  - destruct a0; nr. apply IH.
Qed.

Lemma never_raises_panic_mode fuel :
  never_raises limit_exceeded (_error_recov_panic_mode fuel).
Proof.
  unfold _error_recov_panic_mode. nr.
  - apply never_raises_panic_find_state.
  - destruct a0 as [nts found]. destruct (negb _); nr.
    apply never_raises_panic_sync.
Qed.

Lemma never_raises_check fuel ert :
  never_raises limit_exceeded (_check_and_resolve_parsing_errors fuel 0 ert).
Proof.
  unfold _check_and_resolve_parsing_errors. nr.
  destruct (negb _); nr. simpl.
  destruct (bool_decide (ert = ERT_NONE)); nr.
  destruct ert; nr. apply never_raises_panic_mode.
Qed.

Lemma never_raises_parse_loop fuel ert recovered result :
  never_raises limit_exceeded
    (parse_loop reduceAction acceptAction fuel 0 ert recovered result).
Proof.
  revert recovered result. induction fuel as [|fuel IH]; intros recovered result; simpl; nr.
  - apply never_raises_check.
  - destruct a; [apply IH|]. nr.
    + apply never_raises_take_parsing_action.
    + destruct a as [[] result']; nr. apply IH.
Qed.

Lemma parse_never_reports_the_limit fuel initResult ert p f p' :
  parse reduceAction acceptAction fuel initResult ert p = (Raise f, p') ->
  f <> limit_exceeded.
Proof.
  revert p f p'. change (never_raises limit_exceeded (parse reduceAction acceptAction fuel initResult ert)).
  unfold parse. nr.
  - unfold _reset_parser_state. nr.
  - apply never_raises_push_state.
  - apply never_raises_parse_loop.
Qed.

End RecoveryLimit.

(** ** The LL driver *)

Section LLDriver.
Import Grammar Lex LL Examples.

(** C9 fails on the code.  The main loop has already removed the terminal
    from the stack when [panic_mode] runs, and [panic_mode] calls [pop_back]
    again: with [a] on top of [b] and the token [b], the recovery leaves an
    empty stack, so [b] is lost as well. *)
Theorem C9_panic_mode_pops_a_second_element :
  exists p',
    parse_iteration no_recordAction no_errorAction 10 ERT_PANIC_MODE ll_parser
    = (Ret tt, p') /\
    m_Stack ll_parser = [t T_b; t T_a] /\
    m_CurrInputToken ll_parser = tok_b /\
    m_CurrTopElement p' = t T_a /\
    m_Stack p' = [] /\
    m_Stack p' <> [t T_b].
Proof.
  eexists. split; [vm_compute; reflexivity|]. repeat split. discriminate.
Qed.

(** In general: when a terminal on top of the stack does not match the
    current token, one iteration of the loop in panic mode removes the
    terminal and the element below it. *)
Lemma panic_mode_on_terminal `{Enums}
    (recordAction : nat -> StackType -> nat -> StackType)
    (errorAction : Z -> StackType -> StackElementType -> Token -> bool)
    (fuel : nat) (p : LLParser) (below : StackType) (x : StackElementType)
    (T : Symbol) :
  m_Stack p = below ++ [x; elem_symbol T] ->
  isTerminal T = true ->
  sym_eq_token T Lex.EPSILON = false ->
  sym_eq_token T (m_CurrInputToken p) = false ->
  numOfDetectedErrs p = 0 ->
  exists p',
    parse_iteration recordAction errorAction (S fuel) ERT_PANIC_MODE p = (Ret tt, p') /\
    m_Stack p' = below.
Proof.
  intros Hst HT Heps Hmis Hn.
  unfold parse_iteration. st_unfold.
  replace (below ++ [x; elem_symbol T]) with ((below ++ [x]) ++ [elem_symbol T]) in Hst
    by (rewrite <- app_assoc; reflexivity).
  rewrite Hst, back_snoc. unfold LL.pop_back. st_unfold. simpl.
  rewrite Hst.
  destruct (bool_decide ((below ++ [x]) ++ [elem_symbol T] = [])) eqn:Hd.
  { apply bool_decide_eq_true in Hd. destruct (below ++ [x]); discriminate. }
  rewrite pop_back_snoc. simpl.
  unfold parse_grammar_symbol. st_unfold. simpl.
  rewrite HT, Heps. unfold get_next_token. simpl.
  destruct (getNextToken (mp_LexicalAnalyzer p)) as [tok la]. simpl.
  rewrite Hmis. simpl.
  unfold error_recovery. st_unfold. simpl. rewrite Hn. simpl.
  unfold panic_mode. st_unfold. simpl. rewrite HT.
  unfold LL.pop_back. st_unfold. simpl.
  destruct (bool_decide (below ++ [x] = [])) eqn:Hd'.
  { apply bool_decide_eq_true in Hd'. destruct below; discriminate. }
  simpl. eexists. split; [reflexivity|]. simpl. apply pop_back_snoc.
Qed.

End LLDriver.

Section LLExpand.
Import Grammar Lex LL.
Context `{Enums}.

Lemma push_body_app (rbody : list ProductionElement) (p : LLParser) :
  push_body rbody p = (Ret tt, set_Stack (m_Stack p ++ rbody) p).
Proof.
  revert p. induction rbody as [|se rbody IH]; intros p; simpl.
  - rewrite app_nil_r. destruct p; reflexivity.
  - unfold push_back. st_unfold. rewrite IH. simpl.
    rewrite <- app_assoc. reflexivity.
Qed.

(** Expanding a non-terminal by a production pushes the body in reverse:
    the first element of the body ends on top of the stack, and nothing
    else of the parser changes. *)
Theorem expand_pushes_the_body_reversed (prodIndex_ : Z) (p : LLParser)
    (prod : ProductionRecord) :
  at_ (m_Vector (grammar (p_Table p))) (Z.to_nat prodIndex_) = Ret prod ->
  prodBody prod <> [] ->
  expand prodIndex_ p = (Ret tt, set_Stack (m_Stack p ++ rev (prodBody prod)) p) /\
  back (m_Stack p ++ rev (prodBody prod)) = head (prodBody prod).
Proof.
  intros Hat Hne. split.
  - unfold expand. st_unfold. rewrite Hat.
    rewrite bool_decide_eq_false_2 by exact Hne. apply push_body_app.
  - destruct (prodBody prod) as [|x body]; [contradiction|]. simpl.
    rewrite app_assoc. apply back_snoc.
Qed.

End LLExpand.

(** *** The LL driver never reports the recovery limit *)

Section KeepsInvariant.
Context {S : Type} (I : S -> Prop) (bad : Failure).

Lemma keeps_bind {A B} (m : StateRes S A) (k : A -> StateRes S B) :
  keeps_and_never_raises I bad m -> (forall a, keeps_and_never_raises I bad (k a)) ->
  keeps_and_never_raises I bad (m ≫= k).
Proof.
  intros Hm Hk s r s' HI. st_unfold.
  destruct (m s) as [[a|f0] s0] eqn:Hms.
  - destruct (Hm _ _ _ HI Hms) as [HI0 _]. apply Hk, HI0.
  - intros [= <- <-]. destruct (Hm _ _ _ HI Hms) as [HI0 Hne].
    split; [exact HI0 | intros [= ->]; now apply Hne].
Qed.

Lemma keeps_ret {A} (a : A) : keeps_and_never_raises I bad (mret a).
Proof. intros s r s' HI. st_unfold. intros [= <- <-]. split; [assumption | discriminate]. Qed.

Lemma keeps_gets {A} (g : S -> A) : keeps_and_never_raises I bad (gets g).
Proof. intros s r s' HI. st_unfold. intros [= <- <-]. split; [assumption | discriminate]. Qed.

Lemma keeps_modify (g : S -> S) :
  (forall s, I s -> I (g s)) -> keeps_and_never_raises I bad (modify g).
Proof. intros Hg s r s' HI. st_unfold. intros [= <- <-]. split; [auto | discriminate]. Qed.

Lemma keeps_throw {A} (f : Failure) :
  f <> bad -> keeps_and_never_raises (A := A) I bad (throw f).
Proof.
  intros Hne s r s' HI. st_unfold. intros [= <- <-].
  split; [assumption | congruence].
Qed.

Lemma keeps_lift {A} (r : Res A) :
  r <> Raise bad -> keeps_and_never_raises I bad (lift r).
Proof. intros Hr s r' s' HI. st_unfold. intros [= <- <-]. auto. Qed.
End KeepsInvariant.

Create HintDb ll_ok.

Section LLLimit.
Import Grammar Lex LL.
Context `{Enums}.
Context (recordAction : nat -> StackType -> nat -> StackType).
Context (errorAction : Z -> StackType -> StackElementType -> Token -> bool).

Ltac kn :=
  repeat match goal with
    | |- keeps_and_never_raises _ _ (_ ≫= _) => apply keeps_bind; [|intros]
    | |- keeps_and_never_raises _ _ (mret _) => apply keeps_ret
    | |- keeps_and_never_raises _ _ (gets _) => apply keeps_gets
    | |- keeps_and_never_raises _ _ (modify _) => apply keeps_modify; intros ? ?; assumption
    | |- keeps_and_never_raises _ _ (throw _) => apply keeps_throw; discriminate
    | |- keeps_and_never_raises _ _ (if ?b then _ else _) => destruct b
    | |- keeps_and_never_raises _ _ (match ?x with _ => _ end) => destruct x
    | |- keeps_and_never_raises _ _ _ => solve [auto with ll_ok]
    end.

Lemma ok_push_back se :
  keeps_and_never_raises no_error_counted ll_limit_exceeded
    (push_back se).
Proof. unfold push_back. kn. Qed.

Lemma ok_pop_back :
  keeps_and_never_raises no_error_counted ll_limit_exceeded
    LL.pop_back.
Proof. unfold LL.pop_back. kn. Qed.

Lemma ok_get_next_token :
  keeps_and_never_raises no_error_counted ll_limit_exceeded
    get_next_token.
Proof.
  intros p r p' HI. unfold get_next_token.
  destruct (getNextToken _). intros [= <- <-]. split; [exact HI | discriminate].
Qed.

Lemma ok_peak :
  keeps_and_never_raises no_error_counted ll_limit_exceeded
    peak.
Proof. unfold peak. kn. Qed.

Lemma ok_table_at v t :
  keeps_and_never_raises no_error_counted ll_limit_exceeded
    (table_at v t).
Proof.
  unfold table_at. kn.
  apply keeps_lift. unfold Cpp.index. destruct (_ !! _); discriminate.
Qed.

#[local] Hint Resolve ok_push_back ok_pop_back ok_get_next_token ok_peak ok_table_at : ll_ok.

Lemma ok_push_body rbody :
  keeps_and_never_raises no_error_counted ll_limit_exceeded
    (push_body rbody).
Proof. induction rbody as [|se rbody IH]; simpl; kn. Qed.

#[local] Hint Resolve ok_push_body : ll_ok.

Lemma ok_expand i :
  keeps_and_never_raises no_error_counted ll_limit_exceeded
    (expand i).
Proof.
  unfold expand. kn.
  apply keeps_lift. unfold at_. destruct (_ !! _); discriminate.
Qed.

Lemma ok_call_recordAction r :
  keeps_and_never_raises no_error_counted ll_limit_exceeded
    (call_recordAction recordAction r).
Proof. unfold call_recordAction. kn. Qed.

#[local] Hint Resolve ok_expand ok_call_recordAction : ll_ok.

Lemma ok_try_sync tok :
  keeps_and_never_raises no_error_counted ll_limit_exceeded
    (panic_mode_try_sync_variable errorAction tok).
Proof. unfold panic_mode_try_sync_variable. kn. Qed.

#[local] Hint Resolve ok_try_sync : ll_ok.

Lemma ok_panic_loop fuel topSymbol :
  keeps_and_never_raises no_error_counted ll_limit_exceeded
    (panic_loop errorAction fuel topSymbol).
Proof. induction fuel as [|fuel IH]; simpl; kn. Qed.

#[local] Hint Resolve ok_panic_loop : ll_ok.

Lemma ok_error_recovery fuel ert :
  keeps_and_never_raises no_error_counted ll_limit_exceeded
    (error_recovery errorAction fuel ert).
Proof.
  intros p r p' HI. unfold error_recovery. st_unfold. rewrite HI.
  replace (0 =? ERR_RECOVERY_LIMIT) with false by reflexivity.
  rewrite andb_false_r.
  destruct (bool_decide (ert = ERT_NUM)).
  { intros [= <- <-]. split; [exact HI | discriminate]. }
  destruct ert; try (intros [= <- <-]; split; [exact HI | discriminate]).
  revert HI. generalize p r p'. unfold panic_mode.
  change (keeps_and_never_raises no_error_counted ll_limit_exceeded (top ← gets m_CurrTopElement; panic_loop errorAction fuel (as_gramSymbol top))).
  kn.
Qed.

#[local] Hint Resolve ok_error_recovery : ll_ok.

Lemma ok_parse_grammar_symbol fuel ert :
  keeps_and_never_raises no_error_counted ll_limit_exceeded
    (parse_grammar_symbol errorAction fuel ert).
Proof. unfold parse_grammar_symbol. kn. Qed.

#[local] Hint Resolve ok_parse_grammar_symbol : ll_ok.

Lemma ok_parse_iteration fuel ert :
  keeps_and_never_raises no_error_counted ll_limit_exceeded
    (parse_iteration recordAction errorAction fuel ert).
Proof. unfold parse_iteration. kn. Qed.

#[local] Hint Resolve ok_parse_iteration : ll_ok.

Lemma ok_parse_loop fuel ert :
  keeps_and_never_raises no_error_counted ll_limit_exceeded
    (LL.parse_loop recordAction errorAction fuel ert).
Proof. induction fuel as [|fuel IH]; simpl; kn. Qed.

#[local] Hint Resolve ok_parse_loop : ll_ok.

(** The LL driver never reports that the recovery limit is exhausted: the
    counter [numOfDetectedErrs] of [error_recovery] starts at 0 and no
    statement changes it. *)
Theorem ll_parse_never_reports_the_limit fuel ert p f p' :
  no_error_counted p ->
  LL.parse recordAction errorAction fuel ert p = (Raise f, p') ->
  f <> ll_limit_exceeded /\ no_error_counted p'.
Proof.
  intros HI Hrun.
  assert (Hok :
  keeps_and_never_raises no_error_counted ll_limit_exceeded
    (LL.parse recordAction errorAction fuel ert)).
  { unfold LL.parse, reset_parser_state. kn. }
  destruct (Hok _ _ _ HI Hrun) as [HI' Hne]. split; [congruence | exact HI'].
Qed.

End LLLimit.

(** ** CLOSURE and GOTO *)

Section ClosureGoto.
Import Grammar Items Examples.

(** The equality operators are reflexive. *)
Lemma sym_eqb_refl (s : Symbol) : sym_eqb s s = true.
Proof. unfold sym_eqb. destruct (isTerminal s); apply Nat.eqb_refl. Qed.

Lemma vec_eqb_refl {A} (eqb : A -> A -> bool) (v : list A) :
  (forall x, eqb x x = true) -> vec_eqb eqb v v = true.
Proof.
  intros Hrefl. induction v as [|x v IH]; simpl; [reflexivity|].
  now rewrite Hrefl, IH.
Qed.

Lemma set_eqb_refl (s : SymSet) : set_eqb s s = true.
Proof.
  induction s as [|x s IH]; simpl; [reflexivity|].
  now rewrite sym_eqb_refl, IH.
Qed.

Lemma record_eqb_refl (r : LLRecord) : record_eqb r r = true.
Proof.
  unfold record_eqb.
  now rewrite bool_decide_eq_true_2, Nat.eqb_refl by reflexivity.
Qed.

Lemma elem_eqb_refl (e : ProductionElement) : elem_eqb e e = true.
Proof.
  unfold elem_eqb. rewrite bool_decide_eq_true_2 by reflexivity. simpl.
  destruct (type e); auto using sym_eqb_refl, record_eqb_refl.
Qed.

Lemma prod_eqb_refl (p : ProductionRecord) : prod_eqb p p = true.
Proof.
  unfold prod_eqb. rewrite sym_eqb_refl. simpl.
  apply vec_eqb_refl, elem_eqb_refl.
Qed.

Lemma item_eqb_refl (i : Item) : item_eqb i i = true.
Proof.
  unfold item_eqb. now rewrite Nat.eqb_refl, prod_eqb_refl, set_eqb_refl.
Qed.

Lemma itemset_eqb_same_set (a b : ItemSet) :
  m_Set a = m_Set b -> itemset_eqb a b = true.
Proof.
  intros Heq. unfold itemset_eqb. rewrite Nat.eqb_refl, Heq. simpl.
  apply vec_eqb_refl, item_eqb_refl.
Qed.

(** [insert] works on the set and leaves the closure cache alone. *)
Lemma insert_closure (item : Item) (this this' : ItemSet) (b : bool) :
  insert item this = Ret (b, this') -> m_Closure this' = m_Closure this.
Proof.
  unfold insert. destruct (negb _).
  - intros Hb. apply bind_Ret_inv in Hb as (target & _ & Hb).
    destruct (insertAndAssert _ _) as [l grown].
    injection Hb as _ <-. reflexivity.
  - intros [= _ <-]. reflexivity.
Qed.

Lemma goto_kernel_closure (itemVec : list Item) (result result' : ItemSet) :
  goto_kernel itemVec result = Ret result' ->
  m_Closure result' = m_Closure result.
Proof.
  revert result. induction itemVec as [|item itemVec IH]; intros result; simpl.
  - intros [= <-]. reflexivity.
  - intros Hb. apply bind_Ret_inv in Hb as (kernelItem & _ & Hb).
    apply bind_Ret_inv in Hb as ([b r] & Hins & Hb).
    apply IH in Hb. apply insert_closure in Hins. congruence.
Qed.

(** The closure never shrinks while it is computed. *)
Lemma add_no_lookaheads_grows (prods : list ProductionRecord) (inserted b : bool)
    (this this' : ItemSet) :
  _add_to_closure_no_lookaheads prods inserted this = Ret (b, this') ->
  (length (m_Closure this) <= length (m_Closure this'))%nat.
Proof.
  revert inserted this. induction prods as [|p prods IH]; intros inserted this; simpl.
  - intros [= _ <-]. lia.
  - intros Hb. apply bind_Ret_inv in Hb as (item & _ & Hb).
    simpl in Hb. now apply IH in Hb.
Qed.

Lemma assign_lookaheads_length (it : Iter) (l : SymSet) (this : ItemSet) :
  length (m_Closure (assign_lookaheads it l this)) = length (m_Closure this).
Proof.
  unfold assign_lookaheads. destruct (it_vec it); simpl; [reflexivity|].
  apply length_alter.
Qed.

Lemma add_lookaheads_inner_grows (prods : list ProductionRecord) (l : SymSet)
    (inserted b : bool) (this this' : ItemSet) :
  add_lookaheads_inner prods l inserted this = Ret (b, this') ->
  (length (m_Closure this) <= length (m_Closure this'))%nat.
Proof.
  revert inserted this. induction prods as [|p prods IH]; intros inserted this; simpl.
  - intros [= _ <-]. lia.
  - intros Hb. apply bind_Ret_inv in Hb as (target & _ & Hb).
    destruct (insertAndAssert _ _) as [l' grown].
    apply IH in Hb. rewrite assign_lookaheads_length in Hb. exact Hb.
Qed.

Lemma add_lookaheads_outer_grows (outer all : list ProductionRecord) (l : SymSet)
    (inserted b : bool) (this this' : ItemSet) :
  add_lookaheads_outer outer all l inserted this = Ret (b, this') ->
  (length (m_Closure this) <= length (m_Closure this'))%nat.
Proof.
  revert inserted this. induction outer as [|p outer IH]; intros inserted this; simpl.
  - intros [= _ <-]. lia.
  - intros Hb. apply bind_Ret_inv in Hb as (item & _ & Hb).
    apply bind_Ret_inv in Hb as ([b1 this1] & Hin & Hb).
    apply add_lookaheads_inner_grows in Hin. apply IH in Hb. lia.
Qed.

Lemma closure_lookaheads_grows `{Enums} (ls : list Symbol)
    (symString : GrammaticalSymbolString) (first : list SymSet)
    (prods : list ProductionRecord) (this this' : ItemSet) :
  closure_lookaheads ls symString first prods this = Ret this' ->
  (length (m_Closure this) <= length (m_Closure this'))%nat.
Proof.
  revert this. induction ls as [|la ls IH]; intros this; simpl.
  - intros [= <-]. lia.
  - intros Hb. apply bind_Ret_inv in Hb as (tmp & _ & Hb).
    apply bind_Ret_inv in Hb as (l & _ & Hb).
    apply bind_Ret_inv in Hb as ([b this1] & Hadd & Hb).
    apply add_lookaheads_outer_grows in Hadd. apply IH in Hb. lia.
Qed.

Lemma closure_loop_grows `{Enums} (fuel i : nat) (alt : list (list nat))
    (isLR0 : bool) (first : list SymSet) (grammar : ProductionVector)
    (this this' : ItemSet) :
  closure_loop fuel i alt isLR0 first grammar this = Ret this' ->
  (length (m_Closure this) <= length (m_Closure this'))%nat.
Proof.
  revert i this. induction fuel as [|fuel IH]; intros i this; simpl;
    [discriminate|].
  destruct (negb _); [intros [= <-]; lia|].
  intros Hb. apply bind_Ret_inv in Hb as (item & _ & Hb).
  destruct (_ =? _)%nat; [now apply IH in Hb|].
  apply bind_Ret_inv in Hb as (element & _ & Hb).
  destruct (isTerminal _); [now apply IH in Hb|].
  apply bind_Ret_inv in Hb as (prods & _ & Hb).
  apply bind_Ret_inv in Hb as (symbolProductions & _ & Hb).
  apply bind_Ret_inv in Hb as (this1 & Hadd & Hb).
  apply IH in Hb.
  assert (length (m_Closure this) <= length (m_Closure this1))%nat; [|lia].
  destruct isLR0.
  - apply bind_Ret_inv in Hadd as ([b this2] & Hadd & [= <-]).
    now apply add_no_lookaheads_grows in Hadd.
  - now apply closure_lookaheads_grows in Hadd.
Qed.

(** What [CLOSURE] returns for an item set without cached closure: the
    item set itself when it is empty, otherwise an item set that is its own
    closure and is not empty. *)
Lemma CLOSURE_fresh `{Enums} (fuel : nat) (this : ItemSet) (G : ProductionVector)
    (R this' : ItemSet) (G' : ProductionVector) :
  m_Closure this = [] ->
  CLOSURE fuel this G = Ret (R, this', G') ->
  (R = this /\ m_Set this = []) \/
  (m_Closure R = m_Set R /\ m_Set R <> []).
Proof.
  intros Hc. unfold CLOSURE. rewrite Hc. simpl.
  destruct (m_Set this) as [|item items] eqn:Hs; simpl.
  - intros [= <- _ _]. left. auto.
  - intros Hb. right.
    apply bind_Ret_inv in Hb as (alt & _ & Hb).
    apply bind_Ret_inv in Hb as (G1 & _ & Hb).
    apply bind_Ret_inv in Hb as (this1 & Hloop & [= <- _ _]).
    apply closure_loop_grows in Hloop. simpl in Hloop.
    split; [reflexivity|]. simpl.
    destruct (m_Closure this1); [simpl in Hloop; lia | discriminate].
Qed.

(** Whenever GOTO(I, X) returns an item set R for a grammar, CLOSURE of R
    returns (for any bound on its loops, and without changing R or the
    grammar) an item set that [operator==] finds equal to R. *)
Lemma closure_of_goto_when_it_returns `{Enums} (fuel : nat) (symbol : Symbol)
    (I : ItemSet) (G : ProductionVector) (R I' : ItemSet) (G' : ProductionVector) :
  GOTO fuel symbol I G = Ret (R, I', G') ->
  forall fuel',
    exists R2,
      CLOSURE fuel' R G' = Ret (R2, R, G') /\
      itemset_eqb R2 R = true.
Proof.
  unfold GOTO. intros Hb fuel'.
  apply bind_Ret_inv in Hb as ([this1 G1] & _ & Hb).
  apply bind_Ret_inv in Hb as (foundItems & _ & Hb).
  apply bind_Ret_inv in Hb as (result & Hres & Hb).
  apply bind_Ret_inv in Hb as ([[resultClosure r'] G2] & Hcl & [= <- _ <-]).
  assert (Hfresh : m_Closure result = []).
  { destruct (0 <? _)%nat.
    - now apply goto_kernel_closure in Hres.
    - now injection Hres as <-. }
  destruct (CLOSURE_fresh _ _ _ _ _ _ Hfresh Hcl) as [[-> Hs] | [Hc Hs]].
  - exists result. unfold CLOSURE. rewrite Hfresh, Hs. simpl.
    split; [reflexivity|]. now apply itemset_eqb_same_set.
  - exists (ItemSet_ctor (m_Closure resultClosure)). unfold CLOSURE.
    destruct (m_Closure resultClosure) as [|x l] eqn:Hcl';
      [congruence|]. simpl.
    split; [reflexivity|]. apply itemset_eqb_same_set. simpl. congruence.
Qed.

(** C5 fails on the code.  [START -> . S] with the lookahead [$] is the
    item from which the LR(1) item sets of START -> S, S -> a are built.
    GOTO first takes the closure of the item set.  For the item S -> . a
    that the closure has to add, [_add_to_closure_lookaheads] searches the
    set (its call of [get_item_it] passes [false] for [fromClosure]), finds
    nothing and gets the end of the set; it compares that iterator with the
    end of the closure, takes the item for found and reads its lookaheads
    through the end iterator.  So neither CLOSURE nor GOTO, on any symbol,
    gives an item set, whatever the bound on the loops.  A search of the
    closure, which the comparison with its end presupposes, finds nothing
    either, and the item would have been added with the lookahead [$] that
    has been computed for it.  Without lookaheads the same comparison takes
    S -> . a for found as well, without reading it: the closure of
    [START -> . S] is that item alone, and GOTO on [a] is the empty item
    set. *)
Theorem C5_goto_of_lookahead_items_is_undefined :
  let G := grammar_single in
  let I := itemset_start_eof in
  let closing := mkItemSet (m_Set I) (m_Set I) in
  let S_a := production NT_S [t T_a] 1 in
  Item_ctor (production NT_START [nt NT_S] 0) 0 [END_MARKER] = Ret item_start_eof /\
  get_item_it S_a 0 false closing = set_end closing /\
  iter_eqb (get_item_it S_a 0 false closing) (closure_end closing) = false /\
  deref (get_item_it S_a 0 false closing) closing = Raise Undefined /\
  iter_eqb (get_item_it S_a 0 true closing) (closure_end closing) = true /\
  (G1 ← calculateFIRST 3 G;
   s ← ss_calculateFIRST (FIRST G1) (ss_push_back END_MARKER (SymbolString_ctor []));
   ss_getFIRST s) = Ret [END_MARKER] /\
  _add_to_closure_lookaheads [S_a] [END_MARKER] closing = Raise Undefined /\
  (forall fuel, CLOSURE (3 + fuel) I G = Raise Undefined) /\
  (forall fuel symbol, GOTO (3 + fuel) symbol I G = Raise Undefined) /\
  (forall fuel symbol R, GOTO fuel symbol I G <> Ret R) /\
  (forall fuel,
     GOTO (2 + fuel) (toSymbol_terminal T_a) itemset_start G =
     Ret (ItemSet_default, mkItemSet [item_start] [item_start], G)).
Proof.
  intros G I closing S_a.
  assert (Hgoto : forall fuel symbol, GOTO (3 + fuel) symbol I G = Raise Undefined)
    by (intros fuel symbol; vm_compute; reflexivity).
  split; [reflexivity|]. split; [reflexivity|]. split; [reflexivity|].
  split; [reflexivity|]. split; [reflexivity|].
  split; [vm_compute; reflexivity|]. split; [vm_compute; reflexivity|].
  split; [intros fuel; vm_compute; reflexivity|]. split; [exact Hgoto|].
  split; [|intros fuel; vm_compute; reflexivity].
  intros [|[|[|fuel]]] symbol R; [vm_compute; discriminate ..|].
  pose proof (Hgoto fuel symbol) as Hg. cbn [Nat.add] in Hg.
  rewrite Hg. discriminate.
Qed.

End ClosureGoto.

(** ** The properties of the drivers on the examples *)

Section DriverExamples.
Import PTable Grammar Lex Examples.

(** Goto entries with the targets 1, 2 and 3. *)
Lemma entry_equality_is_an_equivalence_witness :
  entry_eqb (TE_GOTO 1) (TE_GOTO 2) = true /\
  entry_eqb (TE_GOTO 2) (TE_GOTO 3) = true /\
  entry_eqb (TE_GOTO 2) (TE_GOTO 1) = true /\
  entry_eqb (TE_GOTO 1) (TE_GOTO 3) = true.
Proof.
  destruct entry_equality_is_an_equivalence as (_ & Hsym & Htrans).
  split; [reflexivity|]. split; [reflexivity|]. split.
  - apply (Hsym (TE_GOTO 1) (TE_GOTO 2)). reflexivity.
  - apply (Htrans (TE_GOTO 1) (TE_GOTO 2) (TE_GOTO 3)); reflexivity.
Defined.

(** A parse without error recovery of the input [b] ends with the error of
    the error entry. *)
Lemma parse_never_reports_the_limit_witness :
  exists p f p',
    LR.LRParser_ctor 20 [tok_b] table_list = Ret p /\
    LR.parse no_reduceAction no_acceptAction 200 tt ERT_NONE p = (Raise f, p') /\
    f <> limit_exceeded.
Proof.
  eexists. eexists. eexists. split; [vm_compute; reflexivity|].
  match goal with
  | |- LR.parse _ _ _ _ _ ?p = _ /\ _ =>
      split;
      [ vm_compute; reflexivity
      | eapply (parse_never_reports_the_limit no_reduceAction no_acceptAction
                  200 tt ERT_NONE p);
        vm_compute; reflexivity ]
  end.
Defined.

(** The reduction by S -> S a on the stack 0 1 3 removes the states 3 and
    1, consults goto[0][S] and pushes state 1. *)
Lemma C1_reduce_pops_the_grammar_symbols_witness :
  let P := production NT_S [nt NT_S; t T_a] 1 in
  let p := lr_parser_before_reduce in
  let p' := LR.set_CurrTopState (LR.LRState_ctor 1)
              (LR.set_Stack (map LR.LRState_ctor [0; 1]) p) in
  at_ (m_Vector (LR.grammar (LR.p_Table p))) 1 = Ret P /\
  LRNotions.lr_body (prodBody P) /\
  size (prodBody P) < SIZE_MAX /\
  length (body_grammar_symbols (prodBody P)) = 2%nat /\
  LR._reduce no_reduceAction 1 p = (Ret tt, p') /\
  exists kept popped below,
    LR.m_Stack p = kept ++ popped /\ length popped = 2%nat /\
    back kept = Some below /\
    match fst (LR.atGoto (LR.state below) (as_nonTerminal (prodHead P)) (LR.p_Table p)) with
    | Ret entry =>
        if bool_decide (PTable.type entry = TET_GOTO) then
          Ret tt = Ret tt /\
          LR.m_Stack p' =
            kept ++ [LR.mkLRState (number entry) (LR.data LR.LRState_default)
                       (LR.token LR.LRState_default)]
        else
          Ret tt = Raise (LogicError "Incorrect entry type! Expected type `GOTO` within function reduce after accessing the GOTO table.") /\
          LR.m_Stack p' = kept
    | Raise f => Ret tt = Raise f /\ LR.m_Stack p' = kept
    end.
Proof.
  intros P p p'.
  assert (Hat : at_ (m_Vector (LR.grammar (LR.p_Table p))) 1 = Ret P) by reflexivity.
  assert (Hbody : LRNotions.lr_body (prodBody P)) by (repeat constructor).
  assert (Hsize : size (prodBody P) < SIZE_MAX) by reflexivity.
  assert (Hrun : LR._reduce no_reduceAction 1 p = (Ret tt, p'))
    by (vm_compute; reflexivity).
  split; [exact Hat|]. split; [exact Hbody|]. split; [exact Hsize|].
  split; [reflexivity|]. split; [exact Hrun|].
  exact (C1_reduce_pops_the_grammar_symbols no_reduceAction 1 p P Hat Hbody Hsize
           (Ret tt) p' Hrun).
Defined.

(** The reduction by S -> S a on the stack 0 1 3. *)
Lemma reduce_replaces_the_body_states_witness :
  exists P p',
    at_ (m_Vector (LR.grammar (LR.p_Table lr_parser_before_reduce))) 1 = Ret P /\
    postfixAction P = None /\
    LR._reduce no_reduceAction 1 lr_parser_before_reduce = (Ret tt, p') /\
    LR.m_Stack p' = map LR.LRState_ctor [0; 1] /\
    exists kept popped below entry,
      LR.m_Stack lr_parser_before_reduce = kept ++ popped /\
      length popped = length (prodBody P) /\
      back kept = Some below /\
      fst (LR.atGoto (LR.state below) (as_nonTerminal (prodHead P))
             (LR.p_Table lr_parser_before_reduce)) = Ret entry /\
      PTable.type entry = TET_GOTO /\
      LR.m_Stack p' = kept ++ [LR.m_CurrTopState p'] /\
      LR.state (LR.m_CurrTopState p') = number entry.
Proof.
  eexists. eexists. split; [reflexivity|]. split; [reflexivity|].
  split; [vm_compute; reflexivity|]. split; [reflexivity|].
  apply (reduce_replaces_the_body_states no_reduceAction 1 lr_parser_before_reduce).
  - reflexivity.
  - reflexivity.
  - vm_compute. reflexivity.
Defined.


Lemma pop_state_records_the_removed_state_witness :
  exists p1 p2,
    LR._pop_state lr_parser_before_reduce = (Ret tt, p1) /\
    LR._pop_states 2 lr_parser_before_reduce = (Ret tt, p2) /\
    LR.m_CurrTopState p1 = LR.LRState_ctor 3 /\
    LR.m_CurrTopState p2 = LR.LRState_ctor 0 /\
    LR.m_Stack lr_parser_before_reduce = LR.m_Stack p1 ++ [LR.m_CurrTopState p1] /\
    back (LR.m_Stack p2) = Some (LR.m_CurrTopState p2).
Proof.
  eexists. eexists. split; [vm_compute; reflexivity|].
  split; [vm_compute; reflexivity|]. split; [reflexivity|]. split; [reflexivity|].
  apply (pop_state_records_the_removed_state 2 lr_parser_before_reduce);
    vm_compute; reflexivity.
Defined.

Lemma push_then_pop_states_round_trip_witness :
  back (LR.m_Stack lr_parser_before_reduce) = Some (LR.m_CurrTopState lr_parser_before_reduce) /\
  (LR._push_state (LR.LRState_ctor 5);; LR._pop_states 1) lr_parser_before_reduce
  = (Ret tt, lr_parser_before_reduce).
Proof.
  split; [reflexivity|].
  apply (push_then_pop_states_round_trip (LR.LRState_ctor 5) lr_parser_before_reduce).
  reflexivity.
Defined.

(** The expansion of S by S -> a. *)
Lemma expand_pushes_the_body_reversed_witness :
  at_ (m_Vector (LL.grammar (LL.p_Table ll_parser))) (Z.to_nat 1)
  = Ret (production NT_S [t T_a] 1) /\
  prodBody (production NT_S [t T_a] 1) <> [] /\
  LL.expand 1 ll_parser
  = (Ret tt, LL.set_Stack (LL.m_Stack ll_parser ++ rev (prodBody (production NT_S [t T_a] 1)))
               ll_parser) /\
  back (LL.m_Stack ll_parser ++ rev (prodBody (production NT_S [t T_a] 1)))
  = head (prodBody (production NT_S [t T_a] 1)).
Proof.
  split; [reflexivity|]. split; [discriminate|].
  apply (expand_pushes_the_body_reversed 1 ll_parser (production NT_S [t T_a] 1));
    [reflexivity | discriminate].
Defined.

(** With [ERT_ABORT] the first error ends the parse. *)
Lemma ll_parse_never_reports_the_limit_witness :
  exists f p',
    no_error_counted ll_parser /\
    LL.parse no_recordAction no_errorAction 50 ERT_ABORT ll_parser = (Raise f, p') /\
    f <> ll_limit_exceeded /\ no_error_counted p'.
Proof.
  eexists. eexists. split; [reflexivity|].
  split; [vm_compute; reflexivity|].
  eapply (ll_parse_never_reports_the_limit no_recordAction no_errorAction 50 ERT_ABORT
            ll_parser).
  - reflexivity.
  - vm_compute. reflexivity.
Defined.

End DriverExamples.
